(** * creek-backend/audio/recorder.py: the capture pipeline of [AudioRecorder]

    A shallow embedding of the recorder: the driver callback that enqueues
    chunks, the drain worker [_process_audio] that moves them into
    [self.frames], the session controller ([start_recording],
    [stop_recording], [record]) and the WAV encoder [_save_wav].

    Threads are modelled by interleaving. The driver thread contributes
    [Deliver] events and the worker thread [WorkerStep] events, one access
    to the shared attributes per step. The controller calls are functions
    on the shared state; what the other threads do while a call is in
    progress is accounted for before or after it: the driver and the worker
    read nothing that [start_recording] writes after it has started them,
    and the worker reads nothing that [stop()] and [close()] write, so its
    steps commute with them ([worker_ignores_the_stream]). *)

From Stdlib Require Import ZArith QArith List String Ascii Bool Lia.
From Stdlib Require Import Floats.SpecFloat.
From stdpp Require Import base option list gmap strings pretty.

Local Open Scope string_scope.
Local Open Scope list_scope.
Local Open Scope Z_scope.

(** ** Python exceptions and call outcomes *)

Module Py.

(** The exception classes that occur in the recorder or can be handed to it. *)
Inductive exn : Type :=
| RuntimeError (msg : string)
| AttributeError (attr : string)
| ZeroDivisionError
| ValueError (msg : string)
| KeyboardInterrupt
| QueueEmpty                      (* queue.Empty *)
| PortAudioError (msg : string)   (* sounddevice.PortAudioError *)
| OSError (msg : string)
| WaveError (msg : string)        (* wave.Error *)
| StructError (msg : string)      (* struct.error *)
| UserError (cls : string).       (* any other class, e.g. raised by a callback *)

(** What a call does: it returns, it raises, or it never returns
    (a [join] on a thread that does not terminate). *)
Inductive outcome (A : Type) : Type :=
| Returns (a : A)
| Raises (e : exn)
| Blocks.
Arguments Returns {A} a.
Arguments Raises {A} e.
Arguments Blocks {A}.

(** A method body: it transforms the shared state [S] and has an outcome. *)
Definition M (S A : Type) : Type := S -> S * outcome A.

Definition ret {S A} (a : A) : M S A := fun s => (s, Returns a).
Definition raise {S A} (e : exn) : M S A := fun s => (s, Raises e).
Definition bind {S A B} (c : M S A) (k : A -> M S B) : M S B :=
  fun s =>
    match c s with
    | (s', Returns a) => k a s'
    | (s', Raises e) => (s', Raises e)
    | (s', Blocks) => (s', Blocks)
    end.
Definition gets {S A} (f : S -> A) : M S A := fun s => (s, Returns (f s)).
Definition modify {S} (f : S -> S) : M S unit := fun s => (f s, Returns tt).

(** [try: body / except E: handler] where [matches] decides [isinstance(e, E)]. *)
Definition try_except {S A} (body : M S A) (matches : exn -> bool)
    (handler : M S A) : M S A :=
  fun s =>
    match body s with
    | (s', Raises e) => if matches e then handler s' else (s', Raises e)
    | r => r
    end.

(** [try: body / finally: return fin]: the [return] inside [finally]
    discards whatever the body returned or raised. *)
Definition finally_return {S A B} (body : M S A) (fin : M S B) : M S B :=
  fun s =>
    match body s with
    | (s', Blocks) => (s', Blocks)
    | (s', _) => fin s'
    end.

Definition is_KeyboardInterrupt (e : exn) : bool :=
  match e with KeyboardInterrupt => true | _ => false end.

Definition is_QueueEmpty (e : exn) : bool :=
  match e with QueueEmpty => true | _ => false end.

End Py.
Import Py.

Declare Scope py_scope.
Delimit Scope py_scope with py.
Notation "x <- c ;; k" := (bind c (fun x => k))
  (at level 100, c at next level, right associativity) : py_scope.
Notation "c ;;; k" := (bind c (fun _ => k))
  (at level 100, right associativity) : py_scope.

(** ** numpy float32 samples and the narrowing to int16 *)

Module Float32.

Definition prec : Z := 24.
Definition emax : Z := 128.

(** IEEE-754 binary32 values. *)
Definition float32 : Type := spec_float.

Definition mul (x y : float32) : float32 := SFmul prec emax x y.

(** The float32 value of a Python int (exact for |z| < 2^24). *)
Definition of_int (z : Z) : float32 := binary_normalize prec emax z 0 false.

(** The integer part of a finite value, rounded toward zero. *)
Definition trunc (x : float32) : option Z :=
  match x with
  | S754_zero _ => Some 0
  | S754_finite s m e =>
      let a := Z.shiftl (Z.pos m) e in
      Some (if s then - a else a)
  | S754_infinity _ | S754_nan => None
  end.

(** Keep the low 16 bits, read as a two's complement number. *)
Definition wrap16 (z : Z) : Z := (z + 32768) mod 65536 - 32768.

(** [x.astype(np.int16)] for one float32 element: the C conversion
    truncates toward zero. A value outside the int16 range is not clipped:
    the conversion goes through a 32-bit register of which the low half
    is kept. Outside the int32 range (and for nan and inf) the x86-64
    conversion yields 0x80000000, whose low half is 0. *)
Definition astype_int16 (x : float32) : Z :=
  match trunc x with
  | Some z => if (- 2 ^ 31 <=? z) && (z <? 2 ^ 31) then wrap16 z else 0
  | None => 0
  end.

(** The two bytes of an int16, little endian ([ndarray.tobytes]). *)
Definition int16_bytes (z : Z) : list Z := [z mod 256; (z / 256) mod 256].

End Float32.
Import Float32.

(** An audio chunk: [frames x channels] float32 samples; [len(chunk)] is
    its number of frames. *)
Definition chunk : Type := list (list float32).

(** ** The wave module and the disk *)

Record wav_file : Type := mkWav {
  nchannels : Z;
  sampwidth : Z;
  framerate : Z;
  wav_data : list Z;
}.

(** A file on disk: created by [wave.open(path, 'wb')] and still empty, a
    complete WAV container, or what a failed [struct.pack] in the wave
    writer leaves behind. *)
Inductive file : Type :=
| EmptyFile
| WavFile (w : wav_file)
| RiffStub                (* b'RIFFRIFF': the header was begun twice, never packed *)
| UnpatchedWav (w : wav_file) (declared : Z).
                          (* all the data, behind a header that still declares
                             [declared] bytes of it *)

(** ** datetime and the output file name *)

Record datetime : Type := mkDatetime {
  year : Z; month : Z; day : Z;
  hour : Z; minute : Z; second : Z;
  microsecond : Z;
}.

Definition digit (d : Z) : ascii := ascii_of_nat (Z.to_nat (48 + d)).

(** [%m], [%d], [%H], [%M], [%S]: two digits, zero padded. *)
Definition pad2 (n : Z) : string :=
  String (digit (n / 10)) (String (digit (n mod 10)) EmptyString).

(** [%Y]: the year in four digits. *)
Definition pad4 (n : Z) : string := pad2 (n / 100) +:+ pad2 (n mod 100).

(** [now.strftime("%Y%m%d_%H%M%S")] *)
Definition strftime (now : datetime) : string :=
  pad4 (year now) +:+ pad2 (month now) +:+ pad2 (day now) +:+ "_" +:+
  pad2 (hour now) +:+ pad2 (minute now) +:+ pad2 (second now).

(** *** pathlib, on a POSIX system *)

(** The pieces of a string between its slashes. *)
Fixpoint split_slash (s : string) : list string :=
  match s with
  | EmptyString => [EmptyString]
  | String c rest =>
      if Ascii.eqb c "/" then EmptyString :: split_slash rest
      else match split_slash rest with
           | part :: parts => String c part :: parts
           | [] => [String c EmptyString]
           end
  end.

(** The components of [Path(s)]: the pieces that are neither empty nor a
    single dot. *)
Definition path_parts (s : string) : list string :=
  List.filter (fun part => negb (String.eqb part "" || String.eqb part "."))
    (split_slash s).

(** The root of [Path(s)]: one slash for an absolute path, but two when
    the string starts with exactly two. *)
Definition path_root (s : string) : string :=
  match s with
  | String c1 (String c2 (String c3 _)) =>
      if Ascii.eqb c1 "/" && Ascii.eqb c2 "/"
      then (if Ascii.eqb c3 "/" then "/" else "//")
      else if Ascii.eqb c1 "/" then "/" else ""
  | String c1 (String c2 EmptyString) =>
      if Ascii.eqb c1 "/" && Ascii.eqb c2 "/" then "//"
      else if Ascii.eqb c1 "/" then "/" else ""
  | String c1 EmptyString => if Ascii.eqb c1 "/" then "/" else ""
  | EmptyString => ""
  end.

(** The components of a directory as a prefix: each followed by a slash. *)
Definition dir_prefix (parts : list string) : string :=
  foldr (fun part acc => part +:+ "/" +:+ acc) "" parts.

(** [str(output_dir / f"recording_{timestamp}.wav")], where [output_dir]
    is the string that [Path(...)] was built from: the root, the
    components of the directory and the file name, joined by slashes. *)
Definition recording_path (output_dir : string) (now : datetime) : string :=
  path_root output_dir +:+ dir_prefix (path_parts output_dir) +:+
  "recording_" +:+ strftime now +:+ ".wav".

(** ** The recorder object *)

(** [callback(duration_seconds, chunk_size)]: [None] when the call returns,
    [Some e] when it raises [e]. *)
Definition progress_callback : Type := Q -> nat -> option exn.

(** A sounddevice stream. [stop()] and [close()] are called with their
    default [ignore_errors=True] and never raise. *)
Inductive stream_state : Type :=
| StreamOpened      (* constructed, not started *)
| StreamActive      (* started: the driver invokes the callback *)
| StreamClosed.     (* stopped and closed *)

(** Where the thread running [_process_audio] stands. *)
Inductive thread_state : Type :=
| AtWhile           (* about to read [self.recording] in the loop test *)
| AtEmptyTest       (* read [self.recording] as false, about to call [empty()] *)
| AtGet             (* inside [self.audio_queue.get(timeout=0.5)] *)
| Exited            (* the loop test was false: the target returned *)
| Crashed (e : exn). (* an exception left the target *)

Record AudioRecorder : Type := mkAudioRecorder {
  sample_rate : Z;
  channels : Z;
  chunk_size : Z;
  max_duration : Q;
  recording : bool;
  audio_queue : list chunk;
  frames : list chunk;
  processing_thread : option thread_state;
  callback : option progress_callback;
  output_dir : string;
  (* the two attributes below are not assigned by [__init__] *)
  stream : option stream_state;
  output_file : option string;
}.

(** The recorder together with what it acts on: the disk, and the log of
    the calls made to the progress callback (arguments of each call). *)
Record world : Type := mkWorld {
  self : AudioRecorder;
  disk : gmap string file;
  progress_calls : list (Q * nat);
}.

Definition set_recording (b : bool) (r : AudioRecorder) : AudioRecorder :=
  mkAudioRecorder (sample_rate r) (channels r) (chunk_size r) (max_duration r)
    b (audio_queue r) (frames r) (processing_thread r) (callback r)
    (output_dir r) (stream r) (output_file r).

Definition set_audio_queue (q : list chunk) (r : AudioRecorder) : AudioRecorder :=
  mkAudioRecorder (sample_rate r) (channels r) (chunk_size r) (max_duration r)
    (recording r) q (frames r) (processing_thread r) (callback r)
    (output_dir r) (stream r) (output_file r).

Definition set_frames (f : list chunk) (r : AudioRecorder) : AudioRecorder :=
  mkAudioRecorder (sample_rate r) (channels r) (chunk_size r) (max_duration r)
    (recording r) (audio_queue r) f (processing_thread r) (callback r)
    (output_dir r) (stream r) (output_file r).

Definition set_processing_thread (t : option thread_state) (r : AudioRecorder)
    : AudioRecorder :=
  mkAudioRecorder (sample_rate r) (channels r) (chunk_size r) (max_duration r)
    (recording r) (audio_queue r) (frames r) t (callback r)
    (output_dir r) (stream r) (output_file r).

Definition set_callback (c : option progress_callback) (r : AudioRecorder)
    : AudioRecorder :=
  mkAudioRecorder (sample_rate r) (channels r) (chunk_size r) (max_duration r)
    (recording r) (audio_queue r) (frames r) (processing_thread r) c
    (output_dir r) (stream r) (output_file r).

Definition set_stream (s : option stream_state) (r : AudioRecorder) : AudioRecorder :=
  mkAudioRecorder (sample_rate r) (channels r) (chunk_size r) (max_duration r)
    (recording r) (audio_queue r) (frames r) (processing_thread r) (callback r)
    (output_dir r) s (output_file r).

Definition set_output_file (p : option string) (r : AudioRecorder) : AudioRecorder :=
  mkAudioRecorder (sample_rate r) (channels r) (chunk_size r) (max_duration r)
    (recording r) (audio_queue r) (frames r) (processing_thread r) (callback r)
    (output_dir r) (stream r) p.

Definition on_self (f : AudioRecorder -> AudioRecorder) (w : world) : world :=
  mkWorld (f (self w)) (disk w) (progress_calls w).

Definition set_disk (d : gmap string file) (w : world) : world :=
  mkWorld (self w) d (progress_calls w).

Definition log_progress_call (d : Q) (n : nat) (w : world) : world :=
  mkWorld (self w) (disk w) (progress_calls w ++ [(d, n)]).

(** The [recording] section of the configuration file. *)
Record recording_config : Type := mkConfig {
  cfg_sample_rate : Z;
  cfg_channels : Z;
  cfg_chunk_size : Z;
  cfg_max_duration_minutes : Z;
  cfg_save_directory : string;
}.

(** [x or default] on an optional int argument. *)
Definition or_config (x : option Z) (default : Z) : Z :=
  match x with
  | Some v => if v =? 0 then default else v
  | None => default
  end.

(** [AudioRecorder.__init__] *)
Definition init (config : recording_config) (sample_rate channels chunk_size : option Z)
    : AudioRecorder :=
  {| sample_rate := or_config sample_rate (cfg_sample_rate config);
     channels := or_config channels (cfg_channels config);
     chunk_size := or_config chunk_size (cfg_chunk_size config);
     max_duration := inject_Z (cfg_max_duration_minutes config * 60);
     recording := false;
     audio_queue := [];
     frames := [];
     processing_thread := None;
     callback := None;
     output_dir := cfg_save_directory config;
     stream := None;
     output_file := None |}.

(** ** The driver thread *)

(** [_audio_callback(indata, frames, time_info, status)]: a status flag is
    only printed; the copy of the block goes to the back of the queue. *)
Definition _audio_callback (indata : chunk) (status : bool) (w : world) : world :=
  on_self (fun r => set_audio_queue (audio_queue r ++ [indata]) r) w.

(** ** The drain worker *)

(** [(len(self.frames) * self.chunk_size) / self.sample_rate], the exact
    quotient of the two ints (Python rounds it to the nearest double). *)
Definition elapsed_seconds (r : AudioRecorder) : Q :=
  (inject_Z (Z.of_nat (length (frames r)) * chunk_size r)
   / inject_Z (sample_rate r))%Q.

(** The body of the [try] once [get] has returned [data]: append, then
    report progress. Its result is the exception that leaves the [try]
    block, if any. *)
Definition process_item (data : chunk) (w : world) : world * option exn :=
  let w := on_self (fun r => set_frames (frames r ++ [data]) r) w in
  match callback (self w) with
  | None => (w, None)
  | Some cb =>
      if sample_rate (self w) =? 0 then (w, Some ZeroDivisionError)
      else
        let duration := elapsed_seconds (self w) in
        (log_progress_call duration (length data) w, cb duration (length data))
  end.

(** One step of the thread running [_process_audio]:
    [while self.recording or not self.audio_queue.empty():]
    [    try: data = self.audio_queue.get(timeout=0.5); ...]
    [    except queue.Empty: continue] *)
Definition _process_audio_step (w : world) : world :=
  let goto t := on_self (set_processing_thread (Some t)) in
  match processing_thread (self w) with
  | Some AtWhile =>
      if recording (self w) then goto AtGet w else goto AtEmptyTest w
  | Some AtEmptyTest =>
      match audio_queue (self w) with
      | [] => goto Exited w
      | _ :: _ => goto AtGet w
      end
  | Some AtGet =>
      match audio_queue (self w) with
      | [] => goto AtWhile w            (* timeout: queue.Empty, caught *)
      | data :: rest =>
          let w := on_self (set_audio_queue rest) w in
          match process_item data w with
          | (w, None) => goto AtWhile w
          | (w, Some e) =>
              if is_QueueEmpty e then goto AtWhile w else goto (Crashed e) w
          end
      end
  | Some Exited | Some (Crashed _) | None => w
  end.

Definition thread_finished (w : world) : bool :=
  match processing_thread (self w) with
  | Some Exited | Some (Crashed _) => true
  | _ => false
  end.

(** The worker running alone for at most [fuel] steps, until its target
    has returned or raised. *)
Fixpoint run_worker (fuel : nat) (w : world) : option world :=
  if thread_finished w then Some w
  else match fuel with
       | O => None
       | S fuel => run_worker fuel (_process_audio_step w)
       end.

(** [self.processing_thread.join()]. The controller calls it after it has
    closed the stream and cleared the flag, so the worker runs alone; three
    steps per queued chunk and three more then bring it to its end
    ([join_returns]). A worker that has not ended by then never will
    ([join_blocks_only_forever]): the call blocks. *)
Definition join : M world unit :=
  fun w =>
    match run_worker (3 * length (audio_queue (self w)) + 3) w with
    | Some w' => (w', Returns tt)
    | None => (w, Blocks)
    end.

(** ** What happens while the controller is not running *)

Inductive event : Type :=
| Deliver (indata : chunk) (status : bool)   (* the driver has a block ready *)
| WorkerStep.                                (* the worker thread is scheduled *)

Definition run_event (ev : event) (w : world) : world :=
  match ev with
  | Deliver indata status =>
      match stream (self w) with
      | Some StreamActive => _audio_callback indata status w
      | _ => w                               (* no active stream: no callback *)
      end
  | WorkerStep => _process_audio_step w
  end.

Definition run_events (evs : list event) (w : world) : world :=
  fold_left (fun w ev => run_event ev w) evs w.

(** The blocks the driver hands over during [evs], in order. *)
Fixpoint delivered (evs : list event) : list chunk :=
  match evs with
  | [] => []
  | Deliver indata _ :: evs => indata :: delivered evs
  | WorkerStep :: evs => delivered evs
  end.

(** ** The session controller *)

(** What the platform answers during one [start_recording]. *)
Record start_env : Type := mkStartEnv {
  open_error : option string;     (* [sd.InputStream(...)] raises *)
  start_error : option string;    (* [self.stream.start()] raises *)
  now : datetime;                 (* [datetime.now()] *)
}.

(** [start_recording(callback)]. [self.start_time] is written here and read
    nowhere; it is left out. *)
Definition start_recording (env : start_env) (cb : option progress_callback)
    : M world string :=
  (r <- gets self ;;
   if recording r then raise (RuntimeError "Recording is already in progress")
   else
     modify (on_self (set_callback cb)) ;;;
     modify (on_self (set_recording true)) ;;;
     modify (on_self (set_frames [])) ;;;
     match open_error env with
     | Some msg => raise (PortAudioError msg)
     | None => modify (on_self (set_stream (Some StreamOpened)))
     end ;;;
     modify (on_self (set_processing_thread (Some AtWhile))) ;;;
     match start_error env with
     | Some msg => raise (PortAudioError msg)
     | None => modify (on_self (set_stream (Some StreamActive)))
     end ;;;
     r <- gets self ;;
     let path := recording_path (output_dir r) (now env) in
     modify (on_self (set_output_file (Some path))) ;;;
     ret path)%py.

(** [(audio_data * 32767).astype(np.int16)] on one sample. *)
Definition to_pcm16 (s : float32) : Z := astype_int16 (mul s (of_int 32767)).

(** [audio_data.tobytes()] of the int16 array, row by row. *)
Definition tobytes (rows : list (list Z)) : list Z :=
  flat_map (flat_map int16_bytes) rows.

(** *** The wave writer *)

Definition uint16_max : Z := 65535.
Definition uint32_max : Z := 4294967295.

(** [struct.pack('<L4s4sLHHLLHH4s', 36 + datalength, b'WAVE', b'fmt ', 16,
    1, nchannels, framerate, nchannels * framerate * 2, nchannels * 2, 16,
    b'data')] for a channel count and a frame rate of at least one: the
    message of [struct.error] for the first field that does not fit its
    format, if there is one. *)
Definition pack_header (nchannels framerate datalength : Z) : option string :=
  let too_long := "'L' format requires 0 <= number <= 4294967295" in
  let too_short := "ushort format requires 0 <= number <= 65535" in
  if uint32_max <? 36 + datalength then Some too_long
  else if uint16_max <? nchannels then Some too_short
  else if uint32_max <? framerate then Some too_long
  else if uint32_max <? nchannels * framerate * 2 then Some too_long
  else if uint16_max <? nchannels * 2 then Some too_short
  else None.
Arguments pack_header : simpl never.

(** [_save_wav(audio_data, filepath)]. Opening the file creates or empties
    it. What leaves the [with] block is what [close()] raises in
    [__exit__], should it raise as well:
    - [setnchannels] and [setframerate] reject a value below one, and
      [close()] then finds the parameter missing;
    - [writeframes] writes the header for the whole frames of the data; when
      [struct.pack] fails there, [close()] begins the header again and
      fails again;
    - data that are no whole number of frames make [writeframes] patch the
      two length fields; when [struct.pack] fails there, so it does in
      [close()], and the header stays as it was written. *)
Definition _save_wav (wave_open_error : option string) (audio_data : chunk)
    (filepath : string) : M world unit :=
  (let pcm := map (map to_pcm16) audio_data in
   let data := tobytes pcm in
   let written := Z.of_nat (length data) in
   match wave_open_error with
   | Some msg => raise (OSError msg)
   | None => modify (fun w => set_disk (<[filepath := EmptyFile]> (disk w)) w)
   end ;;;
   r <- gets self ;;
   let container :=
     {| nchannels := channels r; sampwidth := 2;
        framerate := sample_rate r; wav_data := data |} in
   if channels r <? 1 then raise (WaveError "# channels not specified")
   else if sample_rate r <=? 0 then raise (WaveError "sampling rate not specified")
   else
     let datalength := written / (channels r * 2) * (channels r * 2) in
     match pack_header (channels r) (sample_rate r) datalength with
     | Some msg =>
         modify (fun w => set_disk (<[filepath := RiffStub]> (disk w)) w) ;;;
         raise (StructError msg)
     | None =>
         if (datalength =? written) || (36 + written <=? uint32_max)
         then modify (fun w =>
                set_disk (<[filepath := WavFile container]> (disk w)) w)
         else
           modify (fun w =>
             set_disk (<[filepath := UnpatchedWav container datalength]> (disk w)) w) ;;;
           raise (StructError "'L' format requires 0 <= number <= 4294967295")
     end)%py.

(** [stop_recording()]. [wave_open_error] is what opening the output file
    answers, should the file be written. *)
Definition stop_recording (wave_open_error : option string) : M world string :=
  (r <- gets self ;;
   if negb (recording r) then raise (RuntimeError "No recording in progress")
   else
     match stream r with
     | None => raise (AttributeError "stream")
     | Some _ => modify (on_self (set_stream (Some StreamClosed)))  (* stop(); close() *)
     end ;;;
     modify (on_self (set_recording false)) ;;;
     match processing_thread r with
     | Some _ => join
     | None => ret tt
     end ;;;
     r <- gets self ;;
     match frames r with
     | [] => ret tt
     | _ :: _ =>
         match output_file r with
         | None => raise (AttributeError "output_file")
         | Some path => _save_wav wave_open_error (concat (frames r)) path
         end
     end ;;;
     match output_file r with
     | None => raise (AttributeError "output_file")
     | Some path => ret path
     end)%py.

(** What happens in [record] between the return of [start_recording] and
    the call of [stop_recording]: the driver and the worker run, whether
    [time.sleep(duration)] waits or refuses a negative duration at once,
    and a sleep that waits ends normally or with an exception. *)
Record sleep_env : Type := mkSleepEnv {
  during : list event;
  interrupted : option exn;
}.

Definition time_sleep (env : sleep_env) (duration : Q) : M world unit :=
  fun w =>
    (run_events (during env) w,
     if Qle_bool 0 duration
     then match interrupted env with
          | None => Returns tt
          | Some e => Raises e
          end
     else Raises (ValueError "sleep length must be non-negative")).

(** [record(duration, callback)] *)
Definition record (senv : start_env) (slenv : sleep_env)
    (wave_open_error : option string)
    (duration : option Q) (cb : option progress_callback) : M world string :=
  (r <- gets self ;;
   let duration := match duration with
                   | None => max_duration r
                   | Some d => d
                   end in
   output_file <- start_recording senv cb ;;
   finally_return
     (try_except (time_sleep slenv duration) is_KeyboardInterrupt
        (ret tt))                       (* print("Recording stopped by user") *)
     (stop_recording wave_open_error))%py.

(** ** Vocabulary of the statements *)

(** Everything the worker has taken or will take: the frame buffer followed
    by the queue. *)
Definition pending (r : AudioRecorder) : list chunk := frames r ++ audio_queue r.

Definition crashed (r : AudioRecorder) : bool :=
  match processing_thread r with
  | Some (Crashed _) => true
  | _ => false
  end.

(** The progress callback, if there is one, cannot make the [try] block of
    the worker fail: the division is defined and every call returns or
    raises [queue.Empty] (which the [except] clause catches). *)
Definition quiet_callback (r : AudioRecorder) : Prop :=
  match callback r with
  | None => True
  | Some cb =>
      sample_rate r <> 0 /\ forall d n, cb d n = None \/ cb d n = Some QueueEmpty
  end.

(** The attributes that neither the driver nor the worker writes. *)
Definition same_settings (r r' : AudioRecorder) : Prop :=
  sample_rate r' = sample_rate r /\ channels r' = channels r /\
  chunk_size r' = chunk_size r /\ max_duration r' = max_duration r /\
  recording r' = recording r /\ callback r' = callback r /\
  output_dir r' = output_dir r /\ stream r' = stream r /\
  output_file r' = output_file r.

(** The worker alone does what a run of [WorkerStep] events does. *)
Definition worker_steps (k : nat) : list event := repeat WorkerStep k.


(** [join] on [w], whose queue holds [q], returns within [fuel] steps. *)
Definition drained (fuel : nat) (w : world) (q : list chunk) : Prop :=
  exists w',
    run_worker fuel w = Some w' /\
    thread_finished w' = true /\
    (exists k, w' = run_events (worker_steps k) w) /\
    (quiet_callback (self w) ->
     processing_thread (self w') = Some Exited /\
     audio_queue (self w') = [] /\
     frames (self w') = frames (self w) ++ q).

(** The recorder right after a [start_recording] that returned. *)
Definition started (env : start_env) (cb : option progress_callback) (w : world)
    : world :=
  on_self (fun r =>
    set_output_file (Some (recording_path (output_dir r) (now env)))
      (set_stream (Some StreamActive)
        (set_processing_thread (Some AtWhile)
          (set_frames [] (set_recording true (set_callback cb r)))))) w.

(** The recorder right after a [start_recording] whose stream failed to open. *)
Definition open_failed (cb : option progress_callback) (w : world) : world :=
  on_self (fun r => set_frames [] (set_recording true (set_callback cb r))) w.

(** [stop_recording] up to its [join]: the stream is closed and the flag
    cleared. *)
Definition signal_stop (w : world) : world :=
  on_self (set_recording false) (on_self (set_stream (Some StreamClosed)) w).

(** [stop_recording] after its [join]: save and return. *)
Definition save_and_return (wave_open_error : option string) : M world string :=
  (r <- gets self ;;
   match frames r with
   | [] => ret tt
   | _ :: _ =>
       match output_file r with
       | None => raise (AttributeError "output_file")
       | Some path => _save_wav wave_open_error (concat (frames r)) path
       end
   end ;;;
   match output_file r with
   | None => raise (AttributeError "output_file")
   | Some path => ret path
   end)%py.




(** The states of the recorder between two calls of the controller. *)
Inductive reachable : world -> Prop :=
| reach_init config sr ch cs d :
    reachable (mkWorld (init config sr ch cs) d [])
| reach_event ev w :
    reachable w -> reachable (run_event ev w)
| reach_start env cb w :
    reachable w -> reachable (fst (start_recording env cb w))
| reach_stop e w :
    reachable w -> reachable (fst (stop_recording e w)).

(** The states inside [stop_recording], while the controller waits in
    [join] and the worker runs. *)
Inductive joining : world -> Prop :=
| joining_begin w s :
    reachable w -> recording (self w) = true -> stream (self w) = Some s ->
    joining (signal_stop w)
| joining_step w :
    joining w -> joining (_process_audio_step w).

(** Between calls, an idle recorder has no running worker, and a running
    worker of an active recorder is not past a false flag test. *)
Definition thread_inv (r : AudioRecorder) : Prop :=
  match processing_thread r with
  | None | Some Exited | Some (Crashed _) => True
  | Some AtWhile | Some AtGet => recording r = true
  | Some AtEmptyTest => False
  end.

(** During a session: the flag is set and the worker is in its loop,
    unless an exception ended it. *)
Definition looping (r : AudioRecorder) : Prop :=
  recording r = true /\
  match processing_thread r with
  | Some AtWhile | Some AtGet | Some (Crashed _) => True
  | _ => False
  end.

(** The progress reports owed for the frame buffer [fs]: for the k-th
    chunk (counting from one), [(k * chunk_size / sample_rate, len(chunk))]. *)
Definition progress_of (r : AudioRecorder) (fs : list chunk) : list (Q * nat) :=
  imap (fun i data =>
          ((inject_Z (Z.of_nat (S i) * chunk_size r) / inject_Z (sample_rate r))%Q,
           length data)) fs.

(** A date and time of the local clock, with a four-digit year. *)
Definition valid_datetime (t : datetime) : Prop :=
  1000 <= year t <= 9999 /\ 1 <= month t <= 12 /\ 1 <= day t <= 31 /\
  0 <= hour t <= 23 /\ 0 <= minute t <= 59 /\ 0 <= second t <= 59.

(** Two clock readings that agree down to the second. *)
Definition same_second (t1 t2 : datetime) : Prop :=
  year t1 = year t2 /\ month t1 = month t2 /\ day t1 = day t2 /\
  hour t1 = hour t2 /\ minute t1 = minute t2 /\ second t1 = second t2.

(** The calls a client can make on the recorder, each with what the
    platform answers during the call. *)
Inductive api_call : Type :=
| CallStart (senv : start_env) (cb : option progress_callback)
| CallRecord (senv : start_env) (slenv : sleep_env)
    (wave_open_error : option string) (duration : option Q)
    (cb : option progress_callback)
| CallStop (wave_open_error : option string).

Definition run_call (c : api_call) : M world string :=
  match c with
  | CallStart senv cb => start_recording senv cb
  | CallRecord senv slenv e duration cb => record senv slenv e duration cb
  | CallStop e => stop_recording e
  end.

(** A sequence of calls: the final state and the outcome of each call. *)
Fixpoint run_calls (cs : list api_call) (w : world)
    : world * list (outcome string) :=
  match cs with
  | [] => (w, [])
  | c :: cs =>
      let '(w', r) := run_call c w in
      let '(w'', rs) := run_calls cs w' in
      (w'', r :: rs)
  end.

Definition is_stop (c : api_call) : bool :=
  match c with CallStop _ => true | _ => false end.

(** The outcome of a call on a recorder whose flag is stuck and which
    never had a stream. *)
Definition stuck_outcome (c : api_call) : outcome string :=
  if is_stop c then Raises (AttributeError "stream")
  else Raises (RuntimeError "Recording is already in progress").

(** An idle recorder has no open stream. *)
Definition stream_inv (r : AudioRecorder) : Prop :=
  recording r = false -> stream r = None \/ stream r = Some StreamClosed.

(** *** The conversion as the specification words it *)




(** ** Concrete sessions *)

Definition demo_config : recording_config := mkConfig 16000 1 1024 60 "recordings".

(** A recorder as [AudioRecorder()] builds it, on an empty disk. *)
Definition fresh : world := mkWorld (init demo_config None None None) ∅ [].

Definition demo_clock : datetime := mkDatetime 2024 3 9 7 5 2 123456.
Definition demo_start : start_env := mkStartEnv None None demo_clock.
Definition demo_path : string := "recordings/recording_20240309_070502.wav".

(** The float32 values 0.5, 1.5 and -0.25. *)
Definition f_half : float32 := S754_finite false 8388608 (-24).
Definition f_three_halves : float32 := S754_finite false 12582912 (-23).
Definition f_minus_quarter : float32 := S754_finite true 8388608 (-25).

Definition block_a : chunk := [[f_half]].
Definition block_b : chunk := [[f_three_halves]].
Definition block_c : chunk := [[f_minus_quarter]; [f_half]].

(** An observer that fails on every call, one that never fails, and one
    that fails from its second call on (the second call reports
    2 * 1024 / 16000 seconds). *)
Definition faulty_callback : progress_callback :=
  fun _ _ => Some (ValueError "observer failed").
Definition silent_callback : progress_callback := fun _ _ => None.
Definition late_faulty_callback : progress_callback :=
  fun d _ => if Qle_bool (2048 # 16000) d
             then Some (UserError "ObserverError") else None.

(** Three blocks arrive; the worker takes the first two before the third. *)
Definition three_blocks : list event :=
  [Deliver block_a false; Deliver block_b false;
   WorkerStep; WorkerStep; WorkerStep; WorkerStep; Deliver block_c true].

(** Two blocks arrive before the worker is scheduled twice. *)
Definition both_then_worker : list event :=
  [Deliver block_a false; Deliver block_b false; WorkerStep; WorkerStep].

(** One block is taken by the worker; later another block arrives and the
    worker is scheduled again. *)
Definition taken_then_more : list event :=
  [Deliver block_a false; WorkerStep; WorkerStep].
Definition more_after : list event :=
  [Deliver block_b false; WorkerStep; WorkerStep; WorkerStep].

(** A second session on the same recorder, started 0.86 s after the first
    one: the first session records [block_a], the second [block_b]. *)
Definition demo_clock_later : datetime := mkDatetime 2024 3 9 7 5 2 987654.
Definition demo_start_later : start_env := mkStartEnv None None demo_clock_later.
Definition one_block (data : chunk) : list event :=
  [Deliver data false; WorkerStep; WorkerStep].
Definition after_first_session : world :=
  fst (stop_recording None
         (run_events (one_block block_a) (started demo_start None fresh))).
Definition after_second_session : world :=
  fst (stop_recording None
         (run_events (one_block block_b)
            (started demo_start_later None after_first_session))).

(** The device cannot be opened. *)
Definition demo_start_failing : start_env :=
  mkStartEnv (Some "Error opening InputStream: Invalid device") None demo_clock.

(** The device opens, but the stream cannot be started. *)
Definition demo_start_unstartable : start_env :=
  mkStartEnv None (Some "Error starting stream") demo_clock.

(** ** main.py: the recording endpoints

    The two handlers are coroutines without an [await]: each runs to its
    end on the event loop before the next request is served. *)

(** [SermonMetadata] *)
Record SermonMetadata : Type := mkSermonMetadata {
  title : option string;
  speaker : option string;
  location : option string;
  date : option string;
  series : option string;
  bible_passage : option string;
  service_type : option string;
}.

(** An entry of [active_recordings]: the keys written by the start
    endpoint, and those the stop endpoint adds. *)
Record recording_entry : Type := mkEntry {
  start_time : Q;
  file_path : string;
  metadata : SermonMetadata;
  end_time : option Q;
  status : option string;
}.

(** The module state of main.py: the global recorder and the registry. *)
Record service : Type := mkService {
  recorder : world;
  active_recordings : gmap string recording_entry;
}.

(** How a request ends: with one of the two response bodies
    (["recording_started"], ["recording_stopped"]), with an HTTPException,
    with an exception that [except Exception] does not catch, or never. *)
Inductive response : Type :=
| RecordingStarted (session_id : string) (path : string)
| RecordingStopped (session_id : string) (path : string) (duration : Q)
| HTTPException (status_code : Z) (detail : string)
| Uncaught (e : exn)
| NoResponse.

(** [str(e)] *)
Definition str_of_exn (e : exn) : string :=
  match e with
  | RuntimeError msg | ValueError msg | PortAudioError msg
  | OSError msg | WaveError msg | StructError msg => msg
  | AttributeError attr =>
      "'AudioRecorder' object has no attribute '" +:+ attr +:+ "'"
  | ZeroDivisionError => "division by zero"
  | KeyboardInterrupt | QueueEmpty | UserError _ => ""
  end.

(** [isinstance(e, Exception)]: KeyboardInterrupt derives from
    BaseException only. *)
Definition is_Exception (e : exn) : bool := negb (is_KeyboardInterrupt e).

(** [int(t)] for a float: the integer part, toward zero. *)
Definition int_of_float (t : Q) : Z := Z.quot (Qnum t) (Z.pos (Qden t)).

(** [except Exception as e: raise HTTPException(status_code=500, detail=str(e))] *)
Definition internal_error (e : exn) : response :=
  if is_Exception e then HTTPException 500 (str_of_exn e) else Uncaught e.

(** [POST /api/recordings/start]. [t_id] and [t_start] are the two readings
    of [time.time()], [senv] what the platform answers to the recorder. *)
Definition start_endpoint (t_id t_start : Q) (senv : start_env)
    (md : SermonMetadata) (sv : service) : service * response :=
  if recording (self (recorder sv))
  then (sv, HTTPException 400 "Recording already in progress")
  else
    let session_id := pretty (int_of_float t_id) in
    match start_recording senv None (recorder sv) with
    | (w, Returns path) =>
        (mkService w
           (<[session_id := mkEntry t_start path md None None]>
              (active_recordings sv)),
         RecordingStarted session_id path)
    | (w, Raises e) => (mkService w (active_recordings sv), internal_error e)
    | (w, Blocks) => (mkService w (active_recordings sv), NoResponse)
    end.

(** [POST /api/recordings/{session_id}/stop]. [t_end] is the reading of
    [time.time()]. *)
Definition stop_endpoint (t_end : Q) (wave_open_error : option string)
    (session_id : string) (sv : service) : service * response :=
  match active_recordings sv !! session_id with
  | None => (sv, HTTPException 404 "Recording session not found")
  | Some entry =>
      match stop_recording wave_open_error (recorder sv) with
      | (w, Returns path) =>
          (mkService w
             (<[session_id :=
                  mkEntry (start_time entry) path (metadata entry)
                    (Some t_end) (Some "completed")]>
                (active_recordings sv)),
           RecordingStopped session_id path (t_end - start_time entry)%Q)
      | (w, Raises e) => (mkService w (active_recordings sv), internal_error e)
      | (w, Blocks) => (mkService w (active_recordings sv), NoResponse)
      end
  end.

(** What the driver and the worker do between two requests. *)
Definition between_requests (evs : list event) (sv : service) : service :=
  mkService (run_events evs (recorder sv)) (active_recordings sv).

(** A request to one of the two endpoints, with what the platform answers. *)
Inductive request : Type :=
| PostStart (t_id t_start : Q) (senv : start_env) (md : SermonMetadata)
| PostStop (t_end : Q) (wave_open_error : option string) (session_id : string).

Definition serve (rq : request) (sv : service) : service * response :=
  match rq with
  | PostStart t_id t_start senv md => start_endpoint t_id t_start senv md sv
  | PostStop t_end e session_id => stop_endpoint t_end e session_id sv
  end.

(** Requests served one after the other, the recorder's threads running in
    between. *)
Fixpoint serve_all (rqs : list (list event * request)) (sv : service)
    : service * list response :=
  match rqs with
  | [] => (sv, [])
  | (evs, rq) :: rqs =>
      let '(sv', r) := serve rq (between_requests evs sv) in
      let '(sv'', rs) := serve_all rqs sv' in
      (sv'', r :: rs)
  end.

(** The answer of a service whose recorder is stuck with its flag set and
    whose registry is empty. *)
Definition stuck_response (rq : request) : response :=
  match rq with
  | PostStart _ _ _ _ => HTTPException 400 "Recording already in progress"
  | PostStop _ _ _ => HTTPException 404 "Recording session not found"
  end.

Definition is_post_start (rq : request) : bool :=
  match rq with PostStart _ _ _ _ => true | PostStop _ _ _ => false end.

(** The answer to a stop request of a service whose recorder is idle. *)
Definition idle_stop_response (registry : gmap string recording_entry)
    (rq : request) : response :=
  match rq with
  | PostStop _ _ session_id =>
      if registry !! session_id is Some _
      then HTTPException 500 "No recording in progress"
      else HTTPException 404 "Recording session not found"
  | PostStart _ _ _ _ => NoResponse
  end.

(** The service as the module builds it. *)
Definition fresh_service : service := mkService fresh ∅.
Definition no_metadata : SermonMetadata :=
  mkSermonMetadata None None None None None None None.

(** * creek-backend/config/__init__.py: the configuration manager

    [ConfigManager] keeps the parsed configuration file in [self.config]
    and offers a nested lookup ([get]) and a nested merge ([update]) that
    is written back to the file. *)

Module Config.

(** The values [json.load] produces. A dict is kept as the list of its
    items in insertion order; the keys of a Python dict are distinct
    ([unique_keys] below). *)
#[warnings="-register-all"]
Inductive json : Type :=
| JNull
| JBool (b : bool)
| JInt (n : Z)
| JFloat (x : spec_float)
| JStr (s : string)
| JList (elements : list json)
| JDict (items : list (string * json)).

(** [TypeError] is not among the recorder's exception classes. *)
Definition TypeError : exn := UserError "TypeError".

(** [d.get(k)] on the items of a dict. *)
Fixpoint dict_get (items : list (string * json)) (k : string) : option json :=
  match items with
  | [] => None
  | (k', v) :: rest => if decide (k' = k) then Some v else dict_get rest k
  end.

(** [d[k] = v] on the items of a dict: an existing key keeps its place,
    a new key goes to the end. *)
Fixpoint dict_set (items : list (string * json)) (k : string) (v : json)
    : list (string * json) :=
  match items with
  | [] => [(k, v)]
  | (k', v') :: rest =>
      if decide (k' = k) then (k', v) :: rest else (k', v') :: dict_set rest k v
  end.

(** [value.get(key, {})]: of the JSON values only a dict has [get]. *)
Definition get_or_empty (value : json) (key : string) : outcome json :=
  match value with
  | JDict items => Returns (default (JDict []) (dict_get items key))
  | _ => Raises (AttributeError "get")
  end.

(** [d[k] = v]: no other JSON value than a dict can be assigned to under a
    string key. *)
Definition setitem (d : json) (k : string) (v : json) : outcome json :=
  match d with
  | JDict items => Returns (JDict (dict_set items k v))
  | _ => Raises TypeError
  end.

(** [value != {}] *)
Definition is_empty_dict (value : json) : bool :=
  match value with
  | JDict [] => true
  | _ => false
  end.

Record ConfigManager : Type := mkConfigManager {
  config_path : string;
  config : json;
}.

(** The loop of [get]. *)
Fixpoint get_loop (value : json) (keys : list string) : outcome json :=
  match keys with
  | [] => Returns value
  | key :: keys =>
      match get_or_empty value key with
      | Returns value => get_loop value keys
      | other => other
      end
  end.

(** [ConfigManager.get], the keys as a list; Python's [None] is [JNull]. *)
Definition get (self : ConfigManager) (keys : list string) : outcome json :=
  match get_loop (config self) keys with
  | Returns value => Returns (if is_empty_dict value then JNull else value)
  | other => other
  end.

(** The object that [d.get(k, {})] handed out is [d[k]] itself when the key
    is there, so what a call did to it shows in [d]; the [{}] handed out
    for a missing key is a fresh object. *)
Definition write_through (d : json) (k : string) (sub : json) : json :=
  match d with
  | JDict items =>
      if dict_get items k is Some _ then JDict (dict_set items k sub) else d
  | _ => d
  end.

(** The [for k, v in u.items()] loop of [update_nested], with the nested
    call as [nested]. A dict is mutated in place: the first component is
    the object [d] after the loop, also when it raised ([Some e]); when it
    did not ([None]), that object is what [update_nested] returns. *)
Fixpoint items_loop (nested : json -> json -> json * option exn)
    (d : json) (items : list (string * json)) : json * option exn :=
  match items with
  | [] => (d, None)
  | (k, v) :: rest =>
      match v with
      | JDict _ =>
          match get_or_empty d k with
          | Returns sub =>
              match nested sub v with
              | (sub', None) =>
                  match setitem d k sub' with
                  | Returns d' => items_loop nested d' rest
                  | Raises e => (d, Some e)
                  | Blocks => (d, None)
                  end
              | (sub', Some e) => (write_through d k sub', Some e)
              end
          | Raises e => (d, Some e)
          | Blocks => (d, None)
          end
      | _ =>
          match setitem d k v with
          | Returns d' => items_loop nested d' rest
          | Raises e => (d, Some e)
          | Blocks => (d, None)
          end
      end
  end.

(** [update_nested(d, u)] inside [update]; [u.items()] exists for a dict
    only. The updates are a value of their own, not the configuration
    object itself. *)
Fixpoint update_nested (d u : json) {struct u} : json * option exn :=
  match u with
  | JDict items => items_loop (fun sub v => update_nested sub v) d items
  | _ => (d, Some (AttributeError "items"))
  end.

(** The manager and the files it writes; a file is kept as the value that
    [json.dump] serialised into it. *)
Record world : Type := mkWorld {
  self : ConfigManager;
  files : gmap string json;
}.

Definition set_config (c : json) (w : world) : world :=
  {| self := {| config_path := config_path (self w); config := c |};
     files := files w |}.

(** [ConfigManager._save_config]; [open_error] is what [open(path, 'w')]
    raises, if anything. *)
Definition _save_config (open_error : option exn) : M world unit :=
  fun w =>
    match open_error with
    | Some e => (w, Raises e)
    | None =>
        ({| self := self w;
            files := <[config_path (self w) := config (self w)]> (files w) |},
         Returns tt)
    end.

(** [ConfigManager.update] *)
Definition update (open_error : option exn) (updates : json) : M world unit :=
  fun w =>
    match update_nested (config (self w)) updates with
    | (d, Some e) => (set_config d w, Raises e)
    | (d, None) => _save_config open_error (set_config d w)
    end.

(** *** Vocabulary *)

(** The keys of every dict reached through dicts are distinct, as in any
    Python dict. *)
Fixpoint unique_keys (j : json) : bool :=
  match j with
  | JDict items =>
      bool_decide (NoDup (map fst items))
      && forallb (fun kv => unique_keys (snd kv)) items
  | _ => true
  end.

(** [leaf u path v]: following [path] through the dicts of [u] ends at the
    value [v], which is not a dict. *)
Fixpoint leaf (u : json) (path : list string) (v : json) : Prop :=
  match path with
  | [] => u = v /\ (forall items, v <> JDict items)
  | k :: path =>
      match u with
      | JDict items =>
          match dict_get items k with
          | Some x => leaf x path v
          | None => False
          end
      | _ => False
      end
  end.

(** [apart u path]: [path] leaves the dicts of [u] at a key that [u] does
    not have. *)
Fixpoint apart (u : json) (path : list string) : Prop :=
  match path with
  | [] => False
  | k :: path =>
      match u with
      | JDict items =>
          match dict_get items k with
          | Some x => apart x path
          | None => True
          end
      | _ => False
      end
  end.

(** The keys of a dict, in order. *)
Definition keys (j : json) : list string :=
  match j with
  | JDict items => map fst items
  | _ => []
  end.

(** *** A configuration and two updates *)

Definition sample : json :=
  JDict [("recording", JDict [("sample_rate", JInt 16000);
                              ("channels", JInt 1);
                              ("save_directory", JStr "recordings")]);
         ("metadata", JDict []);
         ("model", JStr "base");
         ("language", JNull)].

Definition sample_world : world :=
  {| self := {| config_path := "config/config.json"; config := sample |};
     files := {[ "config/config.json" := sample ]} |}.

Definition sample_updates : json :=
  JDict [("recording", JDict [("channels", JInt 2); ("device", JStr "usb")]);
         ("language", JStr "en")].

End Config.

(** * creek-backend/processing/formatter.py: the text clean-up of
      [SermonFormatter]

    [_capitalize_sentences] and [_fix_punctuation], with the [str] methods
    they are written with. *)

Module Formatter.

(** A Python [str] is a sequence of code points. *)
Definition char : Type := N.
Definition str : Type := list char.

Definition space : char := 32%N.
Definition dot : char := 46%N.

(** [text.startswith(sub)] *)
Fixpoint startswith (text sub : str) {struct sub} : bool :=
  match sub, text with
  | [], _ => true
  | _ :: _, [] => false
  | a :: sub, b :: text => (a =? b)%N && startswith text sub
  end.

(** [sub in text] *)
Fixpoint contains (sub text : str) : bool :=
  startswith text sub
  || match text with
     | [] => false
     | _ :: rest => contains sub rest
     end.

(** [text.replace(old, new)] for a non-empty [old]. The occurrences are
    found from left to right and do not overlap: [skip] counts the
    characters of the occurrence just replaced that are still ahead. *)
Fixpoint replace_from (old new : str) (skip : nat) (text : str) : str :=
  match text with
  | [] => []
  | c :: rest =>
      match skip with
      | S n => replace_from old new n rest
      | O =>
          if startswith text old
          then new ++ replace_from old new (length old - 1) rest
          else c :: replace_from old new 0 rest
      end
  end.

Definition replace (old new text : str) : str := replace_from old new 0 text.

(** One more character in front of the first piece. *)
Definition extend (c : char) (pieces : list str) : list str :=
  match pieces with
  | [] => [[c]]
  | p :: ps => (c :: p) :: ps
  end.

(** [text.split(sep)] for a non-empty [sep], scanning like [replace]. *)
Fixpoint split_from (sep : str) (skip : nat) (text : str) : list str :=
  match text with
  | [] => [[]]
  | c :: rest =>
      match skip with
      | S n => split_from sep n rest
      | O =>
          if startswith text sep
          then [] :: split_from sep (length sep - 1) rest
          else extend c (split_from sep 0 rest)
      end
  end.

Definition split (sep text : str) : list str := split_from sep 0 text.

(** [sep.join(pieces)] *)
Fixpoint join (sep : str) (pieces : list str) : str :=
  match pieces with
  | [] => []
  | p :: ps =>
      match ps with
      | [] => p
      | _ :: _ => p ++ sep ++ join sep ps
      end
  end.

(** The [while '  ' in text] loop of [_fix_punctuation]; every round
    shortens the text, so as many rounds as the text is long are enough
    ([None]: they were not). *)
Fixpoint remove_double_spaces (rounds : nat) (text : str) : option str :=
  if contains [space; space] text
  then match rounds with
       | O => None
       | S n => remove_double_spaces n (replace [space; space] [space] text)
       end
  else Some text.

Section unicode.

(** The upper-case mapping and the white space property of the Unicode
    database. *)
Variable upper : char -> str.        (* c.upper() *)
Variable isspace : char -> bool.     (* c.isspace() *)

(** [text.lstrip()], [text.rstrip()], [text.strip()] *)
Fixpoint lstrip (text : str) : str :=
  match text with
  | [] => []
  | c :: rest => if isspace c then lstrip rest else text
  end.

Fixpoint rstrip (text : str) : str :=
  match text with
  | [] => []
  | c :: rest =>
      match rstrip rest with
      | [] => if isspace c then [] else [c]
      | kept => c :: kept
      end
  end.

Definition strip (text : str) : str := rstrip (lstrip text).

(** [s[0].upper() + s[1:] if s else s] *)
Definition capitalize_first (s : str) : str :=
  match s with
  | [] => s
  | c :: rest => upper c ++ rest
  end.

(** [SermonFormatter._capitalize_sentences] *)
Definition _capitalize_sentences (text : str) : str :=
  match text with
  | [] => text
  | _ :: _ =>
      let sentences := split [dot; space] text in
      let sentences := map capitalize_first sentences in
      join [dot; space] sentences
  end.

(** [SermonFormatter._fix_punctuation] *)
Definition _fix_punctuation (text : str) : option str :=
  match text with
  | [] => Some text
  | _ :: _ =>
      let text := replace [dot] [dot; space] text in
      match remove_double_spaces (length text) text with
      | Some text => Some (strip text)
      | None => None
      end
  end.

End unicode.

(** *** Vocabulary *)

(** Every run of spaces cut down to one space. *)
Fixpoint squeeze (text : str) : str :=
  match text with
  | [] => []
  | c :: rest =>
      match rest with
      | c' :: _ => if (c =? space)%N && (c' =? space)%N
                   then squeeze rest else c :: squeeze rest
      | [] => [c]
      end
  end.

(** [adjacent c1 c2 text]: somewhere in [text], [c1] comes directly before
    [c2]. *)
Definition adjacent (c1 c2 : char) (text : str) : Prop :=
  exists before after, text = before ++ c1 :: c2 :: after.

(** The characters that are neither a space nor white space. *)
Definition ink (isspace : char -> bool) (text : str) : str :=
  filter (fun c => c <> space /\ isspace c = false) text.

(** *** The ASCII part of the Unicode database, and a text *)

Definition ascii_upper (c : char) : str :=
  if (97 <=? c)%N && (c <=? 122)%N then [(c - 32)%N] else [c].

Definition ascii_isspace (c : char) : bool :=
  ((9 <=? c)%N && (c <=? 13)%N) || ((28 <=? c)%N && (c <=? 32)%N).

Definition of_string (s : string) : str :=
  map N_of_ascii (list_ascii_of_string s).

End Formatter.

(** ** Vocabulary for the float32 rounding *)

(** The sample is finite and its magnitude is at most one. *)
Definition within_full_scale (s : float32) : Prop :=
  match s with
  | S754_zero _ => True
  | S754_finite _ m e => e <= 0 /\ Z.pos m <= 2 ^ (- e)
  | S754_infinity _ | S754_nan => False
  end.

(** The magnitude [m * 2^e] is at most 32767, with [e <= 0]. *)
Definition below_full_scale (m e : Z) : Prop :=
  e <= 0 /\ 0 <= m <= 32767 * 2 ^ (- e).


(** [g] shifts a record right by [k] bits: the mantissa is divided by
    [2^k], and an exact record stays exact when no set bit is shifted out. *)
Definition shifts (g : shr_record -> shr_record) (k : Z) : Prop :=
  forall x, 0 <= shr_m x ->
    shr_m (g x) = shr_m x / 2 ^ k /\
    (shr_r x = false -> shr_s x = false -> shr_m x mod 2 ^ k = 0 ->
     shr_r (g x) = false /\ shr_s (g x) = false).


(** ** The driver and the worker leave the controller's attributes alone *)

Ltac open_world w :=
  let r := fresh "r" in
  destruct w as [r ? ?]; destruct r; simpl in *.

Lemma same_settings_refl r : same_settings r r.
Proof. unfold same_settings; tauto. Qed.

Lemma same_settings_trans r1 r2 r3 :
  same_settings r1 r2 -> same_settings r2 r3 -> same_settings r1 r3.
Proof. unfold same_settings; intuition congruence. Qed.

Lemma quiet_callback_settings r r' :
  same_settings r r' -> quiet_callback r -> quiet_callback r'.
Proof.
  unfold same_settings, quiet_callback.
  intros (-> & _ & _ & _ & _ & -> & _) H. exact H.
Qed.

Lemma step_settings w :
  same_settings (self w) (self (_process_audio_step w)) /\
  disk (_process_audio_step w) = disk w.
Proof.
  unfold same_settings, _process_audio_step, process_item.
  open_world w.
  repeat (case_match; simpl in *; subst); simplify_eq; simpl; tauto.
Qed.

Lemma event_settings ev w :
  same_settings (self w) (self (run_event ev w)) /\ disk (run_event ev w) = disk w.
Proof.
  destruct ev as [c s|]; [|apply step_settings].
  unfold run_event, _audio_callback, same_settings.
  open_world w. repeat case_match; simpl; tauto.
Qed.

Lemma events_settings evs w :
  same_settings (self w) (self (run_events evs w)) /\ disk (run_events evs w) = disk w.
Proof.
  revert w. induction evs as [|ev evs IH]; intros w; simpl.
  - split; [apply same_settings_refl | done].
  - destruct (event_settings ev w) as [H1 H2], (IH (run_event ev w)) as [H3 H4].
    split; [eapply same_settings_trans; eauto | congruence].
Qed.

(** ** FIFO transfer: nothing is lost while the worker is alive *)

Lemma step_pending w :
  quiet_callback (self w) -> crashed (self w) = false ->
  pending (self (_process_audio_step w)) = pending (self w) /\
  crashed (self (_process_audio_step w)) = false.
Proof.
  unfold quiet_callback, crashed, pending, _process_audio_step, process_item.
  open_world w. intros Hq Hc.
  repeat (case_match; simpl in *; subst); simplify_eq; simpl;
    rewrite <- ?app_assoc; simpl; try done.
  all: destruct Hq as [Hsr Hq];
    match goal with
    | H : (_ =? 0) = true |- _ => apply Z.eqb_eq in H; congruence
    | H : ?p ?d ?n = Some ?e |- _ =>
        destruct (Hq d n) as [Hx|Hx]; rewrite Hx in H; simplify_eq; simpl in *; done
    end.
Qed.

Lemma deliver_pending c s w :
  stream (self w) = Some StreamActive ->
  pending (self (run_event (Deliver c s) w)) = pending (self w) ++ [c] /\
  crashed (self (run_event (Deliver c s) w)) = crashed (self w).
Proof.
  unfold pending, crashed, run_event, _audio_callback.
  open_world w. intros ->. simpl. by rewrite app_assoc.
Qed.

Lemma events_pending evs w :
  quiet_callback (self w) -> crashed (self w) = false ->
  stream (self w) = Some StreamActive ->
  pending (self (run_events evs w)) = pending (self w) ++ delivered evs /\
  crashed (self (run_events evs w)) = false.
Proof.
  revert w. induction evs as [|ev evs IH]; intros w Hq Hc Hs; simpl.
  - by rewrite app_nil_r.
  - destruct (event_settings ev w) as [Hset _].
    assert (Hs' : stream (self (run_event ev w)) = Some StreamActive).
    { destruct Hset as (_&_&_&_&_&_&_&->&_). done. }
    pose proof (quiet_callback_settings _ _ Hset Hq) as Hq'.
    destruct ev as [c s|].
    + destruct (deliver_pending c s w Hs) as [Hp Hc'].
      rewrite Hc in Hc'.
      destruct (IH _ Hq' Hc' Hs') as [-> ->]. rewrite Hp, <- app_assoc. done.
    + destruct (step_pending w Hq Hc) as [Hp Hc'].
      change (_process_audio_step w) with (run_event WorkerStep w) in Hp, Hc'.
      destruct (IH _ Hq' Hc' Hs') as [-> ->]. by rewrite Hp.
Qed.

(** ** The worker running alone: [join] *)

Lemma run_worker_step fuel w :
  thread_finished w = false ->
  run_worker (S fuel) w = run_worker fuel (_process_audio_step w).
Proof. intros H. simpl. by rewrite H. Qed.

Lemma run_worker_finished fuel w :
  thread_finished w = true -> run_worker fuel w = Some w.
Proof. intros H. destruct fuel; simpl; by rewrite H. Qed.

Lemma run_worker_more fuel fuel' w w' :
  run_worker fuel w = Some w' -> (fuel <= fuel')%nat -> run_worker fuel' w = Some w'.
Proof.
  revert fuel' w. induction fuel as [|fuel IH]; intros fuel' w H Hle.
  - simpl in H. destruct (thread_finished w) eqn:Hf; [|done].
    rewrite run_worker_finished; done.
  - destruct fuel' as [|fuel']; [lia|].
    simpl in *. destruct (thread_finished w); [done|].
    apply IH; [done | lia].
Qed.

Lemma worker_steps_S k w :
  run_events (worker_steps (S k)) w = run_events (worker_steps k) (_process_audio_step w).
Proof. reflexivity. Qed.

Lemma delivered_worker_steps k : delivered (worker_steps k) = [].
Proof. induction k; simpl; done. Qed.

(** What one [get] that finds an item does. *)
Lemma get_step w data rest :
  processing_thread (self w) = Some AtGet ->
  audio_queue (self w) = data :: rest ->
  let w' := _process_audio_step w in
  audio_queue (self w') = rest /\
  frames (self w') = frames (self w) ++ [data] /\
  (processing_thread (self w') = Some AtWhile \/
   exists e, processing_thread (self w') = Some (Crashed e)) /\
  (quiet_callback (self w) -> processing_thread (self w') = Some AtWhile).
Proof.
  unfold quiet_callback, _process_audio_step, process_item.
  open_world w. intros -> ->. simpl.
  repeat (case_match; simpl in *; subst); simplify_eq; simpl;
    repeat split; eauto.
  all: intros [Hsr Hq];
    match goal with
    | H : (_ =? 0) = true |- _ => apply Z.eqb_eq in H; congruence
    | H : ?p ?d ?n = Some ?e |- _ =>
        destruct (Hq d n) as [Hx|Hx]; rewrite Hx in H; simplify_eq; simpl in *; done
    end.
Qed.

Lemma step_recording w :
  recording (self (_process_audio_step w)) = recording (self w).
Proof. by destruct (step_settings w) as [(_&_&_&_&->&_) _]. Qed.

Lemma step_quiet w :
  quiet_callback (self w) -> quiet_callback (self (_process_audio_step w)).
Proof. apply quiet_callback_settings, step_settings. Qed.

Lemma drained_step fuel w q q' :
  thread_finished w = false ->
  (quiet_callback (self w) ->
   frames (self (_process_audio_step w)) ++ q' = frames (self w) ++ q) ->
  drained fuel (_process_audio_step w) q' ->
  drained (S fuel) w q.
Proof.
  intros Hf Hfr (w' & Hrun & Hfin & [k Hk] & Hq).
  exists w'. rewrite run_worker_step by done.
  split; [done|]. split; [done|]. split.
  - exists (S k). by rewrite worker_steps_S.
  - intros Hquiet. destruct (Hq (step_quiet _ Hquiet)) as (?&?&->).
    eauto.
Qed.

Lemma drained_now fuel w :
  thread_finished w = true ->
  (quiet_callback (self w) ->
   processing_thread (self w) = Some Exited /\ audio_queue (self w) = []) ->
  drained fuel w [].
Proof.
  intros Hf Hq. exists w. rewrite run_worker_finished by done.
  split; [done|]. split; [done|]. split; [by exists 0%nat|].
  intros Hquiet. destruct (Hq Hquiet) as [-> ->]. by rewrite app_nil_r.
Qed.

Lemma drained_more fuel fuel' w q :
  drained fuel w q -> (fuel <= fuel')%nat -> drained fuel' w q.
Proof.
  intros (w' & Hrun & H) Hle. exists w'. split; [|done].
  eapply run_worker_more; eauto.
Qed.

(** The moves of the worker that take no item. *)
Lemma pc_step w :
  let w' := _process_audio_step w in
  match processing_thread (self w) with
  | Some AtWhile =>
      processing_thread (self w') =
        Some (if recording (self w) then AtGet else AtEmptyTest) /\
      audio_queue (self w') = audio_queue (self w) /\
      frames (self w') = frames (self w)
  | Some AtEmptyTest =>
      processing_thread (self w') =
        Some (match audio_queue (self w) with [] => Exited | _ :: _ => AtGet end) /\
      audio_queue (self w') = audio_queue (self w) /\
      frames (self w') = frames (self w)
  | Some AtGet =>
      audio_queue (self w) = [] ->
      processing_thread (self w') = Some AtWhile /\
      audio_queue (self w') = [] /\
      frames (self w') = frames (self w)
  | _ => w' = w
  end.
Proof.
  unfold _process_audio_step. open_world w.
  repeat (case_match; simpl in *; subst); simplify_eq; simpl; try done.
Qed.

Lemma thread_finished_false w t :
  processing_thread (self w) = Some t ->
  match t with Exited | Crashed _ => False | _ => True end ->
  thread_finished w = false.
Proof. unfold thread_finished. intros ->. by destruct t. Qed.

Lemma drain_at_get q : forall data w,
  (forall w0, recording (self w0) = false ->
     processing_thread (self w0) = Some AtWhile ->
     audio_queue (self w0) = q -> drained (3 * length q + 2) w0 q) ->
  recording (self w) = false ->
  processing_thread (self w) = Some AtGet ->
  audio_queue (self w) = data :: q ->
  drained (3 * length q + 3) w (data :: q).
Proof.
  intros data w IH Hrec Hth Hq.
  destruct (get_step w data q Hth Hq) as (Hq' & Hfr & Hth' & Hquiet).
  assert (Hnf : thread_finished w = false) by (eapply thread_finished_false; eauto; done).
  replace (3 * length q + 3)%nat with (S (3 * length q + 2)) by lia.
  apply drained_step with (q' := q); [done | |].
  - intros _. rewrite Hfr, <- app_assoc. done.
  - destruct Hth' as [Hth' | [e Hth']].
    + apply IH; [by rewrite step_recording | done | done].
    + exists (_process_audio_step w).
      assert (Hfin : thread_finished (_process_audio_step w) = true)
        by (unfold thread_finished; by rewrite Hth').
      rewrite run_worker_finished by done.
      split; [done|]. split; [done|]. split; [by exists 0%nat|].
      intros Hqc. assert (Hqc0 : quiet_callback (self w)).
      { eapply quiet_callback_settings; [|exact Hqc].
        destruct (step_settings w) as [Hs _]. unfold same_settings in *.
        intuition congruence. }
      specialize (Hquiet Hqc0). congruence.
Qed.

Lemma drain_at_while q : forall w,
  recording (self w) = false ->
  processing_thread (self w) = Some AtWhile ->
  audio_queue (self w) = q ->
  drained (3 * length q + 2) w q.
Proof.
  induction q as [|data q IH]; intros w Hrec Hth Hq.
  - pose proof (pc_step w) as H1. simpl in H1. rewrite Hth, Hrec in H1.
    destruct H1 as (Hth1 & Hq1 & Hfr1).
    apply (drained_step _ _ _ []);
      [eapply thread_finished_false; eauto; done | by rewrite Hfr1 |].
    pose proof (pc_step (_process_audio_step w)) as H2. simpl in H2.
    rewrite Hth1, Hq1, Hq in H2. destruct H2 as (Hth2 & Hq2 & Hfr2).
    apply (drained_step _ _ _ []);
      [eapply thread_finished_false; eauto; done | by rewrite Hfr2 |].
    apply drained_now; [unfold thread_finished; by rewrite Hth2 |].
    intros _. by rewrite Hth2, Hq2.
  - pose proof (pc_step w) as H1. simpl in H1. rewrite Hth, Hrec in H1.
    destruct H1 as (Hth1 & Hq1 & Hfr1).
    replace (3 * length (data :: q) + 2)%nat with (S (S (3 * length q + 3)))
      by (simpl; lia).
    apply (drained_step _ _ _ (data :: q));
      [eapply thread_finished_false; eauto; done | by rewrite Hfr1 |].
    pose proof (pc_step (_process_audio_step w)) as H2. simpl in H2.
    rewrite Hth1, Hq1, Hq in H2. destruct H2 as (Hth2 & Hq2 & Hfr2).
    apply (drained_step _ _ _ (data :: q));
      [eapply thread_finished_false; eauto; done | by rewrite Hfr2 |].
    apply drain_at_get; [exact IH | | done | by rewrite Hq2].
    by rewrite !step_recording.
Qed.

(** [join] returns once the flag is cleared, whatever the worker was doing;
    with a quiet callback the worker has then moved the whole queue. *)
Lemma drain_any w t :
  recording (self w) = false ->
  processing_thread (self w) = Some t ->
  thread_finished w = false ->
  drained (3 * length (audio_queue (self w)) + 3) w (audio_queue (self w)).
Proof.
  intros Hrec Hth Hnf. destruct t.
  - eapply drained_more; [by apply drain_at_while | lia].
  - pose proof (pc_step w) as H1. simpl in H1. rewrite Hth in H1.
    destruct H1 as (Hth1 & Hq1 & Hfr1).
    destruct (audio_queue (self w)) as [|data q] eqn:Hq.
    + apply (drained_step _ _ _ []); [done | by rewrite Hfr1 |].
      apply drained_now; [unfold thread_finished; by rewrite Hth1 |].
      intros _. by rewrite Hth1, Hq1.
    + apply drained_more with (fuel := S (3 * length q + 3)); [|simpl; lia].
      apply (drained_step _ _ _ (data :: q)); [done | by rewrite Hfr1 |].
      apply drain_at_get; [intros; by apply drain_at_while | | done | done].
      by rewrite step_recording.
  - destruct (audio_queue (self w)) as [|data q] eqn:Hq.
    + pose proof (pc_step w) as H1. simpl in H1. rewrite Hth in H1.
      destruct (H1 Hq) as (Hth1 & Hq1 & Hfr1).
      apply (drained_step _ _ _ []); [done | by rewrite Hfr1 |].
      apply (drain_at_while []); [by rewrite step_recording | done | done].
    + eapply drained_more; [apply drain_at_get; eauto |simpl; lia].
      intros; by apply drain_at_while.
  - unfold thread_finished in Hnf. by rewrite Hth in Hnf.
  - unfold thread_finished in Hnf. by rewrite Hth in Hnf.
Qed.

Lemma join_returns w t :
  recording (self w) = false ->
  processing_thread (self w) = Some t ->
  exists w' k,
    join w = (w', Returns tt) /\ thread_finished w' = true /\
    w' = run_events (worker_steps k) w.
Proof.
  intros Hrec Hth. unfold join.
  destruct (thread_finished w) eqn:Hf.
  - exists w, 0%nat. by rewrite run_worker_finished.
  - destruct (drain_any w t Hrec Hth Hf) as (w' & -> & Hfin & [k Hk] & _).
    by exists w', k.
Qed.

Lemma join_drains w t :
  recording (self w) = false ->
  processing_thread (self w) = Some t ->
  thread_finished w = false ->
  quiet_callback (self w) ->
  exists w' k,
    join w = (w', Returns tt) /\ w' = run_events (worker_steps k) w /\
    processing_thread (self w') = Some Exited /\
    audio_queue (self w') = [] /\
    frames (self w') = pending (self w).
Proof.
  intros Hrec Hth Hf Hq. unfold join.
  destruct (drain_any w t Hrec Hth Hf) as (w' & -> & Hfin & [k Hk] & H).
  destruct (H Hq) as (?&?&?). by exists w', k.
Qed.

(** ** The bound in [join] is exact: a worker that ever ends, ends within it *)

Lemma run_worker_inv fuel w w' :
  thread_finished w = false ->
  run_worker fuel w = Some w' ->
  exists fuel', fuel = S fuel' /\ run_worker fuel' (_process_audio_step w) = Some w'.
Proof.
  intros Hnf H. destruct fuel as [|fuel']; simpl in H; rewrite Hnf in H; [done|].
  by exists fuel'.
Qed.

Lemma run_worker_det fuel1 fuel2 w w1 w2 :
  run_worker fuel1 w = Some w1 -> run_worker fuel2 w = Some w2 -> w1 = w2.
Proof.
  intros H1 H2.
  apply run_worker_more with (fuel' := (fuel1 + fuel2)%nat) in H1; [|lia].
  apply run_worker_more with (fuel' := (fuel1 + fuel2)%nat) in H2; [|lia].
  congruence.
Qed.

Lemma no_thread_never_ends fuel w :
  processing_thread (self w) = None -> run_worker fuel w = None.
Proof.
  intros Hth. induction fuel as [|fuel IH]; simpl;
    unfold thread_finished; rewrite Hth; [done|].
  pose proof (pc_step w) as H. simpl in H. rewrite Hth in H. by rewrite H.
Qed.

(** With the flag set and the queue empty the worker only times out. *)
Lemma idle_worker_never_ends fuel : forall w,
  recording (self w) = true ->
  audio_queue (self w) = [] ->
  processing_thread (self w) = Some AtWhile \/
  processing_thread (self w) = Some AtGet ->
  run_worker fuel w = None.
Proof.
  induction fuel as [|fuel IH]; intros w Hrec Hq Hth.
  - simpl. unfold thread_finished. by destruct Hth as [-> | ->].
  - assert (Hnf : thread_finished w = false)
      by (unfold thread_finished; by destruct Hth as [-> | ->]).
    rewrite run_worker_step by done.
    pose proof (pc_step w) as H. simpl in H.
    destruct Hth as [Hth | Hth]; rewrite Hth in H.
    + rewrite Hrec in H. destruct H as (Hth' & Hq' & _).
      apply IH; [by rewrite step_recording | congruence | by right].
    + destruct (H Hq) as (Hth' & Hq' & _).
      apply IH; [by rewrite step_recording | done | by left].
Qed.

Lemma ends_within_bound q : forall w fuel w',
  audio_queue (self w) = q ->
  run_worker fuel w = Some w' ->
  run_worker (3 * length q + 3) w = Some w'.
Proof.
  induction q as [|data q IH]; intros w fuel w' Hq Hrun.
  all: destruct (thread_finished w) eqn:Hnf;
    [rewrite run_worker_finished in Hrun |- * by done; done|].
  all: destruct (processing_thread (self w)) as [t|] eqn:Hth;
    [|by rewrite no_thread_never_ends in Hrun].
  all: destruct (recording (self w)) eqn:Hrec;
    [|destruct (drain_any w t Hrec Hth Hnf) as (w'' & Hb & _);
      rewrite Hq in Hb; rewrite Hb; f_equal;
      eapply run_worker_det; eauto].
  - destruct t; try (unfold thread_finished in Hnf; by rewrite Hth in Hnf).
    + rewrite idle_worker_never_ends in Hrun; [done | done | done | by left].
    + pose proof (pc_step w) as H. simpl in H. rewrite Hth, Hq in H.
      destruct H as (Hth' & _).
      destruct (run_worker_inv _ _ _ Hnf Hrun) as (f & -> & Hrun').
      apply (run_worker_more 1); [|simpl; lia].
      rewrite run_worker_step by done.
      assert (Hfin : thread_finished (_process_audio_step w) = true)
        by (unfold thread_finished; by rewrite Hth').
      rewrite run_worker_finished in Hrun' |- * by done. done.
    + rewrite idle_worker_never_ends in Hrun; [done | done | done | by right].
  - (* the state once the head of the queue has been taken *)
    assert (Htake : exists k w2,
              (k <= 2)%nat /\ audio_queue (self w2) = q /\
              forall f w3, run_worker f w = Some w3 ->
                exists f2, run_worker f2 w2 = Some w3 /\
                forall b, run_worker b w2 = Some w3 ->
                          run_worker (k + b) w = Some w3).
    { assert (Hget : forall v, processing_thread (self v) = Some AtGet ->
                audio_queue (self v) = data :: q ->
                exists w2, audio_queue (self w2) = q /\
                  forall f w3, run_worker f v = Some w3 ->
                    exists f2, run_worker f2 w2 = Some w3 /\
                    forall b, run_worker b w2 = Some w3 ->
                              run_worker (1 + b) v = Some w3).
      { intros v Hv Hqv.
        destruct (get_step v data q Hv Hqv) as (Hq2 & _).
        assert (Hvf : thread_finished v = false)
          by (unfold thread_finished; by rewrite Hv).
        exists (_process_audio_step v). split; [done|].
        intros f w3 Hf. destruct (run_worker_inv _ _ _ Hvf Hf) as (f2 & -> & Hf2).
        exists f2. split; [done|]. intros b Hb. simpl. by rewrite Hvf. }
      pose proof (pc_step w) as H. simpl in H. rewrite Hth in H.
      destruct t; try (unfold thread_finished in Hnf; by rewrite Hth in Hnf).
      - rewrite Hrec in H. destruct H as (Hth1 & Hq1 & _).
        destruct (Hget (_process_audio_step w) Hth1 ltac:(congruence))
          as (w2 & Hq2 & Hw2).
        exists 2%nat, w2. split; [lia|]. split; [done|].
        intros f w3 Hf. destruct (run_worker_inv _ _ _ Hnf Hf) as (f1 & -> & Hf1).
        destruct (Hw2 f1 w3 Hf1) as (f2 & Hf2 & Hback).
        exists f2. split; [done|]. intros b Hb.
        change (2 + b)%nat with (S (1 + b)). rewrite run_worker_step by done.
        by apply Hback.
      - rewrite Hq in H. destruct H as (Hth1 & Hq1 & _).
        destruct (Hget (_process_audio_step w) Hth1 ltac:(congruence))
          as (w2 & Hq2 & Hw2).
        exists 2%nat, w2. split; [lia|]. split; [done|].
        intros f w3 Hf. destruct (run_worker_inv _ _ _ Hnf Hf) as (f1 & -> & Hf1).
        destruct (Hw2 f1 w3 Hf1) as (f2 & Hf2 & Hback).
        exists f2. split; [done|]. intros b Hb.
        change (2 + b)%nat with (S (1 + b)). rewrite run_worker_step by done.
        by apply Hback.
      - destruct (Hget w Hth Hq) as (w2 & Hq2 & Hw2).
        exists 1%nat, w2. split; [lia|]. split; [done|]. exact Hw2. }
    destruct Htake as (k & w2 & Hk & Hq2 & Hw2).
    destruct (Hw2 fuel w' Hrun) as (f2 & Hf2 & Hback).
    pose proof (IH w2 f2 w' Hq2 Hf2) as Hb.
    apply Hback in Hb.
    eapply run_worker_more; [exact Hb | simpl; lia].
Qed.

(** When [join] blocks, no number of steps brings the worker to its end. *)
Lemma join_blocks_only_forever w :
  snd (join w) = Blocks -> forall fuel, run_worker fuel w = None.
Proof.
  unfold join. intros H fuel.
  destruct (run_worker fuel w) as [w'|] eqn:Hrun; [|done].
  by rewrite (ends_within_bound _ w fuel w' eq_refl Hrun) in H.
Qed.

(** ** The controller calls, case by case *)

Lemma start_recording_active env cb w :
  recording (self w) = true ->
  start_recording env cb w =
    (w, Raises (RuntimeError "Recording is already in progress")).
Proof.
  intros H. unfold start_recording, bind, gets, raise. simpl. by rewrite H.
Qed.

Lemma start_recording_idle env cb w :
  recording (self w) = false ->
  start_recording env cb w =
    match open_error env with
    | Some msg => (open_failed cb w, Raises (PortAudioError msg))
    | None =>
        match start_error env with
        | Some msg =>
            (on_self (set_processing_thread (Some AtWhile))
               (on_self (set_stream (Some StreamOpened)) (open_failed cb w)),
             Raises (PortAudioError msg))
        | None =>
            (started env cb w,
             Returns (recording_path (output_dir (self w)) (now env)))
        end
    end.
Proof.
  intros H. unfold start_recording, bind, gets, raise, modify, ret. simpl.
  rewrite H. simpl.
  destruct (open_error env); simpl; [done|].
  destruct (start_error env); simpl; done.
Qed.

Lemma start_recording_returns env cb w w1 p :
  start_recording env cb w = (w1, Returns p) ->
  recording (self w) = false /\ w1 = started env cb w /\
  p = recording_path (output_dir (self w)) (now env).
Proof.
  destruct (recording (self w)) eqn:Hrec.
  - rewrite start_recording_active by done. intros; simplify_eq.
  - rewrite start_recording_idle by done.
    destruct (open_error env); [intros; simplify_eq|].
    destruct (start_error env); intros; simplify_eq. done.
Qed.

Lemma stop_recording_idle e w :
  recording (self w) = false ->
  stop_recording e w = (w, Raises (RuntimeError "No recording in progress")).
Proof.
  intros H. unfold stop_recording, bind, gets, raise. simpl. by rewrite H.
Qed.

Lemma stop_recording_no_stream e w :
  recording (self w) = true -> stream (self w) = None ->
  stop_recording e w = (w, Raises (AttributeError "stream")).
Proof.
  intros H1 H2. unfold stop_recording, bind, gets, raise. simpl.
  by rewrite H1, H2.
Qed.

Lemma stop_recording_active e w s :
  recording (self w) = true -> stream (self w) = Some s ->
  stop_recording e w =
    (match processing_thread (self w) with
     | Some _ => join
     | None => ret tt
     end ;;; save_and_return e)%py (signal_stop w).
Proof.
  intros H1 H2.
  unfold stop_recording, save_and_return, signal_stop, bind, gets, raise, modify, ret.
  simpl. rewrite H1, H2. simpl. reflexivity.
Qed.

(** After the flag is cleared the worker terminates: [stop_recording]
    continues from a state the worker reached on its own. *)
Lemma stop_recording_joined e w s :
  recording (self w) = true -> stream (self w) = Some s ->
  exists k,
    stop_recording e w =
      save_and_return e (run_events (worker_steps k) (signal_stop w)).
Proof.
  intros H1 H2. rewrite (stop_recording_active e w s H1 H2).
  destruct (processing_thread (self w)) as [t|] eqn:Hth.
  - destruct (join_returns (signal_stop w) t) as (w' & k & Hj & _ & ->);
      [done | done |].
    exists k. unfold bind. by rewrite Hj.
  - exists 0%nat. reflexivity.
Qed.

Lemma save_and_return_empty e w p :
  frames (self w) = [] -> output_file (self w) = Some p ->
  save_and_return e w = (w, Returns p).
Proof.
  intros H1 H2. unfold save_and_return, bind, gets, ret. simpl.
  by rewrite H1, H2.
Qed.





(** Whatever [_save_wav] does, it changes the file at its path only, and
    it can fail in the file system or in the wave writer only. *)
Lemma save_wav_effect e (audio_data : chunk) (p : string) (w : world) :
  self (fst (_save_wav e audio_data p w)) = self w /\
  progress_calls (fst (_save_wav e audio_data p w)) = progress_calls w /\
  (forall q, q <> p -> disk (fst (_save_wav e audio_data p w)) !! q = disk w !! q) /\
  match snd (_save_wav e audio_data p w) with
  | Returns _ | Raises (OSError _) | Raises (WaveError _)
  | Raises (StructError _) => True
  | _ => False
  end.
Proof.
  unfold _save_wav, bind, gets, ret, modify, raise.
  destruct e as [msg|]; simpl; [done|].
  destruct (channels (self w) <? 1); simpl.
  { repeat split; try done. intros q Hq. by rewrite lookup_insert_ne. }
  destruct (sample_rate (self w) <=? 0); simpl.
  { repeat split; try done. intros q Hq. by rewrite lookup_insert_ne. }
  destruct (pack_header _ _ _) as [msg|]; simpl.
  { repeat split; try done. intros q Hq. by rewrite !lookup_insert_ne. }
  destruct (_ || _); simpl.
  - repeat split; try done. intros q Hq. by rewrite !lookup_insert_ne.
  - repeat split; try done. intros q Hq. by rewrite !lookup_insert_ne.
Qed.

(** [save_and_return], case by case. *)
Lemma save_and_return_cases e w :
  (frames (self w) = [] \/ output_file (self w) = None) /\
    fst (save_and_return e w) = w /\
    snd (save_and_return e w)
      = match output_file (self w) with
        | Some p => Returns p
        | None => Raises (AttributeError "output_file")
        end
  \/ exists p, frames (self w) <> [] /\ output_file (self w) = Some p /\
      fst (save_and_return e w)
        = fst (_save_wav e (concat (frames (self w))) p w) /\
      snd (save_and_return e w)
        = match snd (_save_wav e (concat (frames (self w))) p w) with
          | Returns _ => Returns p
          | Raises x => Raises x
          | Blocks => Blocks
          end.
Proof.
  unfold save_and_return, bind, gets, ret, raise. cbn [fst snd].
  destruct (frames (self w)) as [|c l] eqn:Hf.
  - left. split; [by left|]. by destruct (output_file (self w)).
  - destruct (output_file (self w)) as [p|] eqn:Ho.
    + right. exists p. split; [done|]. split; [done|].
      destruct (_save_wav e (concat (c :: l)) p w) as [w' [[]|x|]] eqn:E;
        cbn [fst snd] in *; done.
    + left. split; [by right|]. done.
Qed.


Lemma signal_stop_fields w :
  let w' := signal_stop w in
  recording (self w') = false /\ stream (self w') = Some StreamClosed /\
  processing_thread (self w') = processing_thread (self w) /\
  audio_queue (self w') = audio_queue (self w) /\
  frames (self w') = frames (self w) /\
  callback (self w') = callback (self w) /\
  sample_rate (self w') = sample_rate (self w) /\
  channels (self w') = channels (self w) /\
  chunk_size (self w') = chunk_size (self w) /\
  output_file (self w') = output_file (self w) /\
  disk w' = disk w /\ progress_calls w' = progress_calls w.
Proof. open_world w. repeat split. Qed.

Lemma started_fields env cb w :
  let w' := started env cb w in
  recording (self w') = true /\ stream (self w') = Some StreamActive /\
  processing_thread (self w') = Some AtWhile /\
  audio_queue (self w') = audio_queue (self w) /\
  frames (self w') = [] /\
  callback (self w') = cb /\
  sample_rate (self w') = sample_rate (self w) /\
  channels (self w') = channels (self w) /\
  chunk_size (self w') = chunk_size (self w) /\
  output_file (self w') = Some (recording_path (output_dir (self w)) (now env)) /\
  disk w' = disk w /\ progress_calls w' = progress_calls w.
Proof. open_world w. repeat split. Qed.


(** The worker does not look at the stream: closing it before or after a
    step of the worker gives the same state. *)
Lemma worker_ignores_the_stream s w :
  _process_audio_step (on_self (set_stream s) w)
  = on_self (set_stream s) (_process_audio_step w).
Proof.
  unfold _process_audio_step, process_item, elapsed_seconds. open_world w.
  repeat (case_match; simpl in *; subst); simplify_eq; simpl;
    try done; congruence.
Qed.

(** ** Invariants of the reachable states *)

Lemma save_and_return_self e w :
  self (fst (save_and_return e w)) = self w /\
  progress_calls (fst (save_and_return e w)) = progress_calls w.
Proof.
  destruct (save_and_return_cases e w) as [(_ & -> & _)|(p & _ & _ & -> & _)]; [done|].
  by destruct (save_wav_effect e (concat (frames (self w))) p w) as (-> & -> & _).
Qed.

Lemma save_and_return_outcome e w :
  match snd (save_and_return e w) with
  | Returns p => output_file (self w) = Some p
  | Raises (AttributeError _) | Raises (OSError _) | Raises (WaveError _)
  | Raises (StructError _) => True
  | _ => False
  end.
Proof.
  destruct (save_and_return_cases e w) as [(_ & _ & ->)|(p & _ & Ho & _ & ->)].
  - by destruct (output_file (self w)).
  - destruct (save_wav_effect e (concat (frames (self w))) p w) as (_ & _ & _ & H).
    by destruct (snd (_save_wav e _ p w)) as [[]|[]|].
Qed.

Lemma step_thread_inv w :
  thread_inv (self w) -> thread_inv (self (_process_audio_step w)).
Proof.
  unfold thread_inv, _process_audio_step, process_item. open_world w.
  repeat (case_match; simpl in *; subst); simplify_eq; simpl; done.
Qed.

Lemma event_thread_inv ev w :
  thread_inv (self w) -> thread_inv (self (run_event ev w)).
Proof.
  destruct ev as [c s|]; [|apply step_thread_inv].
  unfold thread_inv, run_event, _audio_callback. open_world w.
  repeat (case_match; simpl in *; subst); simplify_eq; simpl; done.
Qed.

Lemma events_thread_inv evs w :
  thread_inv (self w) -> thread_inv (self (run_events evs w)).
Proof.
  revert w. induction evs as [|ev evs IH]; intros w H; simpl; [done|].
  by apply IH, event_thread_inv.
Qed.

Lemma step_looping w :
  looping (self w) -> looping (self (_process_audio_step w)).
Proof.
  unfold looping, _process_audio_step, process_item. open_world w.
  intros [-> H]. split; [|revert H];
    repeat (case_match; simpl in *; subst); simplify_eq; simpl; done.
Qed.

Lemma events_looping evs w :
  looping (self w) -> looping (self (run_events evs w)).
Proof.
  revert w. induction evs as [|ev evs IH]; intros w H; simpl; [done|].
  apply IH. destruct ev as [c s|]; [|by apply step_looping].
  revert H. unfold looping, run_event, _audio_callback. open_world w.
  repeat (case_match; simpl in *; subst); simplify_eq; simpl; done.
Qed.

(** A worker in its loop that has not crashed is not finished. *)
Lemma looping_running r :
  looping r -> crashed r = false ->
  exists t, processing_thread r = Some t /\
            match t with Exited | Crashed _ => False | _ => True end.
Proof.
  unfold looping, crashed. intros [_ H] Hc.
  destruct (processing_thread r) as [[]|]; try done; eauto.
Qed.

(** The only step that ends the loop is the emptiness test finding the
    queue empty. *)
Lemma exit_step w :
  thread_finished w = false ->
  processing_thread (self (_process_audio_step w)) = Some Exited ->
  processing_thread (self w) = Some AtEmptyTest /\ audio_queue (self w) = [].
Proof.
  unfold thread_finished, _process_audio_step, process_item. open_world w.
  repeat (case_match; simpl in *; subst); simplify_eq; simpl; done.
Qed.

Lemma start_thread_inv env cb w :
  thread_inv (self w) -> thread_inv (self (fst (start_recording env cb w))).
Proof.
  intros H. destruct (recording (self w)) eqn:Hrec.
  - by rewrite start_recording_active.
  - rewrite start_recording_idle by done.
    destruct (open_error env); [|destruct (start_error env)]; simpl; try done.
    revert H Hrec. unfold thread_inv. open_world w.
    repeat (case_match; simpl in *; subst); simplify_eq; simpl; done.
Qed.

Lemma stop_thread_inv e w :
  thread_inv (self w) -> thread_inv (self (fst (stop_recording e w))).
Proof.
  intros H. destruct (recording (self w)) eqn:Hrec.
  2: { by rewrite stop_recording_idle. }
  destruct (stream (self w)) as [s|] eqn:Hs.
  2: { by rewrite stop_recording_no_stream. }
  rewrite (stop_recording_active e w s) by done.
  destruct (signal_stop_fields w) as (Hr2 & _ & Ht2 & _).
  destruct (processing_thread (self w)) as [t|] eqn:Hth.
  - destruct (join_returns (signal_stop w) t Hr2 Ht2) as (wj & k & Hj & Hfin & _).
    unfold bind. rewrite Hj.
    destruct (save_and_return_self e wj) as [-> _].
    unfold thread_finished in Hfin. unfold thread_inv.
    by destruct (processing_thread (self wj)) as [[]|].
  - unfold bind, ret.
    destruct (save_and_return_self e (signal_stop w)) as [-> _].
    unfold thread_inv. by rewrite Ht2.
Qed.

Lemma reachable_thread_inv w : reachable w -> thread_inv (self w).
Proof.
  induction 1 as [config sr ch cs d | ev w _ IH | env cb w _ IH | e w _ IH].
  - done.
  - by apply event_thread_inv.
  - by apply start_thread_inv.
  - by apply stop_thread_inv.
Qed.

Lemma joining_flag w : joining w -> recording (self w) = false.
Proof.
  induction 1 as [w s _ _ _ | w _ IH].
  - by destruct (signal_stop_fields w) as (-> & _).
  - by rewrite step_recording.
Qed.

(** ** A worker that has finished stays as it is *)

Lemma finished_step w :
  thread_finished w = true -> _process_audio_step w = w.
Proof.
  unfold thread_finished, _process_audio_step.
  destruct (processing_thread (self w)) as [[]|]; done.
Qed.

Lemma finished_events evs w :
  thread_finished w = true ->
  frames (self (run_events evs w)) = frames (self w) /\
  processing_thread (self (run_events evs w)) = processing_thread (self w).
Proof.
  revert w. induction evs as [|ev evs IH]; intros w Hf; simpl; [done|].
  destruct ev as [c s|].
  - assert (H : frames (self (run_event (Deliver c s) w)) = frames (self w) /\
               processing_thread (self (run_event (Deliver c s) w))
                 = processing_thread (self w)).
    { unfold run_event, _audio_callback. open_world w.
      repeat case_match; done. }
    destruct H as [Hfr Hth].
    destruct (IH (run_event (Deliver c s) w)) as [-> ->]; [|done].
    unfold thread_finished in *. by rewrite Hth.
  - simpl. rewrite finished_step by done. by apply IH.
Qed.

Lemma finished_stop e w :
  thread_finished w = true ->
  frames (self (fst (stop_recording e w))) = frames (self w) /\
  processing_thread (self (fst (stop_recording e w))) = processing_thread (self w) /\
  snd (stop_recording e w) <> Blocks.
Proof.
  intros Hf. destruct (recording (self w)) eqn:Hrec.
  2: { by rewrite stop_recording_idle. }
  destruct (stream (self w)) as [s|] eqn:Hs.
  2: { by rewrite stop_recording_no_stream. }
  rewrite (stop_recording_active e w s) by done.
  destruct (signal_stop_fields w) as (_ & _ & Ht2 & _ & Hf2 & _).
  assert (Hfs : thread_finished (signal_stop w) = true).
  { unfold thread_finished in *. by rewrite Ht2. }
  assert (Hsome : exists t, processing_thread (self w) = Some t).
  { unfold thread_finished in Hf.
    destruct (processing_thread (self w)); [eauto | done]. }
  destruct Hsome as [t Ht].
  replace (match processing_thread (self w) with
           | Some _ => join
           | None => ret tt
           end) with join by (rewrite Ht; reflexivity).
  unfold bind, join.
  rewrite run_worker_finished by done.
  destruct (save_and_return_self e (signal_stop w)) as [-> _].
  pose proof (save_and_return_outcome e (signal_stop w)) as Ho.
  split; [done|]. split; [done|].
  intros Heq. by rewrite Heq in Ho.
Qed.

(** ** A worker with nothing to take *)

Lemma idle_step w :
  audio_queue (self w) = [] ->
  audio_queue (self (_process_audio_step w)) = [] /\
  frames (self (_process_audio_step w)) = frames (self w) /\
  progress_calls (_process_audio_step w) = progress_calls w.
Proof.
  unfold _process_audio_step. open_world w. intros ->.
  repeat (case_match; simpl in *; subst); simplify_eq; simpl; done.
Qed.

Lemma idle_events evs w :
  delivered evs = [] ->
  audio_queue (self w) = [] ->
  audio_queue (self (run_events evs w)) = [] /\
  frames (self (run_events evs w)) = frames (self w) /\
  progress_calls (run_events evs w) = progress_calls w.
Proof.
  revert w. induction evs as [|ev evs IH]; intros w Hd Hq; simpl; [done|].
  destruct ev as [c s|]; [done|]. simpl in Hd.
  destruct (idle_step w Hq) as (Hq' & Hf' & Hc').
  change (run_event WorkerStep w) with (_process_audio_step w).
  destruct (IH (_process_audio_step w) Hd Hq') as (-> & -> & ->). done.
Qed.

(** With the output path assigned, [stop_recording] can only fail in the
    WAV writer. *)
Lemma save_and_return_with_path e w p :
  output_file (self w) = Some p ->
  match snd (save_and_return e w) with
  | Returns p' => p' = p
  | Raises (OSError _) | Raises (WaveError _) | Raises (StructError _) => True
  | _ => False
  end.
Proof.
  intros Ho.
  destruct (save_and_return_cases e w) as [(_ & _ & ->)|(p' & _ & Ho' & _ & ->)].
  - by rewrite Ho.
  - destruct (save_wav_effect e (concat (frames (self w))) p' w) as (_ & _ & _ & H).
    destruct (snd (_save_wav e _ p' w)) as [[]|[]|]; try done. congruence.
Qed.

(** ** Progress reports follow the frame buffer *)

Lemma progress_of_settings r r' fs :
  same_settings r r' -> progress_of r' fs = progress_of r fs.
Proof. intros (Hsr & _ & Hcs & _). unfold progress_of. by rewrite Hsr, Hcs. Qed.

Lemma progress_of_snoc r fs data :
  progress_of r (fs ++ [data]) =
  progress_of r fs ++
    [((inject_Z (Z.of_nat (length (fs ++ [data])) * chunk_size r)
       / inject_Z (sample_rate r))%Q, length data)].
Proof.
  unfold progress_of. rewrite imap_app. simpl. rewrite length_app. simpl.
  by rewrite Nat.add_0_r, Nat.add_1_r.
Qed.

Lemma step_progress w cb base :
  callback (self w) = Some cb -> sample_rate (self w) <> 0 ->
  progress_calls w = base ++ progress_of (self w) (frames (self w)) ->
  progress_calls (_process_audio_step w)
    = base ++ progress_of (self (_process_audio_step w))
                (frames (self (_process_audio_step w))).
Proof.
  intros Hcb Hsr Hinv.
  destruct (step_settings w) as [Hset _].
  rewrite (progress_of_settings _ _ _ Hset).
  revert Hcb Hsr Hinv.
  unfold _process_audio_step, process_item, elapsed_seconds. open_world w.
  intros -> Hsr ->.
  repeat (case_match; simpl in *; subst); simplify_eq; simpl; try done.
  all: try (apply Z.eqb_eq in H0; done).
  all: rewrite progress_of_snoc; simpl.
  all: symmetry; apply app_assoc.
Qed.

Lemma events_progress evs w cb base :
  callback (self w) = Some cb -> sample_rate (self w) <> 0 ->
  progress_calls w = base ++ progress_of (self w) (frames (self w)) ->
  progress_calls (run_events evs w)
    = base ++ progress_of (self w) (frames (self (run_events evs w))).
Proof.
  revert w. induction evs as [|ev evs IH]; intros w Hcb Hsr Hinv; simpl; [done|].
  destruct (event_settings ev w) as [Hset _].
  pose proof Hset as (Hsr' & _ & _ & _ & _ & Hcb' & _).
  rewrite <- (progress_of_settings _ _ _ Hset).
  apply IH; [congruence | congruence |].
  destruct ev as [c s|].
  - rewrite (progress_of_settings _ _ _ Hset).
    revert Hinv. unfold run_event, _audio_callback. open_world w.
    by repeat case_match.
  - by apply (step_progress w cb).
Qed.

Lemma progress_of_monotone r fs i j x y :
  0 < sample_rate r -> 0 <= chunk_size r ->
  (i <= j)%nat ->
  progress_of r fs !! i = Some x -> progress_of r fs !! j = Some y ->
  (fst x <= fst y)%Q.
Proof.
  intros Hsr Hcs Hij. unfold progress_of. rewrite !list_lookup_imap.
  intros Hx Hy.
  apply fmap_Some in Hx as (ci & _ & ->).
  apply fmap_Some in Hy as (cj & _ & ->). simpl.
  destruct (sample_rate r) as [|sr|sr]; try lia.
  unfold Qle, Qdiv, Qmult, Qinv, inject_Z. simpl.
  repeat (apply Z.mul_le_mono_nonneg_r; [lia|]). lia.
Qed.

Lemma progress_of_ext r r' fs :
  sample_rate r' = sample_rate r -> chunk_size r' = chunk_size r ->
  progress_of r' fs = progress_of r fs.
Proof. intros Hsr Hcs. unfold progress_of. by rewrite Hsr, Hcs. Qed.

(** ** The timestamp in the file name *)

Ltac divmod := Z.div_mod_to_equations; lia.

Lemma digit_inj a b :
  0 <= a <= 9 -> 0 <= b <= 9 -> digit a = digit b -> a = b.
Proof.
  intros Ha Hb H. unfold digit in H.
  apply (f_equal nat_of_ascii) in H.
  rewrite !nat_ascii_embedding in H by lia. lia.
Qed.

Lemma pad2_inj a b :
  0 <= a < 100 -> 0 <= b < 100 -> pad2 a = pad2 b -> a = b.
Proof.
  intros Ha Hb H. unfold pad2 in H. injection H as H1 H2.
  apply digit_inj in H1; [| divmod ..].
  apply digit_inj in H2; [| divmod ..].
  divmod.
Qed.

Lemma string_app_assoc (x y z : string) : (x +:+ y) +:+ z = x +:+ (y +:+ z).
Proof.
  induction x as [|c x IH]; [reflexivity|].
  change (String c ((x +:+ y) +:+ z) = String c (x +:+ (y +:+ z))).
  by rewrite IH.
Qed.

Lemma pad2_app a s b t :
  pad2 a +:+ s = pad2 b +:+ t -> pad2 a = pad2 b /\ s = t.
Proof.
  unfold pad2. intros H. injection H as H1 H2 H3.
  split; [by rewrite H1, H2 | exact H3].
Qed.

Lemma pad4_app a s b t :
  0 <= a < 10000 -> 0 <= b < 10000 ->
  pad4 a +:+ s = pad4 b +:+ t -> a = b /\ s = t.
Proof.
  intros Ha Hb H. unfold pad4 in H.
  rewrite !string_app_assoc in H.
  apply pad2_app in H as [H1 H]. apply pad2_app in H as [H2 H].
  apply pad2_inj in H1; [| divmod ..].
  apply pad2_inj in H2; [| divmod ..].
  split; [divmod | done].
Qed.

Lemma app_cancel_l (s a b : string) : s +:+ a = s +:+ b -> a = b.
Proof. apply (inj (String.app s)). Qed.

Lemma strftime_same_second t1 t2 :
  valid_datetime t1 -> valid_datetime t2 ->
  forall s1 s2, strftime t1 +:+ s1 = strftime t2 +:+ s2 -> same_second t1 t2.
Proof.
  intros (Hy1 & Hm1 & Hd1 & Hh1 & Hmi1 & Hs1) (Hy2 & Hm2 & Hd2 & Hh2 & Hmi2 & Hs2)
    s1 s2 H.
  unfold strftime in H.
  rewrite !string_app_assoc in H.
  apply pad4_app in H as [Hy H]; [|lia..].
  apply pad2_app in H as [Hm H]. apply pad2_inj in Hm; [|lia..].
  apply pad2_app in H as [Hd H]. apply pad2_inj in Hd; [|lia..].
  apply app_cancel_l in H.
  apply pad2_app in H as [Hh H]. apply pad2_inj in Hh; [|lia..].
  apply pad2_app in H as [Hmi H]. apply pad2_inj in Hmi; [|lia..].
  apply pad2_app in H as [Hs H]. apply pad2_inj in Hs; [|lia..].
  by repeat split.
Qed.

Lemma recording_path_same_second dir t1 t2 :
  valid_datetime t1 -> valid_datetime t2 ->
  (recording_path dir t1 = recording_path dir t2 <-> same_second t1 t2).
Proof.
  intros Hv1 Hv2. split.
  - unfold recording_path. intros H.
    do 3 apply app_cancel_l in H.
    by apply (strftime_same_second t1 t2 Hv1 Hv2 ".wav" ".wav").
  - intros (Hy & Hm & Hd & Hh & Hmi & Hs).
    unfold recording_path, strftime.
    by rewrite Hy, Hm, Hd, Hh, Hmi, Hs.
Qed.

(** [stop_recording] writes nowhere but at [self.output_file]. *)
Lemma save_and_return_elsewhere e w p q :
  output_file (self w) = Some p -> q <> p ->
  disk (fst (save_and_return e w)) !! q = disk w !! q.
Proof.
  intros Ho Hne.
  destruct (save_and_return_cases e w) as [(_ & -> & _)|(p' & _ & Ho' & -> & _)]; [done|].
  destruct (save_wav_effect e (concat (frames (self w))) p' w) as (_ & _ & H & _).
  apply H. congruence.
Qed.

Lemma stop_recording_elsewhere e w p q :
  output_file (self w) = Some p -> q <> p ->
  disk (fst (stop_recording e w)) !! q = disk w !! q.
Proof.
  intros Ho Hne. destruct (recording (self w)) eqn:Hrec.
  2: { by rewrite stop_recording_idle. }
  destruct (stream (self w)) as [s|] eqn:Hs.
  2: { by rewrite stop_recording_no_stream. }
  destruct (stop_recording_joined e w s Hrec Hs) as [k ->].
  destruct (events_settings (worker_steps k) (signal_stop w))
    as [(_&_&_&_&_&_&_&_& Hoj) Hdj].
  destruct (signal_stop_fields w)
    as (_ & _ & _ & _ & _ & _ & _ & _ & _ & Ho2 & Hd2 & _).
  rewrite (save_and_return_elsewhere e _ p q) by congruence. congruence.
Qed.

(** ** The flag after a failed start *)

Lemma start_stream_inv env cb w :
  stream_inv (self w) -> stream_inv (self (fst (start_recording env cb w))).
Proof.
  intros H. destruct (recording (self w)) eqn:Hrec.
  - by rewrite start_recording_active.
  - rewrite start_recording_idle by done.
    destruct (open_error env); [|destruct (start_error env)]; simpl;
      unfold stream_inv; open_world w; done.
Qed.

Lemma stop_stream_inv e w :
  stream_inv (self w) -> stream_inv (self (fst (stop_recording e w))).
Proof.
  intros H. destruct (recording (self w)) eqn:Hrec.
  2: { by rewrite stop_recording_idle. }
  destruct (stream (self w)) as [s|] eqn:Hs.
  2: { by rewrite stop_recording_no_stream. }
  destruct (stop_recording_joined e w s Hrec Hs) as [k ->].
  destruct (save_and_return_self e (run_events (worker_steps k) (signal_stop w)))
    as [-> _].
  destruct (events_settings (worker_steps k) (signal_stop w))
    as [(_&_&_&_&_&_&_& Hsj &_) _].
  destruct (signal_stop_fields w) as (_ & Hs2 & _).
  intros _. right. congruence.
Qed.

Lemma reachable_stream_inv w : reachable w -> stream_inv (self w).
Proof.
  induction 1 as [config sr ch cs d | ev w _ IH | env cb w _ IH | e w _ IH].
  - intros _. by left.
  - destruct (event_settings ev w) as [(_&_&_&_& Hr &_&_& Hs &_) _].
    unfold stream_inv in *. by rewrite Hr, Hs.
  - by apply start_stream_inv.
  - by apply stop_stream_inv.
Qed.

Lemma record_active senv slenv e duration cb w :
  recording (self w) = true ->
  record senv slenv e duration cb w =
    (w, Raises (RuntimeError "Recording is already in progress")).
Proof.
  intros H. unfold record, bind, gets. simpl.
  by rewrite start_recording_active.
Qed.

Lemma stuck_calls cs w :
  recording (self w) = true ->
  Forall (fun c => is_stop c = false \/ stream (self w) = None) cs ->
  run_calls cs w = (w, map stuck_outcome cs).
Proof.
  intros Hrec. induction 1 as [|c cs Hc _ IH]; simpl; [done|].
  assert (Hcall : run_call c w = (w, stuck_outcome c)).
  { destruct c as [senv cb | senv slenv e duration cb | e]; simpl.
    - by apply start_recording_active.
    - by apply record_active.
    - destruct Hc as [Hc | Hc]; [done|]. by apply stop_recording_no_stream. }
  by rewrite Hcall, IH.
Qed.

Lemma stuck_outcome_no_stop cs :
  Forall (fun c => is_stop c = false) cs ->
  map stuck_outcome cs
  = map (fun _ => Raises (RuntimeError "Recording is already in progress")) cs.
Proof.
  induction 1 as [|c cs Hc _ IH]; simpl; [done|].
  unfold stuck_outcome at 1. by rewrite Hc, IH.
Qed.

(** ** One session: start, events, stop *)

(** The state in which [stop_recording] saves, for a session whose
    callback is quiet: the worker has left its loop, the queue is empty and
    the frame buffer holds what was queued at the start followed by every
    delivered block. *)
Lemma session_drained senv cb e evs w w1 p :
  start_recording senv cb w = (w1, Returns p) ->
  quiet_callback (self w1) ->
  exists wj,
    stop_recording e (run_events evs w1) = save_and_return e wj /\
    processing_thread (self wj) = Some Exited /\
    recording (self wj) = false /\
    audio_queue (self wj) = [] /\
    frames (self wj) = audio_queue (self w) ++ delivered evs /\
    output_file (self wj) = Some p /\
    channels (self wj) = channels (self w) /\
    sample_rate (self wj) = sample_rate (self w) /\
    disk wj = disk w.
Proof.
  intros Hstart Hq.
  apply start_recording_returns in Hstart as (Hrec & -> & ->).
  destruct (started_fields senv cb w)
    as (Hr1 & Hs1 & Ht1 & Hq1 & Hf1 & Hcb1 & Hsr1 & Hch1 & Hcs1 & Ho1 & Hd1 & _).
  set (w1 := started senv cb w) in *.
  set (we := run_events evs w1).
  assert (Hc1 : crashed (self w1) = false) by (unfold crashed; by rewrite Ht1).
  assert (Hl1 : looping (self w1)) by (unfold looping; by rewrite Hr1, Ht1).
  destruct (events_pending evs w1 Hq Hc1 Hs1) as [Hpe Hce].
  pose proof (events_looping evs w1 Hl1) as Hle.
  destruct (looping_running _ Hle Hce) as (t & Hte & Hrun).
  destruct (events_settings evs w1)
    as [(Hsre & Hche & Hcse & _ & Hre & Hcbe & _ & Hse & Hoe) Hde].
  fold we in Hpe, Hce, Hle, Hte, Hsre, Hche, Hcse, Hre, Hcbe, Hse, Hoe, Hde.
  rewrite (stop_recording_active e we StreamActive)
    by (first [by rewrite Hre | by rewrite Hse]).
  rewrite Hte.
  destruct (signal_stop_fields we)
    as (Hr2 & Hs2 & Ht2 & Hq2 & Hf2 & Hcb2 & Hsr2 & Hch2 & Hcs2 & Ho2 & Hd2 & _).
  set (ws := signal_stop we) in *.
  assert (Hqs : quiet_callback (self ws)).
  { unfold quiet_callback in *. rewrite Hcb2, Hsr2, Hcbe, Hsre. exact Hq. }
  assert (Hnf : thread_finished ws = false).
  { unfold thread_finished. rewrite Ht2, Hte. by destruct t. }
  destruct (join_drains ws t Hr2 ltac:(congruence) Hnf Hqs)
    as (wj & k & Hj & Hk & Htj & Hqj & Hfj).
  destruct (events_settings (worker_steps k) ws)
    as [(Hsrj & Hchj & _ & _ & Hrj & _ & _ & _ & Hoj) Hdj].
  rewrite <- Hk in Hsrj, Hchj, Hrj, Hoj, Hdj.
  exists wj. unfold bind. rewrite Hj.
  split; [done|]. split; [done|]. split; [done|]. split; [done|].
  split.
  { rewrite Hfj. unfold pending. rewrite Hf2, Hq2.
    change (frames (self we) ++ audio_queue (self we)) with (pending (self we)).
    rewrite Hpe. unfold pending. by rewrite Hf1, Hq1. }
  split; [by rewrite Hoj, Ho2, Hoe|].
  split; [by rewrite Hchj, Hch2, Hche|].
  split; [by rewrite Hsrj, Hsr2, Hsre|].
  by rewrite Hdj, Hd2, Hde.
Qed.

(** ** Narrowing to 16 bits *)

Lemma wrap16_range z : -32768 <= wrap16 z <= 32767.
Proof. unfold wrap16. divmod. Qed.


Lemma wrap16_small z : -32768 <= z <= 32767 -> wrap16 z = z.
Proof. unfold wrap16. intros H. divmod. Qed.


Lemma to_pcm16_low16 s z :
  trunc (mul s (of_int 32767)) = Some z ->
  - 2 ^ 31 <= z < 2 ^ 31 ->
  to_pcm16 s = wrap16 z.
Proof.
  intros Ht Hz. unfold to_pcm16, astype_int16. rewrite Ht.
  destruct (Z.leb_spec (- 2 ^ 31) z); [|lia].
  destruct (Z.ltb_spec z (2 ^ 31)); [|lia]. done.
Qed.
(** ** [record] stays within the reachable states *)

Lemma reachable_events evs w : reachable w -> reachable (run_events evs w).
Proof.
  revert w. induction evs as [|ev evs IH]; intros w H; simpl; [done|].
  by apply IH, reach_event.
Qed.

(** Whatever ends the wait, [record] ends with [stop_recording] on the
    state the driver and the worker have reached. *)
Lemma record_unfold senv slenv e duration cb w :
  record senv slenv e duration cb w =
    match start_recording senv cb w with
    | (w1, Returns _) => stop_recording e (run_events (during slenv) w1)
    | (w1, Raises x) => (w1, Raises x)
    | (w1, Blocks) => (w1, Blocks)
    end.
Proof.
  unfold record, bind, gets, finally_return, try_except, time_sleep, ret. simpl.
  destruct (start_recording senv cb w) as [w1 [p|x|]]; [|done..].
  destruct (Qle_bool 0 _); simpl; [|done].
  destruct (interrupted slenv) as [[]|]; simpl; done.
Qed.

Lemma reachable_record senv slenv e duration cb w :
  reachable w -> reachable (fst (record senv slenv e duration cb w)).
Proof.
  intros H. rewrite record_unfold.
  pose proof (reach_start senv cb w H) as H1.
  destruct (start_recording senv cb w) as [w1 [p|x|]]; simpl in *; [|done..].
  by apply reach_stop, reachable_events.
Qed.
(** ** Sessions with any callback *)

Lemma step_pending_any w :
  pending (self (_process_audio_step w)) = pending (self w).
Proof.
  unfold pending, _process_audio_step, process_item. open_world w.
  repeat (case_match; simpl in *; subst); simplify_eq; simpl;
    rewrite <- ?app_assoc; done.
Qed.

Lemma worker_steps_pending k w :
  pending (self (run_events (worker_steps k) w)) = pending (self w).
Proof.
  revert w. induction k as [|k IH]; intros w; [done|].
  rewrite worker_steps_S, IH. apply step_pending_any.
Qed.

Lemma events_pending_any evs w :
  stream (self w) = Some StreamActive ->
  pending (self (run_events evs w)) = pending (self w) ++ delivered evs.
Proof.
  revert w. induction evs as [|ev evs IH]; intros w Hs; simpl.
  - by rewrite app_nil_r.
  - destruct (event_settings ev w) as [(_&_&_&_&_&_&_& Hs' &_) _].
    rewrite IH by congruence. destruct ev as [c s|].
    + destruct (deliver_pending c s w Hs) as [-> _]. by rewrite <- app_assoc.
    + simpl. by rewrite step_pending_any.
Qed.

(** What [stop_recording] leaves of an active recorder is what the worker,
    running alone after the signal, makes of it. *)
Lemma stop_recording_self e w s :
  recording (self w) = true -> stream (self w) = Some s ->
  exists k,
    self (fst (stop_recording e w))
      = self (run_events (worker_steps k) (signal_stop w)) /\
    progress_calls (fst (stop_recording e w))
      = progress_calls (run_events (worker_steps k) (signal_stop w)) /\
    snd (stop_recording e w)
      = snd (save_and_return e (run_events (worker_steps k) (signal_stop w))).
Proof.
  intros Hrec Hs. destruct (stop_recording_joined e w s Hrec Hs) as [k ->].
  exists k.
  by destruct (save_and_return_self e (run_events (worker_steps k) (signal_stop w)))
    as [-> ->].
Qed.

Lemma save_and_return_open_error msg w p :
  frames (self w) <> [] -> output_file (self w) = Some p ->
  save_and_return (Some msg) w = (w, Raises (OSError msg)).
Proof.
  intros Hf Ho. unfold save_and_return, _save_wav, bind, gets, raise. simpl.
  destruct (frames (self w)); [done|]. by rewrite Ho.
Qed.

(** An active recorder that holds nothing: [stop_recording] returns the
    stored path (or fails on the missing attribute) and writes nothing. *)
Lemma stop_without_chunks e w s :
  recording (self w) = true -> stream (self w) = Some s ->
  audio_queue (self w) = [] -> frames (self w) = [] ->
  recording (self (fst (stop_recording e w))) = false /\
  frames (self (fst (stop_recording e w))) = [] /\
  audio_queue (self (fst (stop_recording e w))) = [] /\
  disk (fst (stop_recording e w)) = disk w /\
  snd (stop_recording e w) =
    match output_file (self w) with
    | Some p => Returns p
    | None => Raises (AttributeError "output_file")
    end.
Proof.
  intros Hrec Hs Hq Hf.
  destruct (stop_recording_joined e w s Hrec Hs) as [k ->].
  destruct (signal_stop_fields w)
    as (Hr2 & _ & _ & Hq2 & Hf2 & _ & _ & _ & _ & Ho2 & Hd2 & _).
  destruct (events_settings (worker_steps k) (signal_stop w))
    as [(_&_&_&_& Hrj &_&_&_& Hoj) Hdj].
  destruct (idle_events (worker_steps k) (signal_stop w)
              (delivered_worker_steps k) ltac:(congruence)) as (Hqj & Hfj & _).
  set (wj := run_events (worker_steps k) (signal_stop w)) in *.
  assert (Hfj' : frames (self wj) = []) by congruence.
  assert (Hsave : save_and_return e wj =
            (wj, match output_file (self w) with
                 | Some p => Returns p
                 | None => Raises (AttributeError "output_file")
                 end)).
  { unfold save_and_return, bind, gets, ret, raise. simpl.
    rewrite Hfj', Hoj, Ho2. by destruct (output_file (self w)). }
  rewrite Hsave. simpl.
  split; [congruence|]. split; [done|]. split; [done|]. split; [congruence|done].
Qed.

Lemma inactive_stream_events evs w :
  stream (self w) <> Some StreamActive ->
  audio_queue (self w) = [] ->
  audio_queue (self (run_events evs w)) = [] /\
  frames (self (run_events evs w)) = frames (self w).
Proof.
  revert w. induction evs as [|ev evs IH]; intros w Hs Hq; simpl; [done|].
  destruct ev as [c s|].
  - assert (Hw : run_event (Deliver c s) w = w).
    { simpl. destruct (stream (self w)) as [[]|]; done. }
    rewrite Hw. by apply IH.
  - change (run_event WorkerStep w) with (_process_audio_step w).
    destruct (idle_step w Hq) as (Hq' & Hf' & _).
    destruct (step_settings w) as [(_&_&_&_&_&_&_& Hs' &_) _].
    destruct (IH (_process_audio_step w)) as [-> ->]; [congruence | done | done].
Qed.

(** The state in which [stop_recording] saves, for any session: the
    worker has come to its end one way or the other, and the frame buffer
    followed by the queue holds what was queued at the start followed by
    every delivered block. *)
Lemma session_joined senv cb e evs w w1 p :
  start_recording senv cb w = (w1, Returns p) ->
  exists wj k,
    stop_recording e (run_events evs w1) = save_and_return e wj /\
    wj = run_events (worker_steps k) (signal_stop (run_events evs w1)) /\
    recording (self wj) = false /\
    pending (self wj) = audio_queue (self w) ++ delivered evs /\
    output_file (self wj) = Some p /\
    channels (self wj) = channels (self w) /\
    sample_rate (self wj) = sample_rate (self w) /\
    disk wj = disk w.
Proof.
  intros Hstart.
  apply start_recording_returns in Hstart as (Hrec & -> & ->).
  destruct (started_fields senv cb w)
    as (Hr1 & Hs1 & _ & Hq1 & Hf1 & _ & Hsr1 & Hch1 & _ & Ho1 & Hd1 & _).
  set (w1 := started senv cb w) in *.
  destruct (events_settings evs w1)
    as [(Hsre & Hche & _ & _ & Hre & _ & _ & Hse & Hoe) Hde].
  pose proof (events_pending_any evs w1 Hs1) as Hpe.
  set (we := run_events evs w1) in *.
  destruct (stop_recording_joined e we StreamActive) as [k Hstop]; [congruence..|].
  destruct (signal_stop_fields we)
    as (Hr2 & _ & _ & Hq2 & Hf2 & _ & Hsr2 & Hch2 & _ & Ho2 & Hd2 & _).
  destruct (events_settings (worker_steps k) (signal_stop we))
    as [(Hsrj & Hchj & _ & _ & Hrj & _ & _ & _ & Hoj) Hdj].
  exists (run_events (worker_steps k) (signal_stop we)), k.
  split; [done|]. split; [done|]. split; [congruence|]. split.
  { rewrite worker_steps_pending. unfold pending in *.
    rewrite Hf2, Hq2, Hpe. by rewrite Hf1, Hq1. }
  split; [congruence|]. split; [congruence|]. split; congruence.
Qed.

(** When no worker is running, nothing moves into the frame buffer. *)
Lemma no_worker_events evs w :
  processing_thread (self w) = None \/ thread_finished w = true ->
  frames (self (run_events evs w)) = frames (self w) /\
  processing_thread (self (run_events evs w)) = processing_thread (self w).
Proof.
  intros [Hnone | Hfin]; [|by apply finished_events].
  revert w Hnone. induction evs as [|ev evs IH]; intros w Hnone; simpl; [done|].
  assert (H : frames (self (run_event ev w)) = frames (self w) /\
              processing_thread (self (run_event ev w)) = None).
  { destruct ev as [c s|]; simpl.
    - by destruct (stream (self w)) as [[]|].
    - unfold _process_audio_step. by rewrite Hnone. }
  destruct H as [Hf Ht]. destruct (IH _ Ht) as [-> ->]. by rewrite Hf, Ht.
Qed.

(** [stop_recording] on a recorder whose flag is set but which has no
    running worker and an empty frame buffer: the flag is cleared, nothing
    is written, and the stored path is returned if there is one. *)
Lemma stop_without_worker e w s :
  recording (self w) = true -> stream (self w) = Some s ->
  processing_thread (self w) = None \/ thread_finished w = true ->
  frames (self w) = [] ->
  recording (self (fst (stop_recording e w))) = false /\
  disk (fst (stop_recording e w)) = disk w /\
  snd (stop_recording e w) =
    match output_file (self w) with
    | Some p => Returns p
    | None => Raises (AttributeError "output_file")
    end.
Proof.
  intros Hrec Hs Hth Hf.
  destruct (stop_recording_joined e w s Hrec Hs) as [k ->].
  destruct (signal_stop_fields w)
    as (Hr2 & _ & Ht2 & _ & Hf2 & _ & _ & _ & _ & Ho2 & Hd2 & _).
  destruct (events_settings (worker_steps k) (signal_stop w))
    as [(_&_&_&_& Hrj &_&_&_& Hoj) Hdj].
  destruct (no_worker_events (worker_steps k) (signal_stop w)) as [Hfj _].
  { unfold thread_finished in *. by rewrite Ht2. }
  set (wj := run_events (worker_steps k) (signal_stop w)) in *.
  destruct (save_and_return_cases e wj) as [(_ & -> & ->)|(p & Hne & _)].
  - split; [congruence|]. split; [congruence|]. by rewrite Hoj, Ho2.
  - destruct Hne. congruence.
Qed.

(** A step of the worker that takes a block from the queue: the block is
    appended and the callback is called once, whatever it answers. *)
Lemma step_takes_one w data rest cb :
  processing_thread (self w) = Some AtGet ->
  audio_queue (self w) = data :: rest ->
  callback (self w) = Some cb ->
  sample_rate (self w) <> 0 ->
  audio_queue (self (_process_audio_step w)) = rest /\
  frames (self (_process_audio_step w)) = frames (self w) ++ [data] /\
  progress_calls (_process_audio_step w)
    = progress_calls w ++
      [((inject_Z (Z.of_nat (length (frames (self w) ++ [data])) * chunk_size (self w))
         / inject_Z (sample_rate (self w)))%Q, length data)].
Proof.
  unfold _process_audio_step, process_item, elapsed_seconds. open_world w.
  intros -> -> -> Hsr. simpl.
  destruct (Z.eqb_spec sample_rate0 0) as [|_]; [done|]. simpl.
  destruct (cb _ _) as [x|]; [destruct (is_QueueEmpty x)|]; done.
Qed.

(** * The claims *)

(** ** C5: the guards of start_recording and stop_recording *)

(** C5. [start_recording] raises "Recording is already in progress" exactly
    when the recording flag is true at the call, and [stop_recording]
    raises "No recording in progress" exactly when the flag is false;
    in the other states neither call ends with its guard's error. *)
Theorem guards_follow_the_flag (senv : start_env) (cb : option progress_callback)
    (e : option string) (w : world) :
  (snd (start_recording senv cb w)
     = Raises (RuntimeError "Recording is already in progress")
   <-> recording (self w) = true) /\
  (snd (stop_recording e w) = Raises (RuntimeError "No recording in progress")
   <-> recording (self w) = false).
Proof.
  split; split.
  - destruct (recording (self w)) eqn:Hrec; [done|].
    rewrite start_recording_idle by done.
    destruct (open_error senv); [done|]. by destruct (start_error senv).
  - intros H. by rewrite start_recording_active.
  - destruct (recording (self w)) eqn:Hrec; [|done].
    destruct (stream (self w)) as [s|] eqn:Hs.
    + destruct (stop_recording_joined e w s Hrec Hs) as [k ->].
      pose proof (save_and_return_outcome e
                    (run_events (worker_steps k) (signal_stop w))) as H.
      intros Heq. rewrite Heq in H. done.
    + by rewrite stop_recording_no_stream.
  - intros H. by rewrite stop_recording_idle.
Qed.

(** ** C1: the queue hands every chunk to the frame buffer, in order *)

(** C1, as stated, fails: with a progress callback that raises on its
    second call, the third of three delivered blocks never reaches
    [self.frames], although [stop_recording] returns normally. *)
Lemma raising_callback_loses_chunks :
  snd (start_recording demo_start (Some late_faulty_callback) fresh)
    = Returns demo_path /\
  snd (stop_recording None
         (run_events three_blocks
            (fst (start_recording demo_start (Some late_faulty_callback) fresh))))
    = Returns demo_path /\
  delivered three_blocks = [block_a; block_b; block_c] /\
  frames (self (fst (stop_recording None
         (run_events three_blocks
            (fst (start_recording demo_start (Some late_faulty_callback) fresh))))))
    = [block_a; block_b].
Proof. repeat split; vm_compute; reflexivity. Qed.

(** C1, amended. In a session that starts with an empty queue and whose
    progress callback (if any) is quiet, that is, it is used with a
    non-zero sample rate and lets no exception other than queue.Empty
    escape, the frame buffer after [stop_recording] is exactly the sequence
    of delivered blocks: each one once, in arrival order. [stop_recording]
    does not block. *)
Theorem chunks_reach_frames_in_order (senv : start_env)
    (cb : option progress_callback) (e : option string) (evs : list event)
    (w w1 : world) (p : string) :
  start_recording senv cb w = (w1, Returns p) ->
  audio_queue (self w) = [] ->
  quiet_callback (self w1) ->
  frames (self (fst (stop_recording e (run_events evs w1)))) = delivered evs /\
  snd (stop_recording e (run_events evs w1)) <> Blocks.
Proof.
  intros Hstart Hempty Hq.
  destruct (session_drained senv cb e evs w w1 p Hstart Hq)
    as (wj & -> & _ & _ & _ & Hf & _).
  destruct (save_and_return_self e wj) as [-> _].
  split; [by rewrite Hf, Hempty|].
  pose proof (save_and_return_outcome e wj) as H. intros Heq.
  by rewrite Heq in H.
Qed.

Lemma chunks_reach_frames_in_order_witness :
  frames (self (fst (stop_recording None
     (run_events three_blocks (started demo_start (Some silent_callback) fresh)))))
  = [block_a; block_b; block_c].
Proof.
  apply (chunks_reach_frames_in_order demo_start (Some silent_callback) None
           three_blocks fresh (started demo_start (Some silent_callback) fresh)
           demo_path).
  - reflexivity.
  - reflexivity.
  - split; [discriminate | intros; left; reflexivity].
Defined.

(** ** C2: when the drain loop ends *)

(** C2, as stated, fails: a progress callback that raises ends the worker
    while the flag is still true and a block is still queued; the [join]
    in [stop_recording] then returns at once and the block stays in the
    queue. *)
Lemma worker_ends_with_block_queued :
  thread_finished
    (run_events both_then_worker (started demo_start (Some faulty_callback) fresh))
    = true /\
  recording (self
    (run_events both_then_worker (started demo_start (Some faulty_callback) fresh)))
    = true /\
  snd (stop_recording None
    (run_events both_then_worker (started demo_start (Some faulty_callback) fresh)))
    = Returns demo_path /\
  audio_queue (self (fst (stop_recording None
    (run_events both_then_worker (started demo_start (Some faulty_callback) fresh)))))
    = [block_b] /\
  frames (self (fst (stop_recording None
    (run_events both_then_worker (started demo_start (Some faulty_callback) fresh)))))
    = [block_a].
Proof. repeat split; vm_compute; reflexivity. Qed.

(** C2, amended. The loop test of the drain worker turns false only in a
    state where the recording flag is false and the queue is empty (in
    every state between controller calls or inside the join). When the
    progress callback is quiet, the worker ends in no other way, so that
    after [stop_recording] the worker has exited, the queue is empty and
    every queued or delivered block is in the frame buffer. (A callback
    exception other than queue.Empty ends the worker wherever it is.) *)
Theorem loop_exit_means_drained :
  (forall w : world,
     reachable w \/ joining w ->
     thread_finished w = false ->
     processing_thread (self (_process_audio_step w)) = Some Exited ->
     recording (self w) = false /\ audio_queue (self w) = []) /\
  (forall (senv : start_env) (cb : option progress_callback) (e : option string)
          (evs : list event) (w w1 : world) (p : string),
     start_recording senv cb w = (w1, Returns p) ->
     quiet_callback (self w1) ->
     let w2 := fst (stop_recording e (run_events evs w1)) in
     processing_thread (self w2) = Some Exited /\
     recording (self w2) = false /\
     audio_queue (self w2) = [] /\
     frames (self w2) = audio_queue (self w) ++ delivered evs).
Proof.
  split.
  - intros w Hw Hnf Hexit.
    destruct (exit_step w Hnf Hexit) as [Hth Hq]. split; [|done].
    destruct Hw as [Hr | Hj].
    + apply reachable_thread_inv in Hr. unfold thread_inv in Hr.
      by rewrite Hth in Hr.
    + by apply joining_flag.
  - intros senv cb e evs w w1 p Hstart Hq w2. subst w2.
    destruct (session_drained senv cb e evs w w1 p Hstart Hq)
      as (wj & -> & Ht & Hr & Hqj & Hf & _).
    destruct (save_and_return_self e wj) as [-> _]. done.
Qed.

Lemma loop_exit_means_drained_witness :
  (recording (self (_process_audio_step (signal_stop (started demo_start None fresh))))
     = false /\
   audio_queue (self (_process_audio_step (signal_stop (started demo_start None fresh))))
     = []) /\
  audio_queue (self (fst (stop_recording None
     (run_events three_blocks (started demo_start (Some silent_callback) fresh)))))
  = [].
Proof.
  split.
  - apply (proj1 loop_exit_means_drained
             (_process_audio_step (signal_stop (started demo_start None fresh)))).
    + right. apply joining_step.
      apply (joining_begin (started demo_start None fresh) StreamActive);
        [|reflexivity|reflexivity].
      change (reachable (fst (start_recording demo_start None fresh))).
      apply reach_start. apply (reach_init demo_config None None None ∅).
    + reflexivity.
    + reflexivity.
  - apply (proj2 loop_exit_means_drained demo_start (Some silent_callback) None
             three_blocks fresh (started demo_start (Some silent_callback) fresh)
             demo_path).
    + reflexivity.
    + split; [discriminate | intros; left; reflexivity].
Defined.

(** ** C4: exceptions raised by the progress callback *)

(** C4, as stated, fails: an exception raised by the callback ends the
    worker thread, and a block delivered afterwards is never appended,
    however often the worker is scheduled. *)
Lemma callback_exception_stops_the_worker :
  processing_thread (self
    (run_events taken_then_more (started demo_start (Some faulty_callback) fresh)))
    = Some (Crashed (ValueError "observer failed")) /\
  frames (self
    (run_events taken_then_more (started demo_start (Some faulty_callback) fresh)))
    = [block_a] /\
  frames (self
    (run_events more_after
      (run_events taken_then_more (started demo_start (Some faulty_callback) fresh))))
    = [block_a] /\
  audio_queue (self
    (run_events more_after
      (run_events taken_then_more (started demo_start (Some faulty_callback) fresh))))
    = [block_b].
Proof. repeat split; vm_compute; reflexivity. Qed.

(** C4, amended. When the callback raises [e] while the worker processes a
    block, the block has already been appended. If [e] is queue.Empty the
    [except] clause catches it and the loop continues. Any other exception
    leaves [_process_audio]: the worker thread ends with [e], and from then
    on no event and no [stop_recording] adds anything to the frame buffer
    ([stop_recording] itself does not block). *)
Theorem callback_exception_effect (w : world) (data : chunk) (rest : list chunk)
    (cb : progress_callback) (e : exn) :
  processing_thread (self w) = Some AtGet ->
  audio_queue (self w) = data :: rest ->
  callback (self w) = Some cb ->
  sample_rate (self w) <> 0 ->
  cb (elapsed_seconds (set_frames (frames (self w) ++ [data]) (self w)))
     (length data) = Some e ->
  let w' := _process_audio_step w in
  frames (self w') = frames (self w) ++ [data] /\
  (e = QueueEmpty -> processing_thread (self w') = Some AtWhile) /\
  (e <> QueueEmpty ->
   processing_thread (self w') = Some (Crashed e) /\
   forall (evs : list event) (oe : option string),
     frames (self (run_events evs w')) = frames (self w') /\
     frames (self (fst (stop_recording oe (run_events evs w')))) = frames (self w') /\
     snd (stop_recording oe (run_events evs w')) <> Blocks).
Proof.
  intros Hth Hq Hcb Hsr Hraise w'.
  assert (Hstep : frames (self w') = frames (self w) ++ [data] /\
                  processing_thread (self w') =
                    Some (if is_QueueEmpty e then AtWhile else Crashed e)).
  { subst w'. revert Hth Hq Hcb Hsr Hraise.
    unfold _process_audio_step, process_item, elapsed_seconds.
    open_world w. intros -> -> -> Hsr Hraise. simpl.
    destruct (Z.eqb_spec sample_rate0 0) as [|_]; [done|].
    simpl. rewrite Hraise. by destruct (is_QueueEmpty e). }
  destruct Hstep as [Hfr Hth']. split; [done|]. split.
  - intros ->. by rewrite Hth'.
  - intros Hne.
    assert (Hc : processing_thread (self w') = Some (Crashed e)).
    { rewrite Hth'. by destruct e. }
    split; [done|]. intros evs oe.
    assert (Hfin : thread_finished w' = true)
      by (unfold thread_finished; by rewrite Hc).
    destruct (finished_events evs w' Hfin) as [Hfe Hte].
    assert (Hfin' : thread_finished (run_events evs w') = true)
      by (unfold thread_finished; by rewrite Hte, Hc).
    destruct (finished_stop oe (run_events evs w') Hfin') as (Hfs & _ & Hnb).
    split; [done|]. split; [congruence | done].
Qed.

Lemma callback_exception_effect_witness :
  frames (self (_process_audio_step
            (run_events [Deliver block_a false; WorkerStep]
               (started demo_start (Some faulty_callback) fresh))))
  = [] ++ [block_a].
Proof.
  apply (callback_exception_effect
           (run_events [Deliver block_a false; WorkerStep]
              (started demo_start (Some faulty_callback) fresh))
           block_a [] faulty_callback (ValueError "observer failed")).
  - reflexivity.
  - reflexivity.
  - reflexivity.
  - vm_compute. discriminate.
  - reflexivity.
Defined.

(** ** C6: stopping a session that captured nothing *)

(** C6, as stated, fails: a session that captures nothing, started within
    the same second as an earlier session on the same recorder, is
    stopped without an error and without a write, yet the path it returns
    exists on disk: it is the WAV file of the earlier session. *)
Lemma empty_session_returns_an_existing_file :
  snd (start_recording demo_start_later None after_first_session)
    = Returns demo_path /\
  frames (self (fst (stop_recording None
     (run_events [WorkerStep] (started demo_start_later None after_first_session)))))
    = [] /\
  snd (stop_recording None
     (run_events [WorkerStep] (started demo_start_later None after_first_session)))
    = Returns demo_path /\
  disk (fst (stop_recording None
     (run_events [WorkerStep] (started demo_start_later None after_first_session))))
    !! demo_path
    = Some (WavFile (mkWav 1 2 16000 [255; 63])).
Proof. repeat split; vm_compute; reflexivity. Qed.

(** C6, amended. When the frame buffer of a session is empty at its
    [stop_recording] (as it is when the session started with an empty
    queue and no block was delivered), [stop_recording] does not raise: it
    returns the path [start_recording] returned and leaves the disk as it
    was. So the path names a file after the session exactly if it named
    one before. *)
Theorem empty_session_writes_nothing (senv : start_env)
    (cb : option progress_callback) (e : option string) (evs : list event)
    (w w1 : world) (p : string) :
  start_recording senv cb w = (w1, Returns p) ->
  let w2 := fst (stop_recording e (run_events evs w1)) in
  (audio_queue (self w) = [] -> delivered evs = [] -> frames (self w2) = []) /\
  (frames (self w2) = [] ->
   snd (stop_recording e (run_events evs w1)) = Returns p /\
   disk w2 = disk w /\
   (disk w2 !! p = None <-> disk w !! p = None)).
Proof.
  intros Hstart w2. subst w2.
  destruct (session_joined senv cb e evs w w1 p Hstart)
    as (wj & k & -> & _ & _ & Hp & Ho & _ & _ & Hd).
  destruct (save_and_return_self e wj) as [Hself _]. rewrite Hself. split.
  - intros Hq Hn. rewrite Hq, Hn in Hp. unfold pending in Hp.
    by apply app_eq_nil in Hp as [-> _].
  - intros Hf.
    destruct (save_and_return_cases e wj) as [(_ & -> & ->)|(p' & Hne & _)]; [|done].
    rewrite Ho, Hd. done.
Qed.

Lemma empty_session_writes_nothing_witness :
  snd (stop_recording None
         (run_events [WorkerStep; WorkerStep; WorkerStep]
            (started demo_start (Some faulty_callback) fresh))) = Returns demo_path /\
  disk (fst (stop_recording None
         (run_events [WorkerStep; WorkerStep; WorkerStep]
            (started demo_start (Some faulty_callback) fresh)))) = disk fresh.
Proof.
  assert (Hstart : start_recording demo_start (Some faulty_callback) fresh
                   = (started demo_start (Some faulty_callback) fresh,
                      Returns demo_path)) by reflexivity.
  pose proof (empty_session_writes_nothing demo_start (Some faulty_callback) None
                [WorkerStep; WorkerStep; WorkerStep] fresh
                (started demo_start (Some faulty_callback) fresh) demo_path
                Hstart) as H.
  cbv zeta in H. destruct H as [H1 H2].
  destruct (H2 (H1 eq_refl eq_refl)) as (Ha & Hb & _).
  split; [exact Ha | exact Hb].
Defined.

(** ** C7: record stops on every exit path *)




(** ** C8: the progress callback *)

(** C8. In a session with a registered callback, a positive sample rate and
    a non-negative block size: at every moment and after [stop_recording],
    the blocks that have left the queue are exactly the blocks of the frame
    buffer (frame buffer plus queue is what was queued and delivered), and
    the calls made to the callback since [start_recording] are one per
    block of the frame buffer, in order, the k-th call with the arguments
    [(k * chunk_size / sample_rate, len(chunk_k))]. One step of the worker
    that takes a block from the queue appends it and makes one call with
    these arguments. The first arguments of the calls never decrease. With
    a quiet callback, after [stop_recording] there is one call for every
    block that was queued or delivered. *)
Theorem progress_once_per_chunk (senv : start_env) (cb : progress_callback)
    (e : option string) (evs : list event) (w w1 : world) (p : string) :
  start_recording senv (Some cb) w = (w1, Returns p) ->
  0 < sample_rate (self w) ->
  0 <= chunk_size (self w) ->
  let we := run_events evs w1 in
  let w2 := fst (stop_recording e we) in
  let base := progress_calls w in
  (frames (self we) ++ audio_queue (self we)
     = audio_queue (self w) ++ delivered evs /\
   progress_calls we = base ++ progress_of (self w) (frames (self we))) /\
  (frames (self w2) ++ audio_queue (self w2)
     = audio_queue (self w) ++ delivered evs /\
   progress_calls w2 = base ++ progress_of (self w) (frames (self w2))) /\
  (forall data rest,
     processing_thread (self we) = Some AtGet ->
     audio_queue (self we) = data :: rest ->
     let w' := _process_audio_step we in
     audio_queue (self w') = rest /\
     frames (self w') = frames (self we) ++ [data] /\
     progress_calls w'
       = progress_calls we ++
         [((inject_Z (Z.of_nat (length (frames (self w'))) * chunk_size (self w))
            / inject_Z (sample_rate (self w)))%Q, length data)]) /\
  (forall (i j : nat) (x y : Q * nat),
     (i <= j)%nat ->
     progress_calls w2 !! (length base + i)%nat = Some x ->
     progress_calls w2 !! (length base + j)%nat = Some y ->
     (fst x <= fst y)%Q) /\
  (quiet_callback (self w1) ->
   progress_calls w2
     = base ++ progress_of (self w) (audio_queue (self w) ++ delivered evs)).
Proof.
  intros Hstart Hsr Hcs we w2 base.
  pose proof Hstart as Hstart'.
  apply start_recording_returns in Hstart as (Hrec & -> & ->).
  destruct (started_fields senv (Some cb) w)
    as (Hr1 & Hs1 & _ & Hq1 & Hf1 & Hcb1 & Hsr1 & _ & Hcs1 & _ & _ & Hp1).
  set (w1 := started senv (Some cb) w) in *.
  assert (Hwe : progress_calls we
                = base ++ progress_of (self w) (frames (self we))).
  { subst we. rewrite <- (progress_of_ext (self w) (self w1)) by done.
    apply (events_progress evs w1 cb); [done | lia |].
    rewrite Hf1, Hp1. unfold progress_of. simpl. by rewrite app_nil_r. }
  destruct (events_settings evs w1)
    as [(Hsre & _ & Hcse & _ & Hre & Hcbe & _ & Hse & _) _].
  fold we in Hsre, Hcse, Hre, Hcbe, Hse.
  assert (Hw2 : progress_calls w2
                = base ++ progress_of (self w) (frames (self w2))).
  { subst w2.
    destruct (stop_recording_joined e we StreamActive) as [k ->];
      [congruence | congruence |].
    destruct (signal_stop_fields we)
      as (_ & _ & _ & _ & Hf2 & Hcb2 & Hsr2 & _ & Hcs2 & _ & _ & Hp2).
    set (ws := signal_stop we) in *.
    destruct (save_and_return_self e (run_events (worker_steps k) ws)) as [-> ->].
    rewrite <- (progress_of_ext (self w) (self ws)) by congruence.
    apply (events_progress (worker_steps k) ws cb); [congruence | lia |].
    rewrite Hp2, Hf2, Hwe.
    by rewrite (progress_of_ext (self w) (self ws)) by congruence. }
  destruct (session_joined senv (Some cb) e evs w w1 _ Hstart')
    as (wj & k & Hstop & _ & _ & Hpj & _).
  assert (Hself2 : self w2 = self wj).
  { subst w2. fold we in Hstop. rewrite Hstop.
    by destruct (save_and_return_self e wj). }
  split; [|split; [|split; [|split]]].
  - split; [|done]. subst we.
    pose proof (events_pending_any evs w1 Hs1) as H. unfold pending in H.
    by rewrite H, Hf1, Hq1.
  - split; [|done]. by rewrite Hself2.
  - intros data rest Hth Hq w'. subst w'.
    destruct (step_takes_one we data rest cb Hth Hq) as (H1 & H2 & H3);
      [congruence | lia |].
    split; [done|]. split; [done|]. rewrite H3, H2. do 4 f_equal; congruence.
  - intros i j x y Hij. rewrite Hw2, !lookup_app_r by lia.
    replace (length base + i - length base)%nat with i by lia.
    replace (length base + j - length base)%nat with j by lia.
    by apply progress_of_monotone.
  - intros Hquiet. rewrite Hw2.
    destruct (session_drained senv (Some cb) e evs w w1 _ Hstart' Hquiet)
      as (wj' & Hstop' & _ & _ & _ & Hfj & _).
    subst w2. fold we in Hstop'. rewrite Hstop'.
    destruct (save_and_return_self e wj') as [-> _]. by rewrite Hfj.
Qed.

Lemma progress_once_per_chunk_witness :
  progress_calls (fst (stop_recording None
     (run_events three_blocks (started demo_start (Some silent_callback) fresh))))
  = progress_calls fresh ++
    progress_of (self fresh) (audio_queue (self fresh) ++ delivered three_blocks).
Proof.
  assert (Hstart : start_recording demo_start (Some silent_callback) fresh
                   = (started demo_start (Some silent_callback) fresh,
                      Returns demo_path)) by reflexivity.
  assert (Hsr : 0 < sample_rate (self fresh)) by reflexivity.
  assert (Hcs : 0 <= chunk_size (self fresh)) by discriminate.
  pose proof (progress_once_per_chunk demo_start silent_callback None three_blocks
                fresh (started demo_start (Some silent_callback) fresh) demo_path
                Hstart Hsr Hcs) as H.
  cbv zeta in H. destruct H as (_ & _ & _ & _ & H). apply H.
  split; [discriminate | intros; left; reflexivity].
Defined.

(** ** C9: the output path of a session *)

(** C9, as stated, fails: two sessions started within the same second of
    the local clock get the same output path, and the file recorded by the
    first one is replaced by the second one's. *)
Lemma same_second_sessions_share_the_path :
  demo_clock <> demo_clock_later /\
  snd (start_recording demo_start None fresh) = Returns demo_path /\
  snd (start_recording demo_start_later None after_first_session)
    = Returns demo_path /\
  disk after_first_session !! demo_path
    = Some (WavFile (mkWav 1 2 16000 [255; 63])) /\
  disk after_second_session !! demo_path
    = Some (WavFile (mkWav 1 2 16000 [254; 191])).
Proof. repeat split; [discriminate | vm_compute; reflexivity ..]. Qed.

(** C9, amended. Two sessions started on the same recorder, at valid clock
    readings, get the same output path exactly when the two readings agree
    down to the second. When they differ, the later session's
    [stop_recording] leaves the file at the earlier path as it is; when they
    agree, both sessions write to one path. *)
Theorem output_paths_differ_with_the_second (senv1 senv2 : start_env)
    (cb1 cb2 : option progress_callback) (w w1 w' w2 : world) (p1 p2 : string) :
  start_recording senv1 cb1 w = (w1, Returns p1) ->
  start_recording senv2 cb2 w' = (w2, Returns p2) ->
  output_dir (self w') = output_dir (self w) ->
  valid_datetime (now senv1) ->
  valid_datetime (now senv2) ->
  (p1 = p2 <-> same_second (now senv1) (now senv2)) /\
  (~ same_second (now senv1) (now senv2) ->
   forall (evs : list event) (e : option string),
     disk (fst (stop_recording e (run_events evs w2))) !! p1 = disk w' !! p1).
Proof.
  intros H1 H2 Hdir Hv1 Hv2.
  apply start_recording_returns in H1 as (_ & -> & ->).
  apply start_recording_returns in H2 as (_ & -> & ->).
  rewrite Hdir.
  pose proof (recording_path_same_second (output_dir (self w)) _ _ Hv1 Hv2) as Hiff.
  split; [done|].
  intros Hdiff evs e.
  destruct (started_fields senv2 cb2 w')
    as (_ & _ & _ & _ & _ & _ & _ & _ & _ & Ho & Hd & _).
  destruct (events_settings evs (started senv2 cb2 w'))
    as [(_&_&_&_&_&_&_&_& Hoe) Hde].
  rewrite (stop_recording_elsewhere e _
             (recording_path (output_dir (self w)) (now senv2))).
  - congruence.
  - congruence.
  - intros Heq. apply Hdiff, Hiff. done.
Qed.

Lemma output_paths_differ_with_the_second_witness :
  demo_path = demo_path <-> same_second demo_clock demo_clock_later.
Proof.
  apply (output_paths_differ_with_the_second demo_start demo_start_later None None
           fresh (started demo_start None fresh)
           after_first_session (started demo_start_later None after_first_session)
           demo_path demo_path).
  - reflexivity.
  - vm_compute. reflexivity.
  - vm_compute. reflexivity.
  - unfold valid_datetime. simpl. lia.
  - unfold valid_datetime. simpl. lia.
Defined.

(** ** C10: a failed device open leaves the flag set *)

(** C10, as stated, fails: on a recorder that has been through a session
    before, a failed open leaves the flag set, and a retry of
    [start_recording] fails, but [stop_recording] then succeeds on the
    closed stream left by the earlier session and clears the flag, and
    the next [start_recording] on the same instance succeeds. *)
Lemma stop_releases_a_reused_recorder :
  snd (start_recording demo_start_failing None after_first_session)
    = Raises (PortAudioError "Error opening InputStream: Invalid device") /\
  recording (self (fst (start_recording demo_start_failing None after_first_session)))
    = true /\
  snd (start_recording demo_start_later None
         (fst (start_recording demo_start_failing None after_first_session)))
    = Raises (RuntimeError "Recording is already in progress") /\
  snd (stop_recording None
         (fst (start_recording demo_start_failing None after_first_session)))
    = Returns demo_path /\
  snd (start_recording demo_start_later None
         (fst (stop_recording None
            (fst (start_recording demo_start_failing None after_first_session)))))
    = Returns demo_path.
Proof. repeat split; vm_compute; reflexivity. Qed.

(** C10, amended. When [sd.InputStream] raises inside [start_recording] on
    an idle recorder, the exception reaches the caller, the flag stays
    true and [self.stream] is what it was before: unassigned or a closed
    stream. As long as [stop_recording] is not called, every
    [start_recording] and every [record] raises "Recording is already in
    progress" and changes nothing, however often they are retried. On a
    recorder that never had a stream, [stop_recording] fails as well
    (AttributeError) and changes nothing, so that no call at all gets the
    recorder out of this state. On a recorder that has had a stream,
    [stop_recording] clears the flag without writing anything (it returns
    the output path of the earlier session, or fails on the missing
    attribute), and [start_recording] then succeeds once the device
    opens. *)
Theorem failed_open_latches_the_flag (senv : start_env)
    (cb : option progress_callback) (msg : string) (w : world) :
  reachable w ->
  recording (self w) = false ->
  open_error senv = Some msg ->
  let w' := fst (start_recording senv cb w) in
  snd (start_recording senv cb w) = Raises (PortAudioError msg) /\
  recording (self w') = true /\
  stream (self w') = stream (self w) /\
  (stream (self w') = None \/ stream (self w') = Some StreamClosed) /\
  (forall cs : list api_call,
     Forall (fun c => is_stop c = false) cs ->
     run_calls cs w' =
       (w', map (fun _ => Raises (RuntimeError "Recording is already in progress"))
                cs)) /\
  (stream (self w) = None ->
   forall cs : list api_call, run_calls cs w' = (w', map stuck_outcome cs)) /\
  (stream (self w) <> None ->
   forall (evs : list event) (e : option string),
     let w2 := fst (stop_recording e (run_events evs w')) in
     recording (self w2) = false /\
     disk w2 = disk w /\
     snd (stop_recording e (run_events evs w')) =
       match output_file (self w) with
       | Some p => Returns p
       | None => Raises (AttributeError "output_file")
       end /\
     forall (senv2 : start_env) (cb2 : option progress_callback),
       open_error senv2 = None -> start_error senv2 = None ->
       snd (start_recording senv2 cb2 w2)
         = Returns (recording_path (output_dir (self w)) (now senv2))).
Proof.
  intros Hreach Hrec Hopen w'. subst w'.
  rewrite start_recording_idle by done. rewrite Hopen. cbn [fst snd].
  assert (Hf : recording (self (open_failed cb w)) = true /\
               stream (self (open_failed cb w)) = stream (self w) /\
               processing_thread (self (open_failed cb w))
                 = processing_thread (self w) /\
               frames (self (open_failed cb w)) = [] /\
               output_file (self (open_failed cb w)) = output_file (self w) /\
               output_dir (self (open_failed cb w)) = output_dir (self w) /\
               disk (open_failed cb w) = disk w)
    by (by destruct w as [[] ? ?]).
  destruct Hf as (Hr & Hs & Ht & Hfr & Ho & Hdir & Hd).
  split; [done|]. split; [done|]. split; [done|]. split.
  { rewrite Hs. by apply (reachable_stream_inv w). }
  split; [|split].
  - intros cs Hcs. rewrite (stuck_calls cs (open_failed cb w) Hr).
    + by rewrite stuck_outcome_no_stop.
    + eapply Forall_impl; [exact Hcs|]. intros c Hc. by left.
  - intros Hnone cs. apply (stuck_calls cs _ Hr).
    apply Forall_forall. intros c _. right. congruence.
  - intros Hsome evs e. cbv zeta.
    destruct (stream (self w)) as [s|] eqn:Hsw; [|done].
    assert (Hth : processing_thread (self (open_failed cb w)) = None \/
                  thread_finished (open_failed cb w) = true).
    { pose proof (reachable_thread_inv w Hreach) as Hinv.
      unfold thread_inv, thread_finished in *. rewrite Ht.
      destruct (processing_thread (self w)) as [[]|]; auto; congruence. }
    destruct (events_settings evs (open_failed cb w))
      as [(_&_&_&_& Hre &_& Hdire & Hse & Hoe) Hde].
    destruct (no_worker_events evs (open_failed cb w) Hth) as [Hfe Hte].
    destruct (stop_without_worker e (run_events evs (open_failed cb w)) s)
      as (H1 & H2 & H3); [congruence | congruence | | congruence |].
    { unfold thread_finished in *. rewrite Hte. exact Hth. }
    split; [done|]. split; [congruence|]. split; [by rewrite H3, Hoe, Ho|].
    intros senv2 cb2 Ho2 Hs2.
    rewrite start_recording_idle by done. rewrite Ho2, Hs2. cbn [snd].
    do 2 f_equal.
    destruct (stop_recording_self e (run_events evs (open_failed cb w)) s)
      as (k & -> & _); [congruence..|].
    destruct (events_settings (worker_steps k)
                (signal_stop (run_events evs (open_failed cb w))))
      as [(_&_&_&_&_&_& -> &_) _].
    assert (Hsig : output_dir (self (signal_stop (run_events evs (open_failed cb w))))
                   = output_dir (self (run_events evs (open_failed cb w))))
      by (by destruct (run_events evs (open_failed cb w)) as [[] ? ?]).
    congruence.
Qed.

Lemma failed_open_latches_the_flag_witness :
  snd (start_recording demo_start_failing None fresh)
  = Raises (PortAudioError "Error opening InputStream: Invalid device").
Proof.
  apply (failed_open_latches_the_flag demo_start_failing None
           "Error opening InputStream: Invalid device" fresh).
  - apply (reach_init demo_config None None None ∅).
  - reflexivity.
  - reflexivity.
Defined.

(** ** C3: the conversion to 16-bit PCM *)




(** * Further properties of the recorder *)

(** ** Arrival order, whatever the callback does *)

(** X1. In every session, whatever the progress callback does, the frame
    buffer followed by the queue is at every moment, and after
    [stop_recording], the chunks that were queued at the start followed by
    the delivered chunks in arrival order: the frame buffer is a prefix of
    the arrival sequence, and a chunk that is not in it is still queued. *)
Theorem arrival_order_is_kept (senv : start_env) (cb : option progress_callback)
    (e : option string) (evs : list event) (w w1 : world) (p : string) :
  start_recording senv cb w = (w1, Returns p) ->
  let we := run_events evs w1 in
  let w2 := fst (stop_recording e we) in
  frames (self we) ++ audio_queue (self we)
    = audio_queue (self w) ++ delivered evs /\
  frames (self w2) ++ audio_queue (self w2)
    = audio_queue (self w) ++ delivered evs /\
  frames (self w2) `prefix_of` audio_queue (self w) ++ delivered evs.
Proof.
  intros Hstart we w2.
  apply start_recording_returns in Hstart as (Hrec & -> & ->).
  destruct (started_fields senv cb w)
    as (Hr1 & Hs1 & _ & Hq1 & Hf1 & _).
  assert (Hwe : pending (self we) = audio_queue (self w) ++ delivered evs).
  { subst we. rewrite events_pending_any by done.
    unfold pending. by rewrite Hf1, Hq1. }
  assert (Hw2 : pending (self w2) = audio_queue (self w) ++ delivered evs).
  { destruct (events_settings evs (started senv cb w))
      as [(_&_&_&_& Hre &_&_& Hse &_) _].
    destruct (stop_recording_self e we StreamActive) as (k & Hself & _);
      [subst we; congruence..|].
    subst w2. rewrite Hself, worker_steps_pending.
    destruct (signal_stop_fields we) as (_ & _ & _ & Hq2 & Hf2 & _).
    unfold pending in *. by rewrite Hf2, Hq2. }
  split; [done|]. split; [done|].
  exists (audio_queue (self w2)). by rewrite <- Hw2.
Qed.

Lemma arrival_order_is_kept_witness :
  frames (self (run_events three_blocks
                  (started demo_start (Some late_faulty_callback) fresh)))
  ++ audio_queue (self (run_events three_blocks
                  (started demo_start (Some late_faulty_callback) fresh)))
  = audio_queue (self fresh) ++ delivered three_blocks.
Proof.
  apply (arrival_order_is_kept demo_start (Some late_faulty_callback) None
           three_blocks fresh
           (started demo_start (Some late_faulty_callback) fresh) demo_path).
  reflexivity.
Defined.

(** ** Stopping *)

(** X2. [stop_recording] on an active recorder with a stream always leaves
    it idle, also when saving fails and the exception propagates: the flag
    is false, the stream closed, the call has not blocked, and a second
    [stop_recording] raises "No recording in progress" and changes
    nothing. *)
Theorem stop_recording_leaves_idle (e e' : option string) (w : world)
    (s : stream_state) :
  recording (self w) = true ->
  stream (self w) = Some s ->
  let w' := fst (stop_recording e w) in
  recording (self w') = false /\
  stream (self w') = Some StreamClosed /\
  snd (stop_recording e w) <> Blocks /\
  stop_recording e' w' = (w', Raises (RuntimeError "No recording in progress")).
Proof.
  intros Hrec Hs w'.
  destruct (stop_recording_self e w s Hrec Hs) as (k & Hself & _ & Hout).
  destruct (events_settings (worker_steps k) (signal_stop w))
    as [(_&_&_&_& Hrj &_&_& Hsj &_) _].
  destruct (signal_stop_fields w) as (Hr2 & Hs2 & _).
  assert (Hr' : recording (self w') = false) by (subst w'; congruence).
  split; [done|]. split; [subst w'; congruence|]. split.
  - rewrite Hout.
    pose proof (save_and_return_outcome e
                  (run_events (worker_steps k) (signal_stop w))) as H.
    intros Heq. by rewrite Heq in H.
  - by apply stop_recording_idle.
Qed.

Lemma stop_recording_leaves_idle_witness :
  recording (self (fst (stop_recording (Some "disk full")
     (run_events three_blocks (started demo_start None fresh))))) = false.
Proof.
  apply (stop_recording_leaves_idle (Some "disk full") None
           (run_events three_blocks (started demo_start None fresh))
           StreamActive).
  - reflexivity.
  - reflexivity.
Defined.

(** X3. When the output file cannot be opened at the end of a non-empty
    session with a quiet callback, [stop_recording] raises the OSError,
    writes nothing, and still leaves the recorder idle with every
    delivered chunk in the frame buffer. *)
Theorem failed_save_keeps_the_frames (senv : start_env)
    (cb : option progress_callback) (msg : string) (evs : list event)
    (w w1 : world) (p : string) :
  start_recording senv cb w = (w1, Returns p) ->
  audio_queue (self w) = [] ->
  quiet_callback (self w1) ->
  delivered evs <> [] ->
  let w2 := fst (stop_recording (Some msg) (run_events evs w1)) in
  snd (stop_recording (Some msg) (run_events evs w1)) = Raises (OSError msg) /\
  disk w2 = disk w /\
  frames (self w2) = delivered evs /\
  recording (self w2) = false.
Proof.
  intros Hstart Hempty Hq Hne w2. subst w2.
  destruct (session_drained senv cb (Some msg) evs w w1 p Hstart Hq)
    as (wj & -> & _ & Hr & _ & Hf & Ho & _ & _ & Hd).
  rewrite Hempty in Hf. simpl in Hf.
  rewrite (save_and_return_open_error msg wj p) by congruence.
  simpl. by rewrite Hf.
Qed.

Lemma failed_save_keeps_the_frames_witness :
  snd (stop_recording (Some "disk full")
         (run_events three_blocks (started demo_start None fresh)))
  = Raises (OSError "disk full").
Proof.
  apply (failed_save_keeps_the_frames demo_start None "disk full" three_blocks
           fresh (started demo_start None fresh) demo_path).
  - reflexivity.
  - reflexivity.
  - exact I.
  - discriminate.
Defined.

(** ** Sessions one after the other *)

(** X4. After a session with a quiet callback the recorder is idle with an
    empty queue, and the frame buffer of the next session (again with a
    quiet callback) holds the chunks delivered during that session and
    nothing of the earlier one. *)
Theorem sessions_do_not_mix (senv1 senv2 : start_env)
    (cb1 cb2 : option progress_callback) (e1 e2 : option string)
    (evs1 evs2 : list event) (w w1 w3 : world) (p1 p2 : string) :
  start_recording senv1 cb1 w = (w1, Returns p1) ->
  quiet_callback (self w1) ->
  let wa := fst (stop_recording e1 (run_events evs1 w1)) in
  start_recording senv2 cb2 wa = (w3, Returns p2) ->
  quiet_callback (self w3) ->
  recording (self wa) = false /\
  audio_queue (self wa) = [] /\
  frames (self (fst (stop_recording e2 (run_events evs2 w3)))) = delivered evs2.
Proof.
  intros Hstart1 Hq1 wa Hstart2 Hq2.
  destruct (session_drained senv1 cb1 e1 evs1 w w1 p1 Hstart1 Hq1)
    as (wj & Hstop & _ & Hr & Hq & _).
  assert (Hself : self wa = self wj).
  { subst wa. rewrite Hstop. by destruct (save_and_return_self e1 wj). }
  assert (Hqa : audio_queue (self wa) = []) by congruence.
  split; [congruence|]. split; [done|].
  destruct (session_drained senv2 cb2 e2 evs2 wa w3 p2 Hstart2 Hq2)
    as (wj2 & -> & _ & _ & _ & Hf & _).
  destruct (save_and_return_self e2 wj2) as [-> _].
  by rewrite Hf, Hqa.
Qed.

Lemma sessions_do_not_mix_witness :
  frames (self (fst (stop_recording None
     (run_events (one_block block_b)
        (started demo_start_later None after_first_session)))))
  = delivered (one_block block_b).
Proof.
  apply (sessions_do_not_mix demo_start demo_start_later None None None None
           (one_block block_a) (one_block block_b) fresh
           (started demo_start None fresh)
           (started demo_start_later None after_first_session)
           demo_path demo_path).
  - reflexivity.
  - exact I.
  - vm_compute. reflexivity.
  - exact I.
Defined.

(** ** A stream that opens but does not start *)

(** X5. When [self.stream.start()] raises inside [start_recording] on an
    idle recorder with an empty queue, the exception propagates and the
    flag stays true with the worker already running. Unlike after a failed
    open, [stop_recording] then works: it leaves the recorder idle, saves
    nothing, and returns whatever [self.output_file] held before, the path
    of an earlier session, or fails with AttributeError when no
    [start_recording] ever completed. *)
Theorem failed_stream_start_is_recoverable (senv : start_env)
    (cb : option progress_callback) (msg : string) (w : world) :
  recording (self w) = false ->
  open_error senv = None ->
  start_error senv = Some msg ->
  audio_queue (self w) = [] ->
  let w' := fst (start_recording senv cb w) in
  snd (start_recording senv cb w) = Raises (PortAudioError msg) /\
  recording (self w') = true /\
  processing_thread (self w') = Some AtWhile /\
  forall (evs : list event) (e : option string),
    let w2 := fst (stop_recording e (run_events evs w')) in
    recording (self w2) = false /\
    frames (self w2) = [] /\
    disk w2 = disk w /\
    snd (stop_recording e (run_events evs w')) =
      match output_file (self w) with
      | Some p => Returns p
      | None => Raises (AttributeError "output_file")
      end.
Proof.
  intros Hrec Hopen Hstart Hq w'. subst w'.
  rewrite start_recording_idle by done. rewrite Hopen, Hstart. cbn [fst snd].
  set (w' := on_self (set_processing_thread (Some AtWhile))
               (on_self (set_stream (Some StreamOpened)) (open_failed cb w))).
  assert (Hw' : recording (self w') = true /\
                processing_thread (self w') = Some AtWhile /\
                stream (self w') = Some StreamOpened /\
                audio_queue (self w') = audio_queue (self w) /\
                frames (self w') = [] /\
                output_file (self w') = output_file (self w) /\
                disk w' = disk w)
    by (by destruct w as [[] ? ?]).
  destruct Hw' as (Hr' & Ht' & Hs' & Hq' & Hf' & Ho' & Hd').
  split; [done|]. split; [done|]. split; [done|].
  intros evs e. cbv zeta.
  destruct (events_settings evs w') as [(_&_&_&_& Hre &_&_& Hse & Hoe) Hde].
  destruct (inactive_stream_events evs w') as [Hqe Hfe];
    [congruence | congruence |].
  destruct (stop_without_chunks e (run_events evs w') StreamOpened)
    as (H1 & H2 & _ & H4 & H5); [congruence..|].
  rewrite H5, Hoe, Ho'. split; [done|]. split; [done|]. split; [congruence|done].
Qed.

Lemma failed_stream_start_is_recoverable_witness :
  snd (start_recording demo_start_unstartable None after_first_session)
  = Raises (PortAudioError "Error starting stream").
Proof.
  apply (failed_stream_start_is_recoverable demo_start_unstartable None
           "Error starting stream" after_first_session).
  - vm_compute. reflexivity.
  - reflexivity.
  - reflexivity.
  - vm_compute. reflexivity.
Defined.

(** ** [record] in its corners *)

(** X6. [record] with a negative duration: [time.sleep] raises ValueError
    at once, the [return] in the [finally] clause discards it, and
    [record] ends with [stop_recording] on whatever the driver and the
    worker did in the meantime. It never raises the ValueError and it
    leaves the recorder idle; when the queue was empty at the start and no
    block arrived in that moment, it returns the output path, writes
    nothing and leaves the frame buffer empty. *)
Theorem record_swallows_negative_duration (senv : start_env) (slenv : sleep_env)
    (e : option string) (d : Q) (cb : option progress_callback)
    (w w1 : world) (p : string) :
  start_recording senv cb w = (w1, Returns p) ->
  Qle_bool 0 d = false ->
  let result := record senv slenv e (Some d) cb w in
  snd (time_sleep slenv d w1)
    = Raises (ValueError "sleep length must be non-negative") /\
  result = stop_recording e (run_events (during slenv) w1) /\
  (forall msg, snd result <> Raises (ValueError msg)) /\
  recording (self (fst result)) = false /\
  (audio_queue (self w) = [] -> delivered (during slenv) = [] ->
   snd result = Returns p /\
   disk (fst result) = disk w /\
   frames (self (fst result)) = []).
Proof.
  intros Hstart Hd result. subst result.
  split; [unfold time_sleep; by rewrite Hd|].
  rewrite record_unfold, Hstart. split; [done|].
  destruct (session_joined senv cb e (during slenv) w w1 p Hstart)
    as (wj & k & -> & _ & Hr & Hp & Ho & _ & _ & Hdisk).
  destruct (save_and_return_self e wj) as [Hself _]. rewrite Hself.
  split; [|split; [done|]].
  - intros msg Heq. pose proof (save_and_return_with_path e wj p Ho) as H.
    by rewrite Heq in H.
  - intros Hq Hn. rewrite Hq, Hn in Hp. unfold pending in Hp.
    apply app_eq_nil in Hp as [Hf _].
    destruct (save_and_return_cases e wj) as [(_ & -> & ->)|(p' & Hne & _)]; [|done].
    by rewrite Ho.
Qed.

Lemma record_swallows_negative_duration_witness :
  let result := record demo_start (mkSleepEnv [WorkerStep] None) None
                  (Some (-5 # 1)%Q) None fresh in
  snd (time_sleep (mkSleepEnv [WorkerStep] None) (-5 # 1)
         (started demo_start None fresh))
    = Raises (ValueError "sleep length must be non-negative") /\
  result = stop_recording None
             (run_events (during (mkSleepEnv [WorkerStep] None))
                (started demo_start None fresh)).
Proof.
  assert (Hstart : start_recording demo_start None fresh
                   = (started demo_start None fresh, Returns demo_path))
    by reflexivity.
  assert (Hd : Qle_bool 0 (-5 # 1) = false) by reflexivity.
  pose proof (record_swallows_negative_duration demo_start
                (mkSleepEnv [WorkerStep] None) None (-5 # 1)%Q None fresh
                (started demo_start None fresh) demo_path Hstart Hd) as H.
  cbv zeta in *. destruct H as (H1 & H2 & _). split; [exact H1 | exact H2].
Defined.

(** X7. [record] on a recorder that is already recording raises "Recording
    is already in progress" out of its [start_recording], before the [try]
    block: [stop_recording] is not called and the running session, with
    its stream, worker, queue and frames, is left exactly as it was. *)
Theorem record_leaves_a_running_session (senv : start_env) (slenv : sleep_env)
    (e : option string) (duration : option Q) (cb : option progress_callback)
    (w : world) :
  recording (self w) = true ->
  record senv slenv e duration cb w
    = (w, Raises (RuntimeError "Recording is already in progress")).
Proof. apply record_active. Qed.

Lemma record_leaves_a_running_session_witness :
  record demo_start_later (mkSleepEnv [] None) None None None
    (run_events three_blocks (started demo_start None fresh))
  = (run_events three_blocks (started demo_start None fresh),
     Raises (RuntimeError "Recording is already in progress")).
Proof.
  apply (record_leaves_a_running_session demo_start_later (mkSleepEnv [] None)
           None None None
           (run_events three_blocks (started demo_start None fresh))).
  reflexivity.
Defined.

(** ** No worker outlives its session *)

(** X8. In every state the recorder can be in between two calls, when the
    flag is false there is no running worker thread (none was created, or
    it has ended) and no open stream (none was created, or it is
    closed). *)
Theorem idle_recorder_has_nothing_running (w : world) :
  reachable w ->
  recording (self w) = false ->
  (processing_thread (self w) = None \/ thread_finished w = true) /\
  (stream (self w) = None \/ stream (self w) = Some StreamClosed).
Proof.
  intros Hreach Hrec. split.
  - pose proof (reachable_thread_inv w Hreach) as H.
    unfold thread_inv, thread_finished in *.
    destruct (processing_thread (self w)) as [[]|]; auto; congruence.
  - by apply (reachable_stream_inv w).
Qed.

Lemma idle_recorder_has_nothing_running_witness :
  (processing_thread (self after_first_session) = None \/
   thread_finished after_first_session = true) /\
  (stream (self after_first_session) = None \/
   stream (self after_first_session) = Some StreamClosed).
Proof.
  apply (idle_recorder_has_nothing_running after_first_session).
  - apply reach_stop. apply reachable_events.
    change (reachable (fst (start_recording demo_start None fresh))).
    apply reach_start. apply (reach_init demo_config None None None ∅).
  - vm_compute. reflexivity.
Defined.

(** * Further properties of the WAV encoder *)

Lemma int16_bytes_range z :
  Forall (fun b => 0 <= b < 256) (int16_bytes z).
Proof. unfold int16_bytes. repeat constructor; divmod. Qed.



Lemma astype_int16_range x : -32768 <= astype_int16 x <= 32767.
Proof.
  unfold astype_int16. destruct (trunc x); [|lia].
  destruct (_ && _); [apply wrap16_range | lia].
Qed.




(** X10. The two bytes written for a sample can be read back: each lies
    between 0 and 255, and the low byte plus 256 times the high byte, read
    as a two's complement 16-bit number, is the value [to_pcm16] computed,
    which is always in the int16 range. *)
Theorem pcm16_bytes_read_back (s : float32) :
  -32768 <= to_pcm16 s <= 32767 /\
  exists b0 b1,
    int16_bytes (to_pcm16 s) = [b0; b1] /\
    0 <= b0 < 256 /\ 0 <= b1 < 256 /\
    wrap16 (b0 + 256 * b1) = to_pcm16 s.
Proof.
  pose proof (astype_int16_range (mul s (of_int 32767))) as Hr.
  fold (to_pcm16 s) in Hr. split; [done|].
  eexists _, _. split; [reflexivity|].
  unfold wrap16. repeat split; divmod.
Qed.

(** ** Truncation is symmetric *)

Lemma binary_round_aux_opp sx mx ex lx :
  binary_round_aux prec emax (negb sx) mx ex lx
  = SFopp (binary_round_aux prec emax sx mx ex lx).
Proof.
  unfold binary_round_aux.
  destruct (shr_fexp prec emax mx ex lx) as [mrs' e'].
  destruct (shr_fexp prec emax _ e' loc_Exact) as [mrs'' e''].
  destruct (shr_m mrs''); [done| |done].
  by destruct (e'' <=? emax - prec).
Qed.

Lemma mul_opp s k :
  mul (SFopp s) k = SFopp (mul s k).
Proof.
  unfold mul, SFmul.
  destruct s as [sx|sx| |sx mx ex], k as [sy|sy| |sy my ey]; simpl;
    try done; try (by destruct sx, sy).
  rewrite <- binary_round_aux_opp. by destruct sx, sy.
Qed.

Lemma trunc_opp x :
  trunc (SFopp x) = Z.opp <$> trunc x.
Proof.
  destruct x as [sx|sx| |sx mx ex]; simpl; try done.
  destruct sx; simpl; f_equal; lia.
Qed.

(** X11. The conversion is symmetric about zero: the negated sample is
    written as the negated value, unless that value is -32768 (which has no
    negation in 16 bits). *)
Theorem to_pcm16_opp (s : float32) :
  to_pcm16 s <> -32768 ->
  to_pcm16 (SFopp s) = - to_pcm16 s.
Proof.
  unfold to_pcm16, astype_int16. rewrite mul_opp, trunc_opp.
  destruct (trunc (mul s (of_int 32767))) as [z|]; simpl; [|done].
  destruct (Z.leb_spec (- 2 ^ 31) z), (Z.ltb_spec z (2 ^ 31)),
    (Z.leb_spec (- 2 ^ 31) (- z)), (Z.ltb_spec (- z) (2 ^ 31));
    simpl; unfold wrap16; intros Hne; try divmod.
Qed.

Lemma to_pcm16_opp_witness :
  to_pcm16 (SFopp f_three_halves) = - to_pcm16 f_three_halves.
Proof.
  apply (to_pcm16_opp f_three_halves). vm_compute. discriminate.
Defined.

(** ** Samples within full scale *)

Lemma shifts_shr_1 : shifts shr_1 1.
Proof.
  intros [m r s] Hm. simpl in *.
  destruct m as [|[p|p|]|]; simpl; try lia.
  - split; [done|]. intros -> -> _. done.
  - split; [rewrite Pos2Z.inj_xI; divmod|].
    intros _ _ H. rewrite Pos2Z.inj_xI in H. divmod.
  - split; [rewrite Pos2Z.inj_xO; divmod|].
    intros -> -> _. done.
  - split; [done|]. intros _ _ H. done.
Qed.

Lemma shifts_compose g h a b :
  0 < a -> 0 < b -> shifts g a -> shifts h b -> shifts (fun x => h (g x)) (a + b).
Proof.
  intros Ha Hb Hg Hh x Hx.
  destruct (Hg x Hx) as [Hgm Hge].
  assert (Hgx : 0 <= shr_m (g x)).
  { rewrite Hgm. apply Z.div_pos; [done|]. apply Z.pow_pos_nonneg; lia. }
  destruct (Hh (g x) Hgx) as [Hhm Hhe].
  assert (H2a : 0 < 2 ^ a) by (apply Z.pow_pos_nonneg; lia).
  assert (H2b : 0 < 2 ^ b) by (apply Z.pow_pos_nonneg; lia).
  split.
  - rewrite Hhm, Hgm, Z.pow_add_r by lia. rewrite Z.div_div by lia. done.
  - intros Hr Hs Hmod. rewrite Z.pow_add_r in Hmod by lia.
    apply Z.mod_divide in Hmod; [|lia]. destruct Hmod as [c Hc].
    assert (Hma : shr_m x mod 2 ^ a = 0).
    { rewrite Hc. replace (c * (2 ^ a * 2 ^ b)) with (c * 2 ^ b * 2 ^ a) by lia.
      apply Z.mod_mul. lia. }
    destruct (Hge Hr Hs Hma) as [Hr' Hs'].
    apply Hhe; [done | done |].
    rewrite Hgm, Hc.
    replace (c * (2 ^ a * 2 ^ b)) with (c * 2 ^ b * 2 ^ a) by lia.
    rewrite Z.div_mul by lia. apply Z.mod_mul. lia.
Qed.

Lemma shifts_iter_pos n : shifts (SpecFloat.iter_pos shr_1 n) (Z.pos n).
Proof.
  induction n as [n IH|n IH|].
  - rewrite Pos2Z.inj_xI.
    replace (2 * Z.pos n + 1) with (1 + (Z.pos n + Z.pos n)) by lia.
    change (SpecFloat.iter_pos shr_1 n~1) with
      (fun x => (fun y => SpecFloat.iter_pos shr_1 n (SpecFloat.iter_pos shr_1 n y)) (shr_1 x)).
    apply shifts_compose; [lia | lia | apply shifts_shr_1 |].
    apply (shifts_compose _ _ (Z.pos n) (Z.pos n)); [lia | lia | exact IH | exact IH].
  - rewrite Pos2Z.inj_xO.
    replace (2 * Z.pos n) with (Z.pos n + Z.pos n) by lia.
    change (SpecFloat.iter_pos shr_1 n~0) with
      (fun x => SpecFloat.iter_pos shr_1 n (SpecFloat.iter_pos shr_1 n x)).
    apply (shifts_compose _ _ (Z.pos n) (Z.pos n)); [lia | lia | exact IH | exact IH].
  - apply shifts_shr_1.
Qed.

Lemma fexp_float32 x : fexp prec emax x = Z.max (x - 24) (-149).
Proof. reflexivity. Qed.

Lemma digits2_pos_le p : forall j, Z.pos p < 2 ^ j -> 0 <= j -> Z.pos (digits2_pos p) <= j.
Proof.
  induction p as [p IH|p IH|]; intros j Hp Hj; simpl.
  - assert (j <> 0) by (intros ->; simpl in Hp; lia).
    rewrite Pos2Z.inj_succ. specialize (IH (j - 1)).
    replace j with (Z.succ (j - 1)) in Hp by lia.
    rewrite Z.pow_succ_r in Hp by lia. lia.
  - assert (j <> 0) by (intros ->; simpl in Hp; lia).
    rewrite Pos2Z.inj_succ. specialize (IH (j - 1)).
    replace j with (Z.succ (j - 1)) in Hp by lia.
    rewrite Z.pow_succ_r in Hp by lia. lia.
  - assert (j <> 0) by (intros ->; simpl in Hp; lia). lia.
Qed.

Lemma below_digits m e :
  below_full_scale m e -> Zdigits2 m + e <= 15.
Proof.
  intros (He & Hm0 & Hm). destruct m as [|p|p]; simpl; [lia| |lia].
  assert (Hp : Z.pos p < 2 ^ (15 - e)).
  { replace (15 - e) with (15 + - e) by lia. rewrite Z.pow_add_r by lia.
    assert (0 < 2 ^ (- e)) by (apply Z.pow_pos_nonneg; lia).
    change (2 ^ 15) with 32768. nia. }
  pose proof (digits2_pos_le p (15 - e) Hp ltac:(lia)). lia.
Qed.

Lemma shr_below m e n mrs :
  below_full_scale m e -> shr_m mrs = m -> (0 < n -> e + n <= 0) ->
  below_full_scale (shr_m (fst (shr mrs e n))) (snd (shr mrs e n)) /\
  shr_m (fst (shr mrs e n)) = m / 2 ^ Z.max n 0 /\
  snd (shr mrs e n) = e + Z.max n 0 /\
  (shr_r mrs = false -> shr_s mrs = false -> m mod 2 ^ Z.max n 0 = 0 ->
   loc_of_shr_record (fst (shr mrs e n)) = loc_Exact).
Proof.
  intros (He & Hm0 & Hm) Hmrs Hn. unfold shr.
  destruct n as [|p|p]; simpl fst; simpl snd.
  - rewrite Hmrs. change (Z.max 0 0) with 0. rewrite Z.div_1_r, Z.add_0_r.
    split; [done|]. split; [done|]. split; [done|].
    intros Hr Hs _. destruct mrs as [? r s]; simpl in *. by subst.
  - replace (Z.max (Z.pos p) 0) with (Z.pos p) by lia.
    destruct (shifts_iter_pos p mrs ltac:(lia)) as [Hsm Hex].
    rewrite Hmrs in Hsm, Hex. specialize (Hn ltac:(lia)).
    assert (H2p : 0 < 2 ^ Z.pos p) by (apply Z.pow_pos_nonneg; lia).
    split; [|split; [done|split; [done|]]].
    + split; [lia|]. rewrite Hsm. split; [apply Z.div_pos; lia|].
      apply Z.div_le_upper_bound; [lia|].
      replace (- e) with (- (e + Z.pos p) + Z.pos p) in Hm by lia.
      rewrite Z.pow_add_r in Hm by lia. lia.
    + intros Hr Hs Hmod. destruct (Hex Hr Hs Hmod) as [Hr' Hs'].
      destruct (SpecFloat.iter_pos shr_1 p mrs) as [? r s]; simpl in *. by subst.
  - rewrite Hmrs. replace (Z.max (Z.neg p) 0) with 0 by lia.
    rewrite Z.div_1_r, Z.add_0_r.
    split; [done|]. split; [done|]. split; [done|].
    intros Hr Hs _. destruct mrs as [? r s]; simpl in *. by subst.
Qed.

Lemma shr_fexp_below m e :
  below_full_scale m e ->
  let n := fexp prec emax (Zdigits2 m + e) - e in
  below_full_scale (shr_m (fst (shr_fexp prec emax m e loc_Exact)))
                   (snd (shr_fexp prec emax m e loc_Exact)) /\
  shr_m (fst (shr_fexp prec emax m e loc_Exact)) = m / 2 ^ Z.max n 0 /\
  snd (shr_fexp prec emax m e loc_Exact) = e + Z.max n 0 /\
  (m mod 2 ^ Z.max n 0 = 0 ->
   loc_of_shr_record (fst (shr_fexp prec emax m e loc_Exact)) = loc_Exact).
Proof.
  intros Hb n. unfold shr_fexp. fold n.
  pose proof (below_digits m e Hb) as Hd.
  destruct (shr_below m e n (shr_record_of_loc m loc_Exact) Hb eq_refl)
    as (H1 & H2 & H3 & H4).
  { intros _. subst n. rewrite fexp_float32. destruct Hb. lia. }
  split; [done|]. split; [done|]. split; [done|].
  intros Hmod. by apply H4.
Qed.

Lemma round_below m e :
  below_full_scale m e ->
  let mrs := fst (shr_fexp prec emax m e loc_Exact) in
  let e' := snd (shr_fexp prec emax m e loc_Exact) in
  below_full_scale (round_nearest_even (shr_m mrs) (loc_of_shr_record mrs)) e'.
Proof.
  intros Hb mrs e'.
  destruct (shr_fexp_below m e Hb) as (Hb' & Hm' & He' & Hex).
  fold mrs in Hb', Hm', Hex. fold e' in Hb', He'.
  set (n := Z.max (fexp prec emax (Zdigits2 m + e) - e) 0) in *.
  destruct Hb as (He & Hm0 & Hm). destruct Hb' as (He'0 & Hm'0 & Hm'le).
  assert (Hn : 0 <= n) by (subst n; lia).
  assert (H2n : 0 < 2 ^ n) by (apply Z.pow_pos_nonneg; lia).
  assert (Hround : round_nearest_even (shr_m mrs) (loc_of_shr_record mrs)
                   = shr_m mrs \/
                   (round_nearest_even (shr_m mrs) (loc_of_shr_record mrs)
                    = shr_m mrs + 1 /\ loc_of_shr_record mrs <> loc_Exact)).
  { unfold round_nearest_even.
    destruct (loc_of_shr_record mrs) as [|[]]; auto.
    destruct (Z.even (shr_m mrs)); auto. }
  split; [done|].
  destruct Hround as [-> | [-> Hne]]; [lia|].
  split; [lia|].
  assert (Hlt : shr_m mrs <> 32767 * 2 ^ (- e')); [|lia].
  intros Heq. apply Hne, Hex.
  assert (HK : 32767 * 2 ^ (- e) = 32767 * 2 ^ (- e') * 2 ^ n).
  { replace (- e) with (- e' + n) by lia. rewrite Z.pow_add_r by lia. lia. }
  rewrite Hm' in Heq.
  assert (Hmeq : m = 32767 * 2 ^ (- e') * 2 ^ n).
  { pose proof (Z.mul_div_le m (2 ^ n) H2n). nia. }
  apply Z.mod_divide; [lia|]. exists (32767 * 2 ^ (- e')). exact Hmeq.
Qed.

Lemma binary_round_aux_below sx m e :
  below_full_scale m e ->
  exists z, trunc (binary_round_aux prec emax sx m e loc_Exact) = Some z /\
            -32767 <= z <= 32767.
Proof.
  intros Hb. unfold binary_round_aux.
  pose proof (round_below m e Hb) as Hb1. cbv zeta in Hb1.
  destruct (shr_fexp prec emax m e loc_Exact) as [mrs' e'] eqn:H1.
  simpl in Hb1.
  set (m1 := round_nearest_even (shr_m mrs') (loc_of_shr_record mrs')) in *.
  destruct (shr_fexp_below m1 e' Hb1) as (Hb2 & _).
  destruct (shr_fexp prec emax m1 e' loc_Exact) as [mrs'' e''] eqn:H2.
  simpl in Hb2. destruct Hb2 as (He & Hm0 & Hm).
  destruct (shr_m mrs'') as [|p|p] eqn:Hp; [| |lia].
  - exists 0. simpl. split; [done|lia].
  - destruct (Z.leb_spec e'' (emax - prec)) as [_|Hbig];
      [|unfold emax, prec in Hbig; lia].
    assert (Hsh : 0 <= Z.shiftl (Z.pos p) e'' <= 32767).
    { rewrite Z.shiftl_div_pow2 by lia.
      assert (0 < 2 ^ (- e'')) by (apply Z.pow_pos_nonneg; lia).
      split; [apply Z.div_pos; lia|].
      apply Z.div_le_upper_bound; lia. }
    simpl. destruct sx; eexists; (split; [reflexivity|lia]).
Qed.

(** X12. A finite sample of magnitude at most one is never wrapped: the
    float32 product with 32767 has an integer part between -32767 and
    32767, and that integer part is the value written. *)
Theorem full_scale_samples_do_not_wrap (s : float32) :
  within_full_scale s ->
  exists z,
    trunc (mul s (of_int 32767)) = Some z /\
    -32767 <= z <= 32767 /\
    to_pcm16 s = z.
Proof.
  intros Hs.
  assert (H : exists z, trunc (mul s (of_int 32767)) = Some z /\
                        -32767 <= z <= 32767).
  { destruct s as [sx|sx| |sx mx ex]; simpl in Hs; try done.
    - exists 0. split; [reflexivity|lia].
    - change (mul (S754_finite sx mx ex) (of_int 32767))
        with (binary_round_aux prec emax (xorb sx false)
                (Z.pos (mx * 16776704)) (ex + -9) loc_Exact).
      apply binary_round_aux_below. destruct Hs as [He Hm].
      split; [lia|]. split; [lia|].
      replace (- (ex + -9)) with (9 + - ex) by lia.
      rewrite Z.pow_add_r by lia. change (2 ^ 9) with 512.
      rewrite Pos2Z.inj_mul. lia. }
  destruct H as (z & Ht & Hz). exists z. split; [done|]. split; [done|].
  rewrite (to_pcm16_low16 s z Ht) by lia. apply wrap16_small. lia.
Qed.

Lemma full_scale_samples_do_not_wrap_witness :
  exists z,
    trunc (mul f_minus_quarter (of_int 32767)) = Some z /\
    -32767 <= z <= 32767 /\
    to_pcm16 f_minus_quarter = z.
Proof.
  apply (full_scale_samples_do_not_wrap f_minus_quarter).
  split; [discriminate | vm_compute; discriminate].
Defined.

(** * The recording endpoints of main.py *)

(** What [stop_recording] answers on an active recorder with a stream. *)
Lemma stop_recording_answer e w s :
  recording (self w) = true -> stream (self w) = Some s ->
  recording (self (fst (stop_recording e w))) = false /\
  match snd (stop_recording e w) with
  | Returns p => output_file (self w) = Some p
  | Raises x => is_Exception x = true
  | Blocks => False
  end.
Proof.
  intros Hrec Hs.
  destruct (stop_recording_self e w s Hrec Hs) as (k & Hself & _ & Hout).
  destruct (events_settings (worker_steps k) (signal_stop w))
    as [(_&_&_&_& Hrj &_&_&_& Hoj) _].
  destruct (signal_stop_fields w)
    as (Hr2 & _ & _ & _ & _ & _ & _ & _ & _ & Ho2 & _).
  split; [congruence|]. rewrite Hout.
  pose proof (save_and_return_outcome e
                (run_events (worker_steps k) (signal_stop w))) as H.
  destruct (snd (save_and_return e _)) as [p|[]|]; try done. congruence.
Qed.

Lemma between_requests_settings evs sv :
  recording (self (recorder (between_requests evs sv)))
    = recording (self (recorder sv)) /\
  stream (self (recorder (between_requests evs sv)))
    = stream (self (recorder sv)) /\
  output_file (self (recorder (between_requests evs sv)))
    = output_file (self (recorder sv)) /\
  active_recordings (between_requests evs sv) = active_recordings sv.
Proof.
  unfold between_requests. simpl.
  by destruct (events_settings evs (recorder sv)) as [(_&_&_&_& -> &_&_& -> & ->) _].
Qed.

Lemma start_endpoint_ok t_id t_start senv md sv :
  recording (self (recorder sv)) = false ->
  open_error senv = None -> start_error senv = None ->
  start_endpoint t_id t_start senv md sv =
    (mkService (started senv None (recorder sv))
       (<[pretty (int_of_float t_id) :=
            mkEntry t_start
              (recording_path (output_dir (self (recorder sv))) (now senv))
              md None None]> (active_recordings sv)),
     RecordingStarted (pretty (int_of_float t_id))
       (recording_path (output_dir (self (recorder sv))) (now senv))).
Proof.
  intros Hrec Hopen Hstart. unfold start_endpoint. rewrite Hrec.
  rewrite start_recording_idle by done. by rewrite Hopen, Hstart.
Qed.

Lemma start_endpoint_busy t_id t_start senv md sv :
  recording (self (recorder sv)) = true ->
  start_endpoint t_id t_start senv md sv
    = (sv, HTTPException 400 "Recording already in progress").
Proof. intros Hrec. unfold start_endpoint. by rewrite Hrec. Qed.

(** A recording service answers nothing but 400 to start requests. *)
Lemma busy_service_refuses rqs : forall sv,
  Forall (fun rq => is_post_start (snd rq) = true) rqs ->
  recording (self (recorder sv)) = true ->
  snd (serve_all rqs sv)
    = map (fun _ => HTTPException 400 "Recording already in progress") rqs /\
  active_recordings (fst (serve_all rqs sv)) = active_recordings sv /\
  recording (self (recorder (fst (serve_all rqs sv)))) = true /\
  exists evs, recorder (fst (serve_all rqs sv)) = run_events evs (recorder sv).
Proof.
  induction rqs as [|[evs rq] rqs IH]; intros sv Hall Hrec.
  - repeat split; try done. by exists [].
  - apply Forall_cons in Hall as [Hrq Hall]. simpl in Hrq.
    destruct rq as [t1 t2 senv' md' | ]; [|done].
    destruct (between_requests_settings evs sv) as (Hr' & _ & _ & Ha').
    simpl. rewrite start_endpoint_busy by congruence.
    destruct (IH (between_requests evs sv) Hall ltac:(congruence))
      as (H1 & H2 & H3 & evs' & H4).
    destruct (serve_all rqs (between_requests evs sv)) as [sv'' rs].
    simpl in *. split; [by rewrite H1|]. split; [congruence|]. split; [done|].
    exists (evs ++ evs'). rewrite H4. unfold run_events. by rewrite fold_left_app.
Qed.

(** X13. A start request on an idle recorder whose device opens and starts
    answers with the session id [str(int(time.time()))] and the recorder's
    output path, and registers under that id an entry with that path, the
    second clock reading as start time and no end time; every other entry
    is as before. From then on, as long as no stop request is served,
    every start request is answered 400 "Recording already in progress",
    whatever the recorder's threads do in between, and the registry and
    the session stay as they are. *)
Theorem start_request_registers_the_session (t_id t_start : Q)
    (senv : start_env) (md : SermonMetadata) (sv : service) :
  recording (self (recorder sv)) = false ->
  open_error senv = None ->
  start_error senv = None ->
  let session_id := pretty (int_of_float t_id) in
  let path := recording_path (output_dir (self (recorder sv))) (now senv) in
  let sv1 := fst (start_endpoint t_id t_start senv md sv) in
  snd (start_endpoint t_id t_start senv md sv) = RecordingStarted session_id path /\
  active_recordings sv1 !! session_id = Some (mkEntry t_start path md None None) /\
  (forall other, other <> session_id ->
     active_recordings sv1 !! other = active_recordings sv !! other) /\
  recorder sv1 = started senv None (recorder sv) /\
  forall rqs : list (list event * request),
    Forall (fun rq => is_post_start (snd rq) = true) rqs ->
    snd (serve_all rqs sv1)
      = map (fun _ => HTTPException 400 "Recording already in progress") rqs /\
    active_recordings (fst (serve_all rqs sv1)) = active_recordings sv1 /\
    recording (self (recorder (fst (serve_all rqs sv1)))) = true /\
    exists evs, recorder (fst (serve_all rqs sv1)) = run_events evs (recorder sv1).
Proof.
  intros Hrec Hopen Hstart session_id path sv1. subst sv1.
  rewrite start_endpoint_ok by done. cbn [fst snd].
  split; [done|]. split; [apply lookup_insert_eq|]. split.
  { intros other Hne. simpl. by rewrite lookup_insert_ne. }
  split; [done|].
  intros rqs Hall. apply busy_service_refuses; [done|].
  exact (proj1 (started_fields senv None (recorder sv))).
Qed.

Lemma start_request_registers_the_session_witness :
  snd (start_endpoint (1709967902 # 1) (1709967902 # 1) demo_start no_metadata
         fresh_service)
  = RecordingStarted (pretty (int_of_float (1709967902 # 1)))
      (recording_path (output_dir (self (recorder fresh_service))) (now demo_start)).
Proof.
  apply (start_request_registers_the_session (1709967902 # 1) (1709967902 # 1)
           demo_start no_metadata fresh_service).
  - reflexivity.
  - reflexivity.
  - reflexivity.
Defined.



(** The recorder after a stop request under a registered id. *)
Lemma stop_endpoint_registered t e session_id sv entry :
  active_recordings sv !! session_id = Some entry ->
  recorder (fst (stop_endpoint t e session_id sv))
    = fst (stop_recording e (recorder sv)) /\
  is_Some (active_recordings (fst (stop_endpoint t e session_id sv)) !! session_id).
Proof.
  intros Hid. unfold stop_endpoint. rewrite Hid.
  destruct (stop_recording e (recorder sv)) as [w [p|x|]]; simpl.
  - split; [done|]. rewrite lookup_insert_eq. eauto.
  - split; [done|]. rewrite Hid. eauto.
  - split; [done|]. rewrite Hid. eauto.
Qed.

(** An idle service answers 500 or 404 to stop requests. *)
Lemma idle_service_cannot_stop rqs : forall sv,
  Forall (fun rq => is_post_start (snd rq) = false) rqs ->
  recording (self (recorder sv)) = false ->
  snd (serve_all rqs sv)
    = map (fun rq => idle_stop_response (active_recordings sv) (snd rq)) rqs /\
  active_recordings (fst (serve_all rqs sv)) = active_recordings sv /\
  recording (self (recorder (fst (serve_all rqs sv)))) = false.
Proof.
  induction rqs as [|[evs rq] rqs IH]; intros sv Hall Hrec; [done|].
  apply Forall_cons in Hall as [Hrq Hall]. simpl in Hrq.
  destruct rq as [| t' e' sid]; [done|].
  destruct (between_requests_settings evs sv) as (Hr' & _ & _ & Ha').
  assert (Hserve : stop_endpoint t' e' sid (between_requests evs sv)
                   = (between_requests evs sv,
                      idle_stop_response (active_recordings sv) (PostStop t' e' sid))).
  { unfold stop_endpoint. rewrite Ha'. cbn [idle_stop_response].
    destruct (active_recordings sv !! sid); [|done].
    by rewrite stop_recording_idle by congruence. }
  simpl. rewrite Hserve.
  destruct (IH (between_requests evs sv) Hall ltac:(congruence)) as (H1 & H2 & H3).
  destruct (serve_all rqs (between_requests evs sv)) as [sv'' rs].
  cbn [fst snd] in *. rewrite H1, Ha'. split; [done|]. split; [congruence | done].
Qed.

(** X15. Entries of the registry are never removed: once a stop request
    under a registered id has stopped the recorder, then, as long as no
    start request is served, every stop request under a registered id
    (that one or another) is answered 500 "No recording in progress", not
    404, and every stop request under an unknown id 404; the registry and
    the idle recorder stay as they are. *)
Theorem second_stop_is_an_internal_error (t : Q) (e : option string)
    (session_id : string) (sv : service) (entry : recording_entry)
    (s : stream_state) :
  active_recordings sv !! session_id = Some entry ->
  recording (self (recorder sv)) = true ->
  stream (self (recorder sv)) = Some s ->
  let sv1 := fst (stop_endpoint t e session_id sv) in
  is_Some (active_recordings sv1 !! session_id) /\
  forall rqs : list (list event * request),
    Forall (fun rq => is_post_start (snd rq) = false) rqs ->
    snd (serve_all rqs sv1)
      = map (fun rq => idle_stop_response (active_recordings sv1) (snd rq)) rqs /\
    active_recordings (fst (serve_all rqs sv1)) = active_recordings sv1 /\
    recording (self (recorder (fst (serve_all rqs sv1)))) = false.
Proof.
  intros Hid Hrec Hs sv1.
  destruct (stop_endpoint_registered t e session_id sv entry Hid)
    as [Hrecorder Hentry1]. fold sv1 in Hrecorder, Hentry1.
  destruct (stop_recording_answer e (recorder sv) s Hrec Hs) as [Hidle _].
  split; [done|]. intros rqs Hall.
  apply idle_service_cannot_stop; [done|]. by rewrite Hrecorder.
Qed.

Lemma second_stop_is_an_internal_error_witness :
  snd (serve_all [(@nil event, PostStop 9 None "1709967902")]
         (fst (stop_endpoint 5 None "1709967902"
                 (fst (start_endpoint (1709967902 # 1) 0 demo_start no_metadata
                         fresh_service)))))
  = map (fun rq =>
           idle_stop_response
             (active_recordings
                (fst (stop_endpoint 5 None "1709967902"
                        (fst (start_endpoint (1709967902 # 1) 0 demo_start
                                no_metadata fresh_service)))))
             (snd rq))
        [(@nil event, PostStop 9 None "1709967902")].
Proof.
  assert (Hid : active_recordings
                  (fst (start_endpoint (1709967902 # 1) 0 demo_start no_metadata
                          fresh_service)) !! "1709967902"
                = Some (mkEntry 0 demo_path no_metadata None None))
    by (vm_compute; reflexivity).
  assert (Hrec : recording (self (recorder
                   (fst (start_endpoint (1709967902 # 1) 0 demo_start no_metadata
                           fresh_service)))) = true) by reflexivity.
  assert (Hs : stream (self (recorder
                   (fst (start_endpoint (1709967902 # 1) 0 demo_start no_metadata
                           fresh_service)))) = Some StreamActive) by reflexivity.
  pose proof (second_stop_is_an_internal_error 5 None "1709967902"
                (fst (start_endpoint (1709967902 # 1) 0 demo_start no_metadata
                        fresh_service))
                (mkEntry 0 demo_path no_metadata None None) StreamActive
                Hid Hrec Hs) as H.
  cbv zeta in H. destruct H as [_ H]. apply H.
  repeat constructor.
Defined.

(** X16. The stop endpoint does not look at which session an id belongs
    to: a request under any registered id, also the id of a session that
    ended long ago, stops the recording that is running now. It leaves the
    recorder idle, and either answers with the path of the running session
    and overwrites the entry of that id with it, or answers 500 and leaves
    the registry as it was. *)
Theorem any_registered_id_stops_the_recording (t : Q) (e : option string)
    (session_id : string) (sv : service) (entry : recording_entry)
    (s : stream_state) (p : string) :
  active_recordings sv !! session_id = Some entry ->
  recording (self (recorder sv)) = true ->
  stream (self (recorder sv)) = Some s ->
  output_file (self (recorder sv)) = Some p ->
  let sv1 := fst (stop_endpoint t e session_id sv) in
  recording (self (recorder sv1)) = false /\
  ((snd (stop_endpoint t e session_id sv)
      = RecordingStopped session_id p (t - start_time entry)%Q /\
    active_recordings sv1
      = <[session_id := mkEntry (start_time entry) p (metadata entry)
                          (Some t) (Some "completed")]> (active_recordings sv)) \/
   (exists detail,
      snd (stop_endpoint t e session_id sv) = HTTPException 500 detail /\
      active_recordings sv1 = active_recordings sv)).
Proof.
  intros Hid Hrec Hs Ho sv1.
  destruct (stop_endpoint_registered t e session_id sv entry Hid) as [Hrecorder _].
  destruct (stop_recording_answer e (recorder sv) s Hrec Hs) as [Hidle Hans].
  split; [subst sv1; by rewrite Hrecorder|].
  subst sv1. unfold stop_endpoint. rewrite Hid.
  destruct (stop_recording e (recorder sv)) as [w [p'|x|]]; simpl in *.
  - left. assert (p' = p) by congruence. by subst.
  - right. exists (str_of_exn x). unfold internal_error. by rewrite Hans.
  - done.
Qed.

Lemma any_registered_id_stops_the_recording_witness :
  recording (self (recorder (fst
    (stop_endpoint 9 None "1709967902"
       (fst (start_endpoint (1709967950 # 1) 0 demo_start_later no_metadata
          (fst (stop_endpoint 5 None "1709967902"
             (fst (start_endpoint (1709967902 # 1) 0 demo_start no_metadata
                     fresh_service)))))))))) = false.
Proof.
  apply (any_registered_id_stops_the_recording 9 None "1709967902"
           (fst (start_endpoint (1709967950 # 1) 0 demo_start_later no_metadata
              (fst (stop_endpoint 5 None "1709967902"
                 (fst (start_endpoint (1709967902 # 1) 0 demo_start no_metadata
                         fresh_service))))))
           (mkEntry 0 demo_path no_metadata (Some 5%Q) (Some "completed"))
           StreamActive demo_path).
  - vm_compute. reflexivity.
  - vm_compute. reflexivity.
  - vm_compute. reflexivity.
  - vm_compute. reflexivity.
Defined.

(** X17. On a service that has not registered any session, a start request
    whose device fails to open is answered 500 with the device's message,
    and from then on the API cannot recover: whatever the threads do,
    every start request is answered 400 and every stop request 404, the
    registry stays empty and the recorder's flag stays set. *)
Theorem failed_open_blocks_the_service (t_id t_start : Q) (senv : start_env)
    (md : SermonMetadata) (msg : string) (sv : service) :
  active_recordings sv = ∅ ->
  recording (self (recorder sv)) = false ->
  open_error senv = Some msg ->
  let sv1 := fst (start_endpoint t_id t_start senv md sv) in
  snd (start_endpoint t_id t_start senv md sv) = HTTPException 500 msg /\
  forall rqs : list (list event * request),
    snd (serve_all rqs sv1) = map (fun rq => stuck_response (snd rq)) rqs /\
    active_recordings (fst (serve_all rqs sv1)) = ∅ /\
    recording (self (recorder (fst (serve_all rqs sv1)))) = true.
Proof.
  intros Hempty Hrec Hopen sv1. subst sv1.
  unfold start_endpoint. rewrite Hrec.
  rewrite start_recording_idle by done. rewrite Hopen. cbn [fst snd].
  split; [done|].
  assert (Hinv : forall rqs sv',
            active_recordings sv' = ∅ ->
            recording (self (recorder sv')) = true ->
            snd (serve_all rqs sv') = map (fun rq => stuck_response (snd rq)) rqs /\
            active_recordings (fst (serve_all rqs sv')) = ∅ /\
            recording (self (recorder (fst (serve_all rqs sv')))) = true).
  { induction rqs as [|[evs rq] rqs IH]; intros sv' Ha Hr; [done|].
    destruct (between_requests_settings evs sv') as (Hr' & _ & _ & Ha').
    assert (Hserve : serve rq (between_requests evs sv')
                     = (between_requests evs sv', stuck_response rq)).
    { destruct rq as [t1 t2 senv' md' | t' e' sid]; simpl.
      - apply start_endpoint_busy. congruence.
      - unfold stop_endpoint. by rewrite Ha', Ha, lookup_empty. }
    simpl. rewrite Hserve.
    destruct (IH (between_requests evs sv')) as (H1 & H2 & H3);
      [congruence | congruence |].
    destruct (serve_all rqs (between_requests evs sv')) as [sv'' rs].
    simpl in *. by rewrite H1. }
  intros rqs. apply Hinv; [done|].
  simpl. by destruct (recorder sv) as [[] ? ?].
Qed.

Lemma failed_open_blocks_the_service_witness :
  snd (start_endpoint 0 0 demo_start_failing no_metadata fresh_service)
  = HTTPException 500 "Error opening InputStream: Invalid device".
Proof.
  apply (failed_open_blocks_the_service 0 0 demo_start_failing no_metadata
           "Error opening InputStream: Invalid device" fresh_service).
  - reflexivity.
  - reflexivity.
  - reflexivity.
Defined.

(** ** The configuration manager *)

Lemma json_dict_ind (P : Config.json -> Prop) :
  (forall items, Forall (fun kv => P kv.2) items -> P (Config.JDict items)) ->
  (forall j, (forall items, j <> Config.JDict items) -> P j) ->
  forall j, P j.
Proof.
  intros Hd Ho. fix IH 1. intros [| | | | | |items]; try (apply Ho; discriminate).
  apply Hd. revert items. fix IHi 1. intros [|[k v] items].
  - constructor.
  - constructor; [apply IH | apply IHi].
Qed.

Lemma dict_get_None items k :
  Config.dict_get items k = None <-> k ∉ map fst items.
Proof.
  induction items as [|[k' v] items IH]; simpl.
  - split; [intros _; apply not_elem_of_nil | done].
  - case_decide; subst.
    + split; [done | intros H; exfalso; apply H; left].
    + rewrite not_elem_of_cons, IH. split; [by intros H' | by intros [_ H']].
Qed.

Lemma dict_get_set_eq items k v :
  Config.dict_get (Config.dict_set items k v) k = Some v.
Proof.
  induction items as [|[k' v'] items IH]; simpl.
  - by rewrite decide_True.
  - case_decide; simpl; subst.
    + by rewrite decide_True.
    + by rewrite decide_False.
Qed.

Lemma dict_get_set_ne items k k' v :
  k <> k' -> Config.dict_get (Config.dict_set items k v) k' = Config.dict_get items k'.
Proof.
  intros Hne. induction items as [|[k0 v0] items IH]; simpl.
  - by rewrite decide_False.
  - case_decide; simpl; subst.
    + by rewrite !decide_False.
    + by rewrite IH.
Qed.

Lemma dict_set_same items k v :
  Config.dict_get items k = Some v -> Config.dict_set items k v = items.
Proof.
  induction items as [|[k0 v0] items IH]; simpl; [done|].
  case_decide; subst.
  - by intros [= ->].
  - intros H'. by rewrite IH.
Qed.

Lemma keys_dict_set items k v :
  map fst (Config.dict_set items k v)
  = map fst items ++ (if Config.dict_get items k is Some _ then [] else [k]).
Proof.
  induction items as [|[k0 v0] items IH]; simpl; [done|].
  case_decide; subst; simpl.
  - by rewrite app_nil_r.
  - by rewrite IH.
Qed.

Lemma get_loop_empty keys :
  Config.get_loop (Config.JDict []) keys = Returns (Config.JDict []).
Proof. induction keys as [|k keys IH]; [done | exact IH]. Qed.

Lemma get_loop_app value p q :
  Config.get_loop value (p ++ q)
  = match Config.get_loop value p with
    | Returns x => Config.get_loop x q
    | other => other
    end.
Proof.
  revert value. induction p as [|k p IH]; intros value; simpl; [done|].
  destruct (Config.get_or_empty value k); [apply IH | done | done].
Qed.

Lemma get_loop_not_dict x k rest :
  (forall items, x <> Config.JDict items) ->
  Config.get_loop x (k :: rest) = Raises (AttributeError "get").
Proof. intros Hx. destruct x; try done. by destruct (Hx items). Qed.

(** One step of the loop of [update_nested] on a dict. *)
Lemma items_loop_not_dict nested d items :
  (forall ditems, d <> Config.JDict ditems) ->
  (Config.items_loop nested d items).1 = d.
Proof.
  intros Hd. destruct items as [|[k v] rest]; [done|].
  destruct d; try (by destruct v); by destruct (Hd items).
Qed.

Lemma items_loop_dict nested items : forall ditems,
  exists ditems', (Config.items_loop nested (Config.JDict ditems) items).1
                  = Config.JDict ditems'.
Proof.
  induction items as [|[k v] rest IH]; intros ditems; simpl; [by eexists|].
  destruct v; try apply IH.
  destruct (nested _ _) as [sub' [e|]]; simpl; [|apply IH].
  destruct (Config.dict_get ditems k); by eexists.
Qed.

Lemma items_loop_other_key nested items k : forall ditems ditems',
  k ∉ map fst items ->
  (Config.items_loop nested (Config.JDict ditems) items).1 = Config.JDict ditems' ->
  Config.dict_get ditems' k = Config.dict_get ditems k.
Proof.
  induction items as [|[k0 v] rest IH]; intros ditems ditems'; simpl.
  - by intros _ [= ->].
  - rewrite not_elem_of_cons. intros [Hne Hk].
    assert (Hstep : forall x ditems',
      (Config.items_loop nested (Config.JDict (Config.dict_set ditems k0 x)) rest).1
        = Config.JDict ditems' ->
      Config.dict_get ditems' k = Config.dict_get ditems k).
    { intros x d' H'. rewrite (IH _ _ Hk H'). apply dict_get_set_ne. congruence. }
    destruct v; try apply Hstep.
    destruct (nested _ _) as [sub' [e|]]; simpl; [|apply Hstep].
    destruct (Config.dict_get ditems k0); intros [= <-]; [|done].
    apply dict_get_set_ne. congruence.
Qed.

Lemma dict_or_not (j : Config.json) :
  (exists items, j = Config.JDict items) \/ (forall items, j <> Config.JDict items).
Proof. destruct j; try (right; discriminate). left. by eexists. Qed.

Lemma update_nested_dict d items :
  Config.update_nested d (Config.JDict items)
  = Config.items_loop (fun sub v => Config.update_nested sub v) d items.
Proof. reflexivity. Qed.

Lemma update_nested_not_dict d u :
  (forall items, u <> Config.JDict items) ->
  Config.update_nested d u = (d, Some (AttributeError "items")).
Proof. intros Hu. destruct u; try done. by destruct (Hu items). Qed.

Lemma items_loop_cons nested ditems k v rest :
  Config.items_loop nested (Config.JDict ditems) ((k, v) :: rest)
  = match v with
    | Config.JDict _ =>
        match nested (default (Config.JDict []) (Config.dict_get ditems k)) v with
        | (sub', None) =>
            Config.items_loop nested (Config.JDict (Config.dict_set ditems k sub')) rest
        | (sub', Some e) => (Config.write_through (Config.JDict ditems) k sub', Some e)
        end
    | _ => Config.items_loop nested (Config.JDict (Config.dict_set ditems k v)) rest
    end.
Proof. destruct v; reflexivity. Qed.

Lemma get_loop_cons ditems k q :
  Config.get_loop (Config.JDict ditems) (k :: q)
  = Config.get_loop (default (Config.JDict []) (Config.dict_get ditems k)) q.
Proof. reflexivity. Qed.

Lemma items_loop_get_other nested items k q ditems :
  k ∉ map fst items ->
  Config.get_loop (Config.items_loop nested (Config.JDict ditems) items).1 (k :: q)
  = Config.get_loop (Config.JDict ditems) (k :: q).
Proof.
  intros Hk. destruct (items_loop_dict nested items ditems) as [ditems' E].
  rewrite E, !get_loop_cons. by rewrite (items_loop_other_key _ _ _ _ _ Hk E).
Qed.

Lemma apart_not_dict x q :
  (forall items, x <> Config.JDict items) -> ~ Config.apart x q.
Proof.
  intros Hx H. destruct q; [exact H|]. destruct x; try exact H. by destruct (Hx items).
Qed.

Lemma update_nested_apart u : forall d p,
  Config.unique_keys u = true -> Config.apart u p ->
  Config.get_loop (Config.update_nested d u).1 p = Config.get_loop d p.
Proof.
  induction u as [items IHv | j Hj] using json_dict_ind; intros d p Hu Hp.
  2: { by rewrite update_nested_not_dict. }
  rewrite update_nested_dict. simpl in Hu.
  apply andb_prop in Hu as [Hnd Hall]. apply bool_decide_eq_true in Hnd.
  destruct p as [|k0 q]; [done|].
  revert d Hp. induction items as [|[k v] rest IHr]; intros d Hp; [done|].
  destruct (dict_or_not d) as [[ditems ->]|Hd]; [|by rewrite items_loop_not_dict].
  apply Forall_cons in IHv as [IHk IHv]. simpl in IHk, Hall, Hnd.
  apply andb_prop in Hall as [Hvk Hall]. apply NoDup_cons in Hnd as [Hk Hnd].
  specialize (IHr IHv Hnd Hall).
  rewrite items_loop_cons. cbn [Config.apart Config.dict_get] in Hp.
  destruct (decide (k = k0)) as [->|Hne].
  - (* the path enters the updates at this item *)
    destruct (dict_or_not v) as [[vitems ->]|Hv];
      [|by destruct (apart_not_dict _ _ Hv Hp)].
    specialize (IHk (default (Config.JDict []) (Config.dict_get ditems k0)) q Hvk Hp).
    destruct (Config.update_nested _ _) as [sub' [e|]]; simpl in IHk.
    + unfold Config.write_through, fst.
      destruct (Config.dict_get ditems k0) eqn:G; [|done].
      rewrite get_loop_cons, dict_get_set_eq, get_loop_cons, G. exact IHk.
    + rewrite items_loop_get_other by done.
      by rewrite get_loop_cons, dict_get_set_eq, get_loop_cons.
  - assert (Hrest : Config.apart (Config.JDict rest) (k0 :: q)) by exact Hp.
    assert (Hstep : forall x,
      Config.get_loop (Config.items_loop (fun sub v => Config.update_nested sub v)
                         (Config.JDict (Config.dict_set ditems k x)) rest).1 (k0 :: q)
      = Config.get_loop (Config.JDict ditems) (k0 :: q)).
    { intros x. rewrite IHr by done. by rewrite !get_loop_cons, dict_get_set_ne. }
    destruct v; try apply Hstep.
    destruct (Config.update_nested _ _) as [sub' [e|]]; [|apply Hstep].
    unfold Config.write_through, fst. destruct (Config.dict_get ditems k); [|done].
    by rewrite !get_loop_cons, dict_get_set_ne.
Qed.

Lemma items_loop_not_dict_raises nested d item rest :
  (forall ditems, d <> Config.JDict ditems) ->
  (Config.items_loop nested d (item :: rest)).2 <> None.
Proof.
  intros Hd. destruct item as [k v].
  destruct d; try (by destruct v); by destruct (Hd items).
Qed.

Lemma leaf_not_dict x q v :
  (forall items, x <> Config.JDict items) -> Config.leaf x q v -> q = [] /\ x = v.
Proof.
  intros Hx H. destruct q; [by destruct H|]. destruct x; try done. by destruct (Hx items).
Qed.

Lemma update_nested_leaf u : forall d d' p v,
  Config.unique_keys u = true -> Config.leaf u p v ->
  Config.update_nested d u = (d', None) ->
  Config.get_loop d' p = Returns v.
Proof.
  induction u as [items IHv | j Hj] using json_dict_ind; intros d d' p v Hu Hp H.
  2: { by rewrite update_nested_not_dict in H. }
  rewrite update_nested_dict in H. simpl in Hu.
  apply andb_prop in Hu as [Hnd Hall]. apply bool_decide_eq_true in Hnd.
  destruct p as [|k0 q]; [by destruct Hp as [<- Hp]; destruct (Hp items)|].
  revert d Hp H. induction items as [|[k x] rest IHr]; intros d Hp H; [done|].
  destruct (dict_or_not d) as [[ditems ->]|Hd].
  2: { apply (items_loop_not_dict_raises (fun sub v => Config.update_nested sub v) _ (k, x) rest) in Hd. by rewrite H in Hd. }
  apply Forall_cons in IHv as [IHk IHv]. simpl in IHk, Hall, Hnd.
  apply andb_prop in Hall as [Hxk Hall]. apply NoDup_cons in Hnd as [Hk Hnd].
  specialize (IHr IHv Hnd Hall).
  rewrite items_loop_cons in H. cbn [Config.leaf Config.dict_get] in Hp.
  destruct (decide (k = k0)) as [->|Hne].
  - assert (Hlast : forall y,
      Config.items_loop (fun sub v => Config.update_nested sub v)
        (Config.JDict (Config.dict_set ditems k0 y)) rest = (d', None) ->
      Config.get_loop d' (k0 :: q) = Config.get_loop y q).
    { intros y Hy. replace d' with (Config.items_loop
        (fun sub v => Config.update_nested sub v)
        (Config.JDict (Config.dict_set ditems k0 y)) rest).1 by (by rewrite Hy).
      rewrite items_loop_get_other by done. by rewrite get_loop_cons, dict_get_set_eq. }
    destruct (dict_or_not x) as [[xitems ->]|Hx].
    + destruct (Config.update_nested _ _) as [sub' [e|]] eqn:E; [done|].
      rewrite (Hlast _ H). by eapply IHk.
    + destruct (leaf_not_dict _ _ _ Hx Hp) as [-> ->].
      destruct v; try (by rewrite (Hlast _ H)). by destruct (Hx items).
  - assert (Hrest : Config.leaf (Config.JDict rest) (k0 :: q) v) by exact Hp.
    destruct x; try (by eapply IHr).
    destruct (Config.update_nested _ _) as [sub' [e|]]; [done|]. by eapply IHr.
Qed.



Lemma filter_agree {A} (P1 P2 : A -> Prop)
    `{!forall x, Decision (P1 x), !forall x, Decision (P2 x)} (l : list A) :
  Forall (fun x => P1 x <-> P2 x) l -> filter P1 l = filter P2 l.
Proof.
  induction 1 as [|x l Hx Hl IH]; [done|]. rewrite !filter_cons.
  destruct (decide (P1 x)), (decide (P2 x)); try tauto; by rewrite IH.
Qed.

Lemma items_loop_keys nested items : forall ditems ditems',
  NoDup (map fst items) ->
  Config.items_loop nested (Config.JDict ditems) items = (Config.JDict ditems', None) ->
  map fst ditems'
  = map fst ditems ++ filter (fun k => k ∉ map fst ditems) (map fst items).
Proof.
  induction items as [|[k x] rest IHr]; intros ditems ditems' Hnd H.
  - injection H as <-. simpl. by rewrite app_nil_r.
  - simpl in Hnd. apply NoDup_cons in Hnd as [Hk Hnd]. rewrite items_loop_cons in H.
    assert (Hstep : forall y,
      Config.items_loop nested (Config.JDict (Config.dict_set ditems k y)) rest
        = (Config.JDict ditems', None) ->
      map fst ditems'
      = map fst ditems ++ filter (fun k => k ∉ map fst ditems) (map fst ((k, x) :: rest))).
    { intros y Hy. rewrite (IHr _ _ Hnd Hy), keys_dict_set. simpl map.
      rewrite filter_cons. destruct (Config.dict_get ditems k) eqn:G.
      - rewrite app_nil_r, decide_False; [done|].
        intros Hn. apply dict_get_None in Hn. congruence.
      - rewrite decide_True by (by apply dict_get_None).
        rewrite <- app_assoc. simpl. do 2 f_equal.
        apply filter_agree. apply Forall_forall. intros k' Hk'.
        rewrite not_elem_of_app, not_elem_of_cons. split; [tauto|].
        intros Hn. split; [done|]. split; [congruence | apply not_elem_of_nil]. }
    destruct x; try (by eapply Hstep).
    destruct (nested _ _) as [sub' [e|]]; [done|]. by eapply Hstep.
Qed.

Lemma leaf_value_not_dict p : forall u v,
  Config.leaf u p v -> forall items, v <> Config.JDict items.
Proof.
  induction p as [|k p IH]; intros u v H; [by destruct H|].
  destruct u; try done. simpl in H.
  destruct (Config.dict_get items k); [by eapply IH | done].
Qed.

Lemma is_empty_dict_not_dict v :
  (forall items, v <> Config.JDict items) -> Config.is_empty_dict v = false.
Proof. intros Hv. destruct v; try done. by destruct (Hv items). Qed.

Lemma update_returns open_error updates w w' :
  Config.update open_error updates w = (w', Returns tt) ->
  open_error = None /\
  Config.update_nested (Config.config (Config.self w)) updates
    = (Config.config (Config.self w'), None) /\
  Config.config_path (Config.self w') = Config.config_path (Config.self w) /\
  Config.files w'
    = <[Config.config_path (Config.self w) := Config.config (Config.self w')]>
        (Config.files w).
Proof.
  unfold Config.update, Config._save_config.
  destruct (Config.update_nested _ _) as [d [e|]]; [done|].
  destruct open_error; [done|]. by intros [= <-].
Qed.

(** X18. Reading past the end of the configuration tree. When [get]
    returned a value that is not [None], asking for one more key below
    it (and any keys after that) returns [None] if the value is a dict
    without that key, and raises [AttributeError] if the value is not a
    dict: the [{}] default absorbs missing keys, nothing absorbs a leaf. *)
Theorem get_past_the_end (self : Config.ConfigManager) keys x key more :
  Config.get self keys = Returns x ->
  x <> Config.JNull ->
  (forall items, x = Config.JDict items -> Config.dict_get items key = None ->
     Config.get self (keys ++ key :: more) = Returns Config.JNull)
  /\ ((forall items, x <> Config.JDict items) ->
      Config.get self (keys ++ key :: more) = Raises (AttributeError "get")).
Proof.
  unfold Config.get. intros H Hx.
  destruct (Config.get_loop (Config.config self) keys) as [value| |] eqn:E; try done.
  assert (value = x) as ->.
  { destruct (Config.is_empty_dict value); congruence. }
  rewrite get_loop_app, E. split.
  - intros items -> Hk. rewrite get_loop_cons, Hk. simpl. by rewrite get_loop_empty.
  - intros Hnd. by rewrite get_loop_not_dict.
Qed.

Lemma get_past_the_end_witness :
  (forall items,
     Config.JDict [("sample_rate", Config.JInt 16000); ("channels", Config.JInt 1);
                   ("save_directory", Config.JStr "recordings")] = Config.JDict items ->
     Config.dict_get items "bitrate" = None ->
     Config.get (Config.self Config.sample_world) (["recording"] ++ "bitrate" :: ["unit"])
     = Returns Config.JNull)
  /\ ((forall items,
        Config.JDict [("sample_rate", Config.JInt 16000); ("channels", Config.JInt 1);
                      ("save_directory", Config.JStr "recordings")] <> Config.JDict items) ->
      Config.get (Config.self Config.sample_world) (["recording"] ++ "bitrate" :: ["unit"])
      = Raises (AttributeError "get")).
Proof.
  apply (get_past_the_end (Config.self Config.sample_world) ["recording"]
           (Config.JDict [("sample_rate", Config.JInt 16000); ("channels", Config.JInt 1);
                          ("save_directory", Config.JStr "recordings")])
           "bitrate" ["unit"]).
  - reflexivity.
  - discriminate.
Defined.

(** X19. What [update] wrote, [get] reads. When [update] returns, every
    path of the updates that ends at a value other than a dict is
    answered by [get] with that value, and the file at [config_path]
    holds the configuration that is now in memory. *)
Theorem update_then_get open_error updates w w' path v :
  Config.unique_keys updates = true ->
  Config.leaf updates path v ->
  Config.update open_error updates w = (w', Returns tt) ->
  Config.get (Config.self w') path = Returns v
  /\ Config.files w' !! Config.config_path (Config.self w')
     = Some (Config.config (Config.self w')).
Proof.
  intros Hu Hleaf H. apply update_returns in H as (_ & H & Hpath & Hfiles). split.
  - unfold Config.get. rewrite (update_nested_leaf _ _ _ _ _ Hu Hleaf H).
    by rewrite (is_empty_dict_not_dict _ (leaf_value_not_dict _ _ _ Hleaf)).
  - rewrite Hfiles, Hpath. apply lookup_insert_eq.
Qed.

Lemma update_then_get_witness :
  Config.get (Config.self (Config.update None Config.sample_updates Config.sample_world).1)
    ["recording"; "channels"] = Returns (Config.JInt 2)
  /\ Config.files (Config.update None Config.sample_updates Config.sample_world).1
       !! Config.config_path
            (Config.self (Config.update None Config.sample_updates Config.sample_world).1)
     = Some (Config.config
               (Config.self (Config.update None Config.sample_updates Config.sample_world).1)).
Proof.
  apply (update_then_get None Config.sample_updates Config.sample_world).
  - reflexivity.
  - simpl. split; [reflexivity | discriminate].
  - reflexivity.
Defined.

(** X20. [update] touches nothing beside the updates. A path that leaves
    the dicts of the updates at a key they do not have is answered by
    [get] after the call as before it, whether the call returned, raised
    half way or failed to open the file. *)
Theorem update_keeps_other_paths open_error updates w path :
  Config.unique_keys updates = true ->
  Config.apart updates path ->
  Config.get (Config.self (Config.update open_error updates w).1) path
  = Config.get (Config.self w) path.
Proof.
  intros Hu Hp.
  pose proof (update_nested_apart updates (Config.config (Config.self w)) path Hu Hp) as H.
  unfold Config.get, Config.update, Config._save_config.
  destruct (Config.update_nested _ _) as [d [e|]]; simpl in *.
  - by rewrite H.
  - destruct open_error; simpl; by rewrite H.
Qed.

Lemma update_keeps_other_paths_witness :
  Config.get (Config.self (Config.update None Config.sample_updates Config.sample_world).1)
    ["recording"; "sample_rate"]
  = Config.get (Config.self Config.sample_world) ["recording"; "sample_rate"].
Proof.
  apply (update_keeps_other_paths None Config.sample_updates Config.sample_world).
  - reflexivity.
  - exact I.
Defined.

(** X21. [update] keeps the order of the keys. When it returns, the
    top-level keys of the configuration are the old keys in their old
    order, followed by the keys of the updates that are new, in the order
    of the updates: no key is ever removed or moved. *)
Theorem update_appends_new_keys open_error updates w w' :
  NoDup (Config.keys updates) ->
  Config.update open_error updates w = (w', Returns tt) ->
  Config.keys (Config.config (Config.self w'))
  = Config.keys (Config.config (Config.self w))
    ++ filter (fun k => k ∉ Config.keys (Config.config (Config.self w)))
         (Config.keys updates).
Proof.
  intros Hnd H. apply update_returns in H as (_ & H & _).
  destruct (dict_or_not updates) as [[items ->]|Hu];
    [|by rewrite update_nested_not_dict in H].
  rewrite update_nested_dict in H.
  destruct (dict_or_not (Config.config (Config.self w))) as [[ditems E]|Hd].
  - rewrite E in *.
    destruct (items_loop_dict (fun sub v => Config.update_nested sub v) items ditems)
      as [ditems' E']. rewrite H in E'. simpl in E'. rewrite E' in *.
    by eapply items_loop_keys.
  - destruct items as [|item rest].
    + injection H as <-. simpl. by rewrite app_nil_r.
    + apply (items_loop_not_dict_raises (fun sub v => Config.update_nested sub v)
               _ item rest) in Hd. by rewrite H in Hd.
Qed.

Lemma update_appends_new_keys_witness :
  Config.keys (Config.config
    (Config.self (Config.update None Config.sample_updates Config.sample_world).1))
  = Config.keys (Config.config (Config.self Config.sample_world))
    ++ filter (fun k => k ∉ Config.keys (Config.config (Config.self Config.sample_world)))
         (Config.keys Config.sample_updates).
Proof.
  apply (update_appends_new_keys None Config.sample_updates Config.sample_world).
  - apply (bool_decide_unpack _). vm_compute. exact I.
  - reflexivity.
Defined.



(** X23. [update] is not atomic. When the updates give a plain value to
    one key and then a non-empty dict to a key whose configured value is
    not a dict, the call raises ([AttributeError] or [TypeError]) and no
    file is written, but the first key has been changed in memory: the
    configuration the process now serves is not the one on disk. *)
Theorem update_is_not_atomic open_error w ditems k1 v1 k2 x item more :
  Config.config (Config.self w) = Config.JDict ditems ->
  k1 <> k2 ->
  (forall items, v1 <> Config.JDict items) ->
  Config.dict_get ditems k2 = Some x ->
  (forall items, x <> Config.JDict items) ->
  let updates := Config.JDict [(k1, v1); (k2, Config.JDict (item :: more))] in
  let w' := (Config.update open_error updates w).1 in
  (exists e, (Config.update open_error updates w).2 = Raises e
             /\ (e = AttributeError "get" \/ e = Config.TypeError))
  /\ Config.files w' = Config.files w
  /\ Config.get (Config.self w') [k1] = Returns v1
  /\ Config.get (Config.self w') [k2] = Returns x.
Proof.
  intros Hc Hne Hv1 Hk2 Hx updates w'. subst updates w'.
  unfold Config.update. rewrite Hc, update_nested_dict, items_loop_cons.
  assert (Hfirst : match v1 with
    | Config.JDict _ =>
        match Config.update_nested (default (Config.JDict []) (Config.dict_get ditems k1)) v1
        with
        | (sub', None) =>
            Config.items_loop (fun sub v => Config.update_nested sub v)
              (Config.JDict (Config.dict_set ditems k1 sub'))
              [(k2, Config.JDict (item :: more))]
        | (sub', Some e) => (Config.write_through (Config.JDict ditems) k1 sub', Some e)
        end
    | _ => Config.items_loop (fun sub v => Config.update_nested sub v)
             (Config.JDict (Config.dict_set ditems k1 v1))
             [(k2, Config.JDict (item :: more))]
    end = Config.items_loop (fun sub v => Config.update_nested sub v)
             (Config.JDict (Config.dict_set ditems k1 v1))
             [(k2, Config.JDict (item :: more))]).
  { destruct v1; try done. by destruct (Hv1 items). }
  rewrite Hfirst, items_loop_cons, dict_get_set_ne, Hk2 by done.
  change (default (Config.JDict []) (Some x)) with x.
  rewrite update_nested_dict.
  pose proof (items_loop_not_dict (fun sub v => Config.update_nested sub v) x
                (item :: more) Hx) as Hsame.
  pose proof (items_loop_not_dict_raises (fun sub v => Config.update_nested sub v) x
                item more Hx) as Hraise.
  assert (Herr : forall e, (Config.items_loop (fun sub v => Config.update_nested sub v) x
                              (item :: more)).2 = Some e ->
                 e = AttributeError "get" \/ e = Config.TypeError).
  { intros e. destruct item as [k v].
    destruct x; try (destruct v; simpl; intros [= <-]; auto). by destruct (Hx items). }
  destruct (Config.items_loop _ x _) as [sub' [e|]]; [|done]. simpl in Hsame. subst sub'.
  unfold Config.write_through. rewrite dict_get_set_ne, Hk2 by done.
  rewrite dict_set_same by (by rewrite dict_get_set_ne).
  simpl. split; [exists e; split; [done | by apply Herr]|].
  split; [done|]. unfold Config.get. simpl.
  rewrite dict_get_set_eq, dict_get_set_ne, Hk2 by done. simpl.
  by rewrite !is_empty_dict_not_dict.
Qed.

Lemma update_is_not_atomic_witness :
  let updates := Config.JDict [("language", Config.JStr "en");
                               ("model", Config.JDict [("name", Config.JStr "small")])] in
  let w' := (Config.update None updates Config.sample_world).1 in
  (exists e, (Config.update None updates Config.sample_world).2 = Raises e
             /\ (e = AttributeError "get" \/ e = Config.TypeError))
  /\ Config.files w' = Config.files Config.sample_world
  /\ Config.get (Config.self w') ["language"] = Returns (Config.JStr "en")
  /\ Config.get (Config.self w') ["model"] = Returns (Config.JStr "base").
Proof.
  refine (update_is_not_atomic None Config.sample_world _ "language" (Config.JStr "en")
            "model" (Config.JStr "base") ("name", Config.JStr "small") [] _ _ _ _ _).
  - reflexivity.
  - discriminate.
  - discriminate.
  - reflexivity.
  - discriminate.
Defined.



(** ** The text clean-up of the formatter *)

Section formatter.
Import Formatter.

Lemma pair_scan_ind (a b : char) (P : str -> Prop) :
  P [] ->
  (forall r, P r -> P (a :: b :: r)) ->
  (forall c r, (forall r', r = b :: r' -> c <> a) -> P r -> P (c :: r)) ->
  forall t, P t.
Proof.
  intros Hnil Hpair Hother t.
  assert (H : forall n t, (length t <= n)%nat -> P t).
  { clear t. induction n as [|n IH]; intros [|c r] Hlen; simpl in Hlen; try done; try lia.
    destruct (decide (c = a)) as [->|Hc].
    - destruct r as [|c' r'].
      + apply Hother; [done | apply IH; simpl; lia].
      + destruct (decide (c' = b)) as [->|Hc'].
        * apply Hpair, IH. simpl in Hlen. lia.
        * apply Hother; [intros r'' [= ? ?]; done | apply IH; lia].
    - apply Hother; [done | apply IH; lia]. }
  by apply (H (length t)).
Qed.

Lemma startswith_pair (a b : char) t :
  startswith t [a; b]
  = match t with
    | c :: c' :: _ => (c =? a)%N && (c' =? b)%N
    | _ => false
    end.
Proof.
  destruct t as [|c [|c' r]]; cbn [startswith]; try done.
  - by rewrite andb_false_r.
  - by rewrite andb_true_r, (N.eqb_sym a), (N.eqb_sym b).
Qed.

Lemma contains_pair_cons (a b : char) c r :
  contains [a; b] (c :: r) = startswith (c :: r) [a; b] || contains [a; b] r.
Proof. reflexivity. Qed.

Lemma startswith_pair_true (a b : char) r : startswith (a :: b :: r) [a; b] = true.
Proof. by rewrite startswith_pair, !N.eqb_refl. Qed.

Lemma startswith_pair_other (a b : char) c r :
  (forall r', r = b :: r' -> c <> a) -> startswith (c :: r) [a; b] = false.
Proof.
  intros H. rewrite startswith_pair. destruct r as [|c' r']; [done|].
  destruct (N.eqb_spec c a) as [->|]; [|done].
  destruct (N.eqb_spec c' b) as [->|]; [|done]. by destruct (H r').
Qed.

(** The two scans for a pair of characters. *)
Lemma replace_pair (a b : char) new r :
  replace [a; b] new (a :: b :: r) = new ++ replace [a; b] new r.
Proof.
  unfold replace. cbn [replace_from]. by rewrite startswith_pair_true.
Qed.

Lemma replace_other (a b : char) new c r :
  (forall r', r = b :: r' -> c <> a) ->
  replace [a; b] new (c :: r) = c :: replace [a; b] new r.
Proof.
  intros H. unfold replace. cbn [replace_from]. by rewrite startswith_pair_other.
Qed.

Lemma split_pair (a b : char) r :
  split [a; b] (a :: b :: r) = [] :: split [a; b] r.
Proof.
  unfold split. cbn [split_from]. by rewrite startswith_pair_true.
Qed.

Lemma split_other (a b : char) c r :
  (forall r', r = b :: r' -> c <> a) ->
  split [a; b] (c :: r) = extend c (split [a; b] r).
Proof.
  intros H. unfold split. cbn [split_from]. by rewrite startswith_pair_other.
Qed.

Lemma replace_dot_cons c r :
  replace [dot] [dot; space] (c :: r)
  = (if (c =? dot)%N then [dot; space] else [c]) ++ replace [dot] [dot; space] r.
Proof.
  unfold replace. cbn [replace_from startswith]. rewrite andb_true_r, (N.eqb_sym dot).
  by destruct (c =? dot)%N.
Qed.

(** *** The loop that removes double spaces *)

Lemma squeeze_cons c c' r :
  squeeze (c :: c' :: r)
  = if (c =? space)%N && (c' =? space)%N then squeeze (c' :: r) else c :: squeeze (c' :: r).
Proof. reflexivity. Qed.

Lemma squeeze_pair r : squeeze (space :: space :: r) = squeeze (space :: r).
Proof. reflexivity. Qed.

Lemma squeeze_other c r :
  (forall r', r = space :: r' -> c <> space) -> squeeze (c :: r) = c :: squeeze r.
Proof.
  intros H. destruct r as [|c' r']; [done|]. rewrite squeeze_cons.
  destruct (N.eqb_spec c space) as [->|]; [|done].
  destruct (N.eqb_spec c' space) as [->|]; [|done]. by destruct (H r').
Qed.

Lemma squeeze_head t : head (squeeze t) = head t.
Proof.
  induction t as [|c r IH]; [done|]. destruct r as [|c' r']; [done|].
  rewrite squeeze_cons. destruct (_ && _) eqn:E; [|done].
  rewrite IH. apply andb_prop in E as [E1 E2].
  apply N.eqb_eq in E1, E2. by subst.
Qed.

Lemma squeeze_cons_congr c x y :
  head x = head y -> squeeze x = squeeze y -> squeeze (c :: x) = squeeze (c :: y).
Proof.
  intros Hh Hs. destruct x as [|a x], y as [|b y]; try done.
  injection Hh as ->. by rewrite !(squeeze_cons c), Hs.
Qed.

Lemma replace_spaces_head t : head (replace [space; space] [space] t) = head t.
Proof.
  induction t as [|r IH|c r Hc IH] using (pair_scan_ind space space); [done| |].
  - by rewrite replace_pair.
  - by rewrite replace_other.
Qed.

Lemma squeeze_replace_spaces t :
  squeeze (replace [space; space] [space] t) = squeeze t.
Proof.
  induction t as [|r IH|c r Hc IH] using (pair_scan_ind space space); [done| |].
  - rewrite replace_pair, squeeze_pair. simpl app.
    by apply squeeze_cons_congr; [apply replace_spaces_head|].
  - rewrite replace_other by done.
    by apply squeeze_cons_congr; [apply replace_spaces_head|].
Qed.

Lemma replace_spaces_length t :
  (length (replace [space; space] [space] t) <= length t)%nat.
Proof.
  induction t as [|r IH|c r Hc IH] using (pair_scan_ind space space); [done| |].
  - rewrite replace_pair. simpl. lia.
  - rewrite replace_other by done. simpl. lia.
Qed.

Lemma replace_spaces_shorter t :
  contains [space; space] t = true ->
  (length (replace [space; space] [space] t) < length t)%nat.
Proof.
  induction t as [|r IH|c r Hc IH] using (pair_scan_ind space space); [done| |].
  - intros _. rewrite replace_pair. pose proof (replace_spaces_length r). simpl. lia.
  - rewrite contains_pair_cons, startswith_pair_other by done.
    intros H. rewrite replace_other by done. specialize (IH H). simpl. lia.
Qed.

Lemma squeeze_without_double_spaces t :
  contains [space; space] t = false -> squeeze t = t.
Proof.
  induction t as [|c r IH]; [done|].
  rewrite contains_pair_cons. intros H. apply orb_false_elim in H as [H1 H2].
  rewrite squeeze_other, IH; [done..|].
  intros r' -> ->. by rewrite startswith_pair_true in H1.
Qed.

Lemma remove_double_spaces_squeeze n : forall t,
  (length t <= n)%nat -> remove_double_spaces n t = Some (squeeze t).
Proof.
  induction n as [|n IH]; intros t Hlen.
  - destruct t; [done | simpl in Hlen; lia].
  - cbn [remove_double_spaces]. destruct (contains _ t) eqn:E.
    + pose proof (replace_spaces_shorter t E).
      rewrite IH by lia. by rewrite squeeze_replace_spaces.
    + by rewrite squeeze_without_double_spaces.
Qed.

(** X25. The loop of [_fix_punctuation] ends, and the method returns the
    text in which every dot has been given a space, every run of spaces
    has then been cut down to one space, and the white space at both ends
    has been stripped. *)
Theorem fix_punctuation_closed_form (isspace : char -> bool) (text : str) :
  _fix_punctuation isspace text
  = Some (strip isspace (squeeze (replace [dot] [dot; space] text))).
Proof.
  destruct text as [|c r]; [done|]. unfold _fix_punctuation.
  by rewrite remove_double_spaces_squeeze.
Qed.

(** *** What the result of [_fix_punctuation] looks like *)

Lemma adjacent_nil (a b : char) : ~ adjacent a b [].
Proof. intros (before & after & H). by destruct before. Qed.

Lemma adjacent_cons (a b : char) c t :
  adjacent a b (c :: t) <-> (c = a /\ head t = Some b) \/ adjacent a b t.
Proof.
  split.
  - intros (before & after & H). destruct before as [|c0 before]; simpl in H.
    + injection H as -> ->. by left.
    + injection H as -> ->. right. by exists before, after.
  - intros [[-> H]|(before & after & ->)].
    + destruct t as [|b' t]; [done|]. injection H as ->. by exists [], t.
    + by exists (c :: before), after.
Qed.

Lemma adjacent_inside (a b : char) before t after :
  adjacent a b t -> adjacent a b (before ++ t ++ after).
Proof.
  intros (l & r & ->). exists (before ++ l), (r ++ after).
  by rewrite <- !app_assoc.
Qed.

Lemma lstrip_suffix isspace t : exists before, t = before ++ lstrip isspace t.
Proof.
  induction t as [|c r [before IH]]; [by exists []|]. simpl.
  destruct (isspace c); [|by exists []].
  exists (c :: before). simpl. by rewrite <- IH.
Qed.

Lemma rstrip_prefix isspace t : exists after, t = rstrip isspace t ++ after.
Proof.
  induction t as [|c r [after IH]]; [by exists []|]. simpl.
  destruct (rstrip isspace r) as [|k kept].
  - destruct (isspace c); [by exists (c :: r)|]. exists after. simpl. by rewrite IH.
  - exists after. simpl. by rewrite IH at 1.
Qed.

Lemma strip_inside isspace t :
  exists before after, t = before ++ strip isspace t ++ after.
Proof.
  destruct (lstrip_suffix isspace t) as [before Hl].
  destruct (rstrip_prefix isspace (lstrip isspace t)) as [after Hr].
  exists before, after. unfold strip. by rewrite <- Hr.
Qed.

Lemma lstrip_head isspace t c :
  head (lstrip isspace t) = Some c -> isspace c = false.
Proof.
  induction t as [|c0 r IH]; [done|]. simpl.
  destruct (isspace c0) eqn:E; [done|]. by intros [= <-].
Qed.

Lemma rstrip_last isspace t c :
  last (rstrip isspace t) = Some c -> isspace c = false.
Proof.
  induction t as [|c0 r IH]; [done|]. simpl.
  destruct (rstrip isspace r) as [|k kept].
  - destruct (isspace c0) eqn:E; [done|]. by intros [= <-].
  - rewrite last_cons. destruct (last (k :: kept)) eqn:E; [|by apply last_None in E].
    intros [= <-]. by apply IH.
Qed.

Lemma rstrip_head isspace t c :
  head (rstrip isspace t) = Some c -> head t = Some c.
Proof.
  destruct (rstrip_prefix isspace t) as [after H].
  destruct (rstrip isspace t) as [|k kept]; [done|]. intros [= <-]. by rewrite H.
Qed.

Lemma squeeze_no_double_space t : ~ adjacent space space (squeeze t).
Proof.
  induction t as [|c r IH]; [apply adjacent_nil|].
  destruct r as [|c' r'].
  - simpl. rewrite adjacent_cons. intros [[_ H]|H]; [done | by apply adjacent_nil in H].
  - rewrite squeeze_cons. destruct (_ && _) eqn:E; [done|].
    rewrite adjacent_cons, squeeze_head. intros [[-> [= ->]]|H]; [|done].
    by rewrite !N.eqb_refl in E.
Qed.

Lemma replace_dot_spaced t c :
  adjacent dot c (replace [dot] [dot; space] t) -> c = space.
Proof.
  induction t as [|c0 r IH]; [by intros H%adjacent_nil|].
  rewrite replace_dot_cons. destruct (N.eqb_spec c0 dot) as [->|Hc0]; simpl.
  - rewrite !adjacent_cons. intros [[_ [= ->]]|[[[=] _]|H]]; [done | by apply IH].
  - rewrite adjacent_cons. intros [[-> _]|H]; [done | by apply IH].
Qed.

Lemma squeeze_dot_spaced t :
  (forall c, adjacent dot c t -> c = space) ->
  forall c, adjacent dot c (squeeze t) -> c = space.
Proof.
  induction t as [|c0 r IH]; intros Ht c; [by intros H%adjacent_nil|].
  assert (Hr : forall c, adjacent dot c r -> c = space).
  { intros c1 H. apply Ht, adjacent_cons. by right. }
  destruct r as [|c' r'].
  - simpl. rewrite adjacent_cons. intros [[_ H]|H]; [done | by apply adjacent_nil in H].
  - rewrite squeeze_cons. destruct (_ && _); [by apply IH|].
    rewrite adjacent_cons, squeeze_head. intros [[-> [= ->]]|H]; [|by apply IH].
    apply Ht, adjacent_cons. by left.
Qed.

(** X26. The shape of the result of [_fix_punctuation]: it has no two
    spaces in a row, every dot in it is followed by a space unless it is
    the last character, and it neither starts nor ends with white space.
    So a dot inside a number or an abbreviation is torn from what
    follows it. *)
Theorem fix_punctuation_shape (isspace : char -> bool) (text : str) :
  exists result,
    _fix_punctuation isspace text = Some result
    /\ ~ adjacent space space result
    /\ (forall c, adjacent dot c result -> c = space)
    /\ (forall c, head result = Some c -> isspace c = false)
    /\ (forall c, last result = Some c -> isspace c = false).
Proof.
  eexists. split; [apply fix_punctuation_closed_form|].
  destruct (strip_inside isspace (squeeze (replace [dot] [dot; space] text)))
    as (before & after & Hin).
  repeat split.
  - intros H. apply (adjacent_inside _ _ before _ after) in H. rewrite <- Hin in H.
    by apply squeeze_no_double_space in H.
  - intros c H. apply (adjacent_inside _ _ before _ after) in H. rewrite <- Hin in H.
    revert c H. apply squeeze_dot_spaced. intros c. apply replace_dot_spaced.
  - intros c H. apply rstrip_head in H. by apply lstrip_head in H.
  - intros c. apply rstrip_last.
Qed.

(** *** Only white space is added or removed *)

Lemma ink_cons isspace c t :
  ink isspace (c :: t)
  = (if decide (c <> space /\ isspace c = false) then [c] else []) ++ ink isspace t.
Proof. unfold ink, str. rewrite filter_cons. by destruct (decide _). Qed.

Lemma ink_space isspace t : ink isspace (space :: t) = ink isspace t.
Proof. rewrite ink_cons. by rewrite decide_False by (by intros [? _]). Qed.

Lemma ink_whitespace isspace c t :
  isspace c = true -> ink isspace (c :: t) = ink isspace t.
Proof. intros H. rewrite ink_cons. by rewrite decide_False by (rewrite H; by intros [_ ?]). Qed.

Lemma ink_replace_dot isspace t :
  ink isspace (replace [dot] [dot; space] t) = ink isspace t.
Proof.
  induction t as [|c r IH]; [done|]. rewrite replace_dot_cons.
  destruct (N.eqb_spec c dot) as [->|]; simpl.
  - by rewrite !(ink_cons _ dot), ink_space, IH.
  - by rewrite !(ink_cons _ c), IH.
Qed.

Lemma ink_squeeze isspace t : ink isspace (squeeze t) = ink isspace t.
Proof.
  induction t as [|c r IH]; [done|]. destruct r as [|c' r']; [done|].
  rewrite squeeze_cons. destruct (_ && _) eqn:E.
  - apply andb_prop in E as [->%N.eqb_eq _]. by rewrite IH, ink_space.
  - by rewrite !(ink_cons _ c), IH.
Qed.

Lemma ink_lstrip isspace t : ink isspace (lstrip isspace t) = ink isspace t.
Proof.
  induction t as [|c r IH]; [done|]. simpl.
  destruct (isspace c) eqn:E; [|done]. by rewrite IH, ink_whitespace.
Qed.

Lemma ink_rstrip isspace t : ink isspace (rstrip isspace t) = ink isspace t.
Proof.
  induction t as [|c r IH]; [done|]. simpl.
  destruct (rstrip isspace r) as [|k kept].
  - destruct (isspace c) eqn:E.
    + by rewrite ink_whitespace, <- IH.
    + by rewrite !(ink_cons _ c), <- IH.
  - by rewrite !(ink_cons _ c), IH.
Qed.

(** X27. [_fix_punctuation] changes white space only: the characters of
    the result that are neither spaces nor white space are those of the
    text, in the same order. *)
Theorem fix_punctuation_keeps_the_ink (isspace : char -> bool) (text : str) :
  exists result,
    _fix_punctuation isspace text = Some result
    /\ ink isspace result = ink isspace text.
Proof.
  eexists. split; [apply fix_punctuation_closed_form|].
  unfold strip. by rewrite ink_rstrip, ink_lstrip, ink_squeeze, ink_replace_dot.
Qed.

(** *** A second pass changes nothing *)

Lemma replace_dot_head t : head (replace [dot] [dot; space] t) = head t.
Proof.
  destruct t as [|c r]; [done|]. rewrite replace_dot_cons.
  by destruct (N.eqb_spec c dot) as [->|].
Qed.

Lemma squeeze_replace_dot_shaped t :
  ~ adjacent space space t ->
  (forall c, adjacent dot c t -> c = space) ->
  squeeze (replace [dot] [dot; space] t)
  = t ++ (if decide (last t = Some dot) then [space] else []).
Proof.
  induction t as [|c r IH]; intros Hn Hq; [done|].
  assert (Hnr : ~ adjacent space space r).
  { intros H. apply Hn, adjacent_cons. by right. }
  assert (Hqr : forall c, adjacent dot c r -> c = space).
  { intros c1 H. apply Hq, adjacent_cons. by right. }
  specialize (IH Hnr Hqr). rewrite replace_dot_cons.
  destruct (N.eqb_spec c dot) as [->|Hc]; simpl app.
  - rewrite squeeze_other by (by intros ? _).
    destruct r as [|c' r'].
    + by rewrite decide_True.
    + assert (c' = space) as ->.
      { apply Hq, adjacent_cons. by left. }
      rewrite replace_dot_cons in *. simpl app in *.
      by rewrite squeeze_pair, IH.
  - rewrite squeeze_other.
    + destruct r as [|c' r'].
      * change (last [c]) with (Some c). by rewrite decide_False by (by intros [= ?]).
      * by rewrite IH, last_cons_cons.
    + intros r' Hr' ->. apply Hn, adjacent_cons. left. split; [done|].
      by rewrite <- replace_dot_head, Hr'.
Qed.

Lemma lstrip_id isspace t :
  (forall c, head t = Some c -> isspace c = false) -> lstrip isspace t = t.
Proof. destruct t as [|c r]; [done|]. intros H. simpl. by rewrite H. Qed.

Lemma rstrip_id isspace t :
  (forall c, last t = Some c -> isspace c = false) -> rstrip isspace t = t.
Proof.
  induction t as [|c r IH]; [done|]. intros H. simpl.
  destruct r as [|c' r'].
  - simpl. by rewrite H.
  - rewrite IH; [done|]. intros c0 H0. apply H. by rewrite last_cons_cons.
Qed.

Lemma rstrip_snoc isspace t c :
  isspace c = true -> rstrip isspace (t ++ [c]) = rstrip isspace t.
Proof.
  intros Hc. induction t as [|c0 r IH]; simpl.
  - by rewrite Hc.
  - by rewrite IH.
Qed.

(** X28. [_fix_punctuation] is idempotent: applied to its own result it
    returns that result. *)
Theorem fix_punctuation_twice (isspace : char -> bool) (text result : str) :
  isspace space = true ->
  _fix_punctuation isspace text = Some result ->
  _fix_punctuation isspace result = Some result.
Proof.
  intros Hsp H.
  destruct (fix_punctuation_shape isspace text) as (r & Hr & Hn & Hq & Hhead & Hlast).
  rewrite H in Hr. injection Hr as <-.
  rewrite fix_punctuation_closed_form, squeeze_replace_dot_shaped by done.
  f_equal. unfold strip. destruct (decide (last result = Some dot)) as [Hd|Hd].
  - rewrite lstrip_id.
    + by rewrite rstrip_snoc, rstrip_id.
    + intros c Hc. apply Hhead. destruct result; [done | exact Hc].
  - by rewrite app_nil_r, lstrip_id, rstrip_id.
Qed.

Lemma fix_punctuation_twice_witness :
  _fix_punctuation ascii_isspace (of_string "Grace. Peace to you. 1. 5 talents.")
  = Some (of_string "Grace. Peace to you. 1. 5 talents.").
Proof.
  apply (fix_punctuation_twice ascii_isspace (of_string " Grace.Peace  to you.  1.5 talents. ")).
  - reflexivity.
  - reflexivity.
Defined.

(** *** [_capitalize_sentences] *)

Lemma split_nonempty (a b : char) t : split [a; b] t <> [].
Proof.
  induction t as [|r IH|c r Hc IH] using (pair_scan_ind a b); [done| |].
  - by rewrite split_pair.
  - rewrite split_other by done. by destruct (split [a; b] r).
Qed.

Lemma extend_app c l1 l2 : l1 <> [] -> extend c (l1 ++ l2) = extend c l1 ++ l2.
Proof. by destruct l1. Qed.

Lemma split_app (x y : str) :
  split [dot; space] (x ++ [dot; space] ++ y)
  = split [dot; space] x ++ split [dot; space] y.
Proof.
  induction x as [|r IH|c r Hc IH] using (pair_scan_ind dot space).
  - simpl app. by rewrite split_pair.
  - simpl app in *. by rewrite !split_pair, IH.
  - simpl app. rewrite !split_other.
    + simpl app in IH. rewrite IH. apply extend_app, split_nonempty.
    + done.
    + intros r' Hr'. destruct r as [|c' r0].
      * by injection Hr'.
      * injection Hr' as -> _. by eapply Hc.
Qed.

Lemma join_app sep l1 l2 :
  l1 <> [] -> l2 <> [] ->
  join sep (l1 ++ l2) = join sep l1 ++ sep ++ join sep l2.
Proof.
  intros H1 H2. induction l1 as [|p ps IH]; [done|].
  destruct ps as [|p' ps'].
  - simpl. by destruct l2.
  - specialize (IH ltac:(done)). simpl app in *.
    change (join sep (p :: p' :: ps' ++ l2)) with (p ++ sep ++ join sep (p' :: ps' ++ l2)).
    change (join sep (p :: p' :: ps')) with (p ++ sep ++ join sep (p' :: ps')).
    rewrite IH. by rewrite <- !app_assoc.
Qed.

Lemma capitalize_sentences_unfold upper t :
  _capitalize_sentences upper t
  = join [dot; space] (map (capitalize_first upper) (split [dot; space] t)).
Proof. by destruct t. Qed.

Lemma split_without_separator t :
  contains [dot; space] t = false -> split [dot; space] t = [t].
Proof.
  induction t as [|c r IH]; [done|].
  rewrite contains_pair_cons. intros H. apply orb_false_elim in H as [H1 H2].
  rewrite split_other, IH; [done..|].
  intros r' -> ->. by rewrite startswith_pair_true in H1.
Qed.

(** X29. [_capitalize_sentences] works sentence by sentence: the result
    for two texts joined by a dot and a space is the two results joined
    by a dot and a space. *)
Theorem capitalize_sentences_app (upper : char -> str) (x y : str) :
  _capitalize_sentences upper (x ++ [dot; space] ++ y)
  = _capitalize_sentences upper x ++ [dot; space] ++ _capitalize_sentences upper y.
Proof.
  rewrite !capitalize_sentences_unfold, split_app, map_app.
  apply join_app; intros H%map_eq_nil; by apply split_nonempty in H.
Qed.

(** X30. Only a dot followed by a space ends a sentence. In a text
    without that pair, [_capitalize_sentences] turns the first character
    into upper case and leaves everything else as it is, whatever
    question marks, line ends or dots without a space the text has. *)
Theorem capitalize_without_separator (upper : char -> str) (text : str) :
  contains [dot; space] text = false ->
  _capitalize_sentences upper text = capitalize_first upper text.
Proof.
  intros H. rewrite capitalize_sentences_unfold, split_without_separator by done.
  reflexivity.
Qed.

Lemma capitalize_without_separator_witness :
  _capitalize_sentences ascii_upper (of_string "who is he? the lord.amen")
  = capitalize_first ascii_upper (of_string "who is he? the lord.amen").
Proof.
  apply (capitalize_without_separator ascii_upper (of_string "who is he? the lord.amen")).
  reflexivity.
Defined.

End formatter.
